(** * WhisperCC_MacOS_Local: the transcription orchestration, verified

    A shallow embedding of

      - [src/whisper_transcription_tool/module1_transcribe/__init__.py]
        ([cancel_current_transcription], [_stream_reader], [transcribe_audio],
        [transcribe_audio_chunked]) and
      - [src/whisper_transcription_tool/web/__init__.py]
        ([progress_event_handler]),

    with the properties the specification states about them.

    Conventions.  A Python [str] is the list of its code points.  Module-level
    globals, the event bus and the objects the code mutates are fields of an
    explicit state that every function threads.  A call that leaves the
    repository (the file system, the child process, the clock, the chunker)
    is answered by an oracle; an oracle may answer with an exception.
    [logger.*] calls and [print] have no effect the properties can see and
    are left out. *)

From stdpp Require Import gmap strings list fin_maps pretty.
From Stdlib Require Import ZArith QArith Lia Lqa Ascii Sorted.

Open Scope Z_scope.
Open Scope list_scope.

(** ** Python values shared by the modules *)

Module Py.

(** A Python [str]: its code points, in order. *)
Abbreviation str := (list N).

(** A string literal of the source, as code points. *)
Fixpoint lit (s : string) : str :=
  match s with
  | EmptyString => []
  | String a s' => N_of_ascii a :: lit s'
  end.

Arguments lit : simpl never.

(** [str.isspace] on one code point ([Py_UNICODE_ISSPACE]): the characters
    [\s] of [re] matches in a [str] pattern and [str.strip] removes. *)
Definition isspace (c : N) : bool :=
  ((9 <=? c) && (c <=? 13) || (28 <=? c) && (c <=? 32)
   || (c =? 133) || (c =? 160) || (c =? 5760)
   || (8192 <=? c) && (c <=? 8202)
   || (c =? 8232) || (c =? 8233) || (c =? 8239) || (c =? 8287)
   || (c =? 12288))%N.

(** [[0-9]] of [re]: the ten ASCII digits. *)
Definition isdigit (c : N) : bool := ((48 <=? c) && (c <=? 57))%N.

(** The integer a run of ASCII digits spells, most significant first. *)
Definition decimal (ds : str) : Z :=
  fold_left (fun acc c => 10 * acc + (Z.of_N c - 48)) ds 0.

(** [str(n)] for an integer: its decimal digits. *)
Definition str_of_Z (z : Z) : str := lit (pretty z).

(** The longest prefix of [s] whose characters satisfy [p], and the rest. *)
Fixpoint span (p : N -> bool) (s : str) : str * str :=
  match s with
  | [] => ([], [])
  | c :: s' =>
      if p c then let '(a, b) := span p s' in (c :: a, b) else ([], s)
  end.

(** [s.strip()]: leading and trailing whitespace removed. *)
Definition lstrip (s : str) : str := snd (span isspace s).
Definition strip (s : str) : str := rev (lstrip (rev (lstrip s))).

(** A Python number is an [int] or a [float]; a finite float is the
    rational it denotes.  Arithmetic on floats rounds, so the operations the
    code applies to numbers are not defined here: the functions that compute
    with numbers take them as parameters. *)
Inductive number := NInt (z : Z) | NFloat (q : Q).

(** An object identity (a dict on the heap). *)
Abbreviation loc := positive.

(** The values the embedded code stores in dicts and event payloads. *)
Inductive value :=
| VNone
| VBool (b : bool)
| VNum (n : number)
| VStr (s : str)
| VRef (l : loc).

(** A dict with [str] keys that the code only reads and writes by key. *)
Abbreviation dict := (gmap string value).

(** The exceptions of the embedded code.  All of them are subclasses of
    [Exception]: the handlers of the source are [except Exception]. *)
Inductive exn_class :=
| ValueError | KeyError | AttributeError | TypeError | OSError
| TimeoutError | DependencyError | ModelError | RuntimeError.

Record exn := Exn { exn_cls : exn_class; exn_str : str (* str(e) *) }.

(** The result of a call: a value, or a raised exception. *)
Inductive res (A : Type) := Ok (a : A) | Raise (e : exn).
Arguments Ok {A} a.
Arguments Raise {A} e.

(** [sys.int_info.default_max_str_digits]: the longest run of digits that
    [int] converts (since Python 3.11, which [setup.py] asks for).  The
    program does not change the limit. *)
Definition max_str_digits : Z := 4300.

(** The [ValueError] of [int] on a longer run. *)
Definition too_many_digits (n : nat) : exn :=
  Exn ValueError
    (lit "Exceeds the limit (4300 digits) for integer string conversion: value has "
     ++ str_of_Z (Z.of_nat n)
     ++ lit " digits; use sys.set_int_max_str_digits() to increase the limit").

(** [int(s)] on a run of ASCII digits: every digit counts towards the
    limit, leading zeros too. *)
Definition int_of_digits (ds : str) : res Z :=
  if Z.of_nat (length ds) <=? max_str_digits then Ok (decimal ds)
  else Raise (too_many_digits (length ds)).

(** [core.events.EventType]: the members the source publishes. *)
Inductive EventType :=
| PROGRESS_UPDATE | CUSTOM
| TRANSCRIPTION_STARTED | TRANSCRIPTION_COMPLETED | TRANSCRIPTION_FAILED
| MODEL_DOWNLOAD_STARTED | MODEL_DOWNLOAD_COMPLETED | MODEL_DOWNLOAD_FAILED.

(** A published event: its kind and its payload, a dict display of the
    source kept in the order it is written. *)
Record event := Event { event_type : EventType; data : list (string * value) }.

(** [payload.get(key)]. *)
Fixpoint get (k : string) (d : list (string * value)) : option value :=
  match d with
  | [] => None
  | (k', v) :: d' => if String.eqb k k' then Some v else get k d'
  end.

End Py.

Import Py.

(** ** ProcessSupervisor: [cancel_current_transcription] *)

Module Cancel.

(** What the function does to a [subprocess.Popen] handle. *)
Inductive proc_op :=
| Poll
| Terminate
| WaitFor (seconds : nat)   (* wait(timeout=seconds) *)
| Kill
| Wait.                     (* wait() *)

(** A child process as this function meets it: is it still running
    ([poll() is None]), and does it exit within the grace period once
    [terminate()] is sent ([wait(timeout=5)] returns rather than raising
    [subprocess.TimeoutExpired]). *)
Record process := {
  pid : nat;
  running : bool;
  heeds_terminate : bool
}.

(** The module-level globals, with the log of process operations and of
    published events. *)
Record state := {
  current_transcription_process : option process;
  cancellation_requested : bool;
  ops : list (nat * proc_op);
  published : list event
}.

Definition cancelled_event : event :=
  Event CUSTOM
    [("type"%string, VStr (lit "TRANSCRIPTION_CANCELLED"));
     ("message"%string, VStr (lit "Transkription wurde abgebrochen"))].

(** [cancellation_requested = True]. *)
Definition request_cancellation (s : state) : state :=
  {| current_transcription_process := current_transcription_process s;
     cancellation_requested := true;
     ops := ops s;
     published := published s |}.

(** One process operation, logged. *)
Definition op (p : process) (o : proc_op) (s : state) : state :=
  {| current_transcription_process := current_transcription_process s;
     cancellation_requested := cancellation_requested s;
     ops := ops s ++ [(pid p, o)];
     published := published s |}.

(** [current_transcription_process = None], then the cancel event. *)
Definition clear_and_publish (s : state) : state :=
  {| current_transcription_process := None;
     cancellation_requested := cancellation_requested s;
     ops := ops s;
     published := published s ++ [cancelled_event] |}.

Definition cancel_current_transcription (s : state) : bool * state :=
  let s := request_cancellation s in
  match current_transcription_process s with
  | Some p =>
      (* a Popen object is truthy; then poll() is asked *)
      let s := op p Poll s in
      if running p then
        let s := op p Terminate s in
        let s := op p (WaitFor 5) s in
        let s :=
          if heeds_terminate p then s      (* wait(timeout=5) returned *)
          else op p Wait (op p Kill s) in  (* subprocess.TimeoutExpired *)
        (true, clear_and_publish s)
      else (cancellation_requested s, s)
  | None => (cancellation_requested s, s)
  end.

(** An operation that acts on the process (everything but the query
    [poll()]). *)
Definition acts (o : nat * proc_op) : bool :=
  match snd o with Poll => false | _ => true end.

(** The return value is the flag the call leaves behind, and that flag is
    set. *)
Lemma cancel_returns_flag s :
  fst (cancel_current_transcription s)
  = cancellation_requested (snd (cancel_current_transcription s))
  /\ fst (cancel_current_transcription s) = true.
Proof.
  unfold cancel_current_transcription. simpl.
  destruct (current_transcription_process s) as [p|]; simpl; [|done].
  destruct (running p); simpl; [|done].
  destruct (heeds_terminate p); done.
Qed.

(** Without a running process the call only sets the flag: nothing is sent
    to a process, nothing is published, the slot is left as it is. *)
Lemma cancel_idle s :
  match current_transcription_process s with
  | Some p => running p = false
  | None => True
  end ->
  List.filter acts (ops (snd (cancel_current_transcription s)))
  = List.filter acts (ops s)
  /\ published (snd (cancel_current_transcription s)) = published s
  /\ current_transcription_process (snd (cancel_current_transcription s))
     = current_transcription_process s.
Proof.
  unfold cancel_current_transcription. simpl.
  destruct (current_transcription_process s) as [p|] eqn:E; simpl.
  - intros ->. simpl. rewrite List.filter_app. simpl.
    rewrite app_nil_r. auto.
  - intros _. auto.
Qed.

(** C5.  Two calls in a row while a child process is alive: the first sets
    the cancellation flag, terminates the process (killing it when the
    five-second wait runs out), clears the process slot, publishes the
    cancellation event and returns true; the second finds the slot empty,
    touches no process, publishes nothing and returns the cancellation
    flag, which is true. *)
Theorem cancel_twice (s : state) (p : process) :
  current_transcription_process s = Some p ->
  running p = true ->
  let (r1, s1) := cancel_current_transcription s in
  let (r2, s2) := cancel_current_transcription s1 in
  r1 = true
  /\ cancellation_requested s1 = true
  /\ ops s1 = ops s ++ [(pid p, Poll); (pid p, Terminate); (pid p, WaitFor 5)]
                ++ (if heeds_terminate p then []
                    else [(pid p, Kill); (pid p, Wait)])
  /\ published s1 = published s ++ [cancelled_event]
  /\ current_transcription_process s1 = None
  /\ r2 = cancellation_requested s1
  /\ r2 = true
  /\ s2 = s1.
Proof.
  intros Hp Hrun. unfold cancel_current_transcription. simpl.
  rewrite Hp, Hrun. simpl.
  destruct (heeds_terminate p); simpl; rewrite <- ?app_assoc; simpl;
    repeat split.
Qed.

Definition busy : state :=
  {| current_transcription_process :=
       Some {| pid := 4711; running := true; heeds_terminate := false |};
     cancellation_requested := false;
     ops := [];
     published := [] |}.

Lemma cancel_twice_witness :
  let (r1, s1) := cancel_current_transcription busy in
  let (r2, s2) := cancel_current_transcription s1 in
  r1 = true
  /\ cancellation_requested s1 = true
  /\ ops s1 = [(4711%nat, Poll); (4711%nat, Terminate); (4711%nat, WaitFor 5);
               (4711%nat, Kill); (4711%nat, Wait)]
  /\ published s1 = [cancelled_event]
  /\ current_transcription_process s1 = None
  /\ r2 = cancellation_requested s1
  /\ r2 = true
  /\ s2 = s1.
Proof. exact (cancel_twice busy _ eq_refl eq_refl). Defined.

End Cancel.

(** ** What the orchestration does to the world outside *)

Module Effects.

(** The calls with an effect outside the program that the properties speak
    of, in the order they are made. *)
Inductive effect :=
| ProcOp (o : Cancel.proc_op)          (* on the child process *)
| Popen (cmd : list str)               (* subprocess.Popen(cmd, ...) *)
| Cleanup (path : str)                 (* cleanup_after_transcription(path, config) *)
| CleanupChunks (dir : str)            (* chunker.cleanup_chunks(dir) *)
| Copy (src dst : str)                 (* shutil.copy(src, dst) *)
| WriteText (path : str) (content : str)
| WriteJson (path : str) (text : str) (segments : list dict)
            (chunks : option nat).     (* json.dump({...}, f) *)

End Effects.

Export Effects.

(** ** StreamPump, the workers: [_stream_reader] *)

Module StreamReader.

(** The two output channels of the child process; the source names them by
    the strings ["stdout"] and ["stderr"]. *)
Inductive channel := Stdout | Stderr.

Definition channel_name (c : channel) : str :=
  match c with Stdout => lit "stdout" | Stderr => lit "stderr" end.

(** What the worker puts on the queue: a tagged line, or the tag with
    [None] once the channel is finished. *)
Abbreviation item := (channel * option str)%type.

(** A pipe as the worker meets it: the answers of the successive
    [stream.readline()] calls (a line, or an exception), after which
    [readline] returns [''] (end of file), and the answer of
    [stream.close()]. *)
Record stream := {
  reads : list (res str);
  close : res unit
}.

(** [for line in iter(stream.readline, ''): if line: output_queue.put(...)]:
    the loop ends at the first [''] and is left by an exception. *)
Fixpoint drain (rs : list (res str)) (stream_name : channel)
    (output_queue : list item) : res unit * list item :=
  match rs with
  | [] => (Ok tt, output_queue)
  | Ok [] :: _ => (Ok tt, output_queue)
  | Ok line :: rs' =>
      drain rs' stream_name (output_queue ++ [(stream_name, Some line)])
  | Raise e :: _ => (Raise e, output_queue)
  end.

(** The line [logger.error] writes in the handler. *)
Definition read_error (stream_name : channel) (e : exn) : str :=
  lit "Error reading from " ++ channel_name stream_name ++ lit ": "
  ++ exn_str e.

(** The worker: the queue and the log it leaves, and how it ends. *)
Definition _stream_reader (s : stream) (output_queue : list item)
    (stream_name : channel) (log : list str)
    : res unit * list item * list str :=
  (* try: *)
  let '(r, q) := drain (reads s) stream_name output_queue in
  let r := match r with Ok _ => close s | Raise e => Raise e end in
  (* except Exception as e: logger.error(...) *)
  let log := match r with
             | Ok _ => log
             | Raise e => log ++ [read_error stream_name e]
             end in
  (* finally: output_queue.put((stream_name, None)) *)
  (Ok tt, q ++ [(stream_name, None)], log).

(** The number of end-of-channel sentinels of a channel in a queue. *)
Definition sentinels (c : channel) (q : list item) : nat :=
  length (List.filter
            (fun i : item =>
               match i with
               | (Stdout, None) => match c with Stdout => true | _ => false end
               | (Stderr, None) => match c with Stderr => true | _ => false end
               | _ => false
               end) q).

Definition tagged (c : channel) (lines : list str) : list item :=
  map (fun l => (c, Some l)) lines.

Lemma sentinels_app c q1 q2 :
  sentinels c (q1 ++ q2) = (sentinels c q1 + sentinels c q2)%nat.
Proof. unfold sentinels. now rewrite List.filter_app, length_app. Qed.

Lemma sentinels_tagged c lines : sentinels c (tagged c lines) = 0%nat.
Proof.
  unfold sentinels, tagged. induction lines as [|l ls IH]; [done|].
  simpl. destruct c; exact IH.
Qed.

Lemma sentinels_one c : sentinels c [(c, None)] = 1%nat.
Proof. now destruct c. Qed.

(** What the read loop puts on the queue: the lines read, tagged, behind
    what was there. *)
Lemma drain_queue rs c q :
  exists lines,
    snd (drain rs c q) = q ++ tagged c lines
    /\ Forall (fun l => l <> []) lines
    /\ map Ok lines `prefix_of` rs.
Proof.
  revert q. induction rs as [|r rs IH]; intros q; simpl.
  - exists []. rewrite app_nil_r. repeat split; [constructor | apply prefix_nil].
  - destruct r as [[|ch line]|e]; simpl.
    + exists []. rewrite app_nil_r.
      repeat split; [constructor | apply prefix_nil].
    + destruct (IH (q ++ [(c, Some (ch :: line))])) as (ls & Hq & Hne & Hp).
      exists ((ch :: line) :: ls). rewrite Hq, <- app_assoc. simpl.
      repeat split.
      * constructor; [discriminate | exact Hne].
      * now apply prefix_cons.
    + exists []. rewrite app_nil_r.
      repeat split; [constructor | apply prefix_nil].
Qed.

(** The read loop up to a failing [readline]: the lines before it are on
    the queue and the exception leaves the loop. *)
Lemma drain_error lines e rest c q :
  Forall (fun l => l <> []) lines ->
  drain (map Ok lines ++ Raise e :: rest) c q
  = (Raise e, q ++ tagged c lines).
Proof.
  intros Hne. revert q. induction Hne as [|l ls Hl _ IH]; intros q; simpl.
  - now rewrite app_nil_r.
  - destruct l as [|ch l]; [done|].
    rewrite IH, <- app_assoc. reflexivity.
Qed.

(** C4.  Whatever the channel answers, the worker returns normally and has
    added to the queue the lines it read, in order, followed by one sentinel
    [(stream_name, None)]: exactly one sentinel of its channel is added.
    When a [readline] raises, the lines before it are on the queue, the
    error is logged, the sentinel follows as at end of file, and nothing is
    raised to the caller of the worker. *)
Theorem stream_reader_sentinel (s : stream) (q : list item) (c : channel)
    (log : list str) :
  (exists lines,
      fst (_stream_reader s q c log)
      = (Ok tt, q ++ tagged c lines ++ [(c, None)])
      /\ Forall (fun l => l <> []) lines
      /\ map Ok lines `prefix_of` reads s
      /\ sentinels c (snd (fst (_stream_reader s q c log)))
         = S (sentinels c q))
  /\ (forall lines e rest,
        Forall (fun l => l <> []) lines ->
        reads s = map Ok lines ++ Raise e :: rest ->
        _stream_reader s q c log
        = (Ok tt, q ++ tagged c lines ++ [(c, None)],
           log ++ [read_error c e])).
Proof.
  split.
  - destruct (drain_queue (reads s) c q) as (lines & Hq & Hne & Hp).
    exists lines. unfold _stream_reader.
    destruct (drain (reads s) c q) as [r q'] eqn:E. simpl in Hq. subst q'.
    simpl. rewrite <- app_assoc. repeat split; try assumption.
    rewrite !sentinels_app, sentinels_tagged, sentinels_one. lia.
  - intros lines e rest Hne Hr. unfold _stream_reader.
    rewrite Hr, drain_error by assumption. simpl.
    now rewrite <- app_assoc.
Qed.

(** A pipe that yields two lines and then fails. *)
Example stream_reader_broken_pipe :
  _stream_reader
    {| reads := [Ok (lit "a"); Ok (lit "b");
                 Raise (Exn OSError (lit "broken")); Ok (lit "c")];
       close := Ok tt |}
    [] Stderr []
  = (Ok tt,
     [(Stderr, Some (lit "a")); (Stderr, Some (lit "b")); (Stderr, None)],
     [lit "Error reading from stderr: broken"]).
Proof. reflexivity. Qed.

End StreamReader.

(** ** StreamPump, the consumer: the loop of [transcribe_audio] *)

Module Pump.

Import StreamReader.

(** *** The progress marker

    [progress_pattern]: an escaped opening bracket, the group of [\s] starred,
    the group of [[0-9]] plussed, a percent sign, an escaped closing
    bracket. *)

(** The pattern tried at the start of [s]: an opening bracket, whitespace,
    digits, a percent sign and a closing bracket.  Both runs are taken as
    long as they go: a shorter run of whitespace would have to be followed
    by a digit and a shorter run of digits by a percent sign, so the
    backtracking of [re] finds nothing the longest runs do not.  The answer
    is the two groups. *)
Definition match_here (s : str) : option (str * str) :=
  match s with
  | c :: r =>
      if (c =? 91)%N then
        let '(ws, r1) := span isspace r in
        let '(ds, r2) := span isdigit r1 in
        match ds, r2 with
        | _ :: _, p :: b :: _ =>
            if ((p =? 37) && (b =? 93))%N then Some (ws, ds) else None
        | _, _ => None
        end
      else None
  | [] => None
  end.

(** [progress_pattern.search(line)]: the match at the leftmost position that
    has one. *)
Fixpoint search (line : str) : option (str * str) :=
  match match_here line with
  | Some m => Some m
  | None => match line with [] => None | _ :: line' => search line' end
  end.

(** The text of a marker with whitespace [ws] and digits [ds]. *)
Definition marker (ws ds : str) : str := [91%N] ++ ws ++ ds ++ [37%N; 93%N].

(** A marker stands at position [i] of [line]. *)
Definition marker_at (line : str) (i : nat) (ws ds : str) : Prop :=
  forallb isspace ws = true
  /\ forallb isdigit ds = true
  /\ ds <> []
  /\ exists post, drop i line = marker ws ds ++ post.

(** No marker stands before position [i]. *)
Definition first_marker (line : str) (i : nat) : Prop :=
  forall j ws ds, (j < i)%nat -> ~ marker_at line j ws ds.

(** *** What the loop does with one line of the primary channel *)

Section Lines.

Variable audio_path : str.
Variable transcription_id : str.

Definition terminal_msg (line : str) : str :=
  lit "[WHISPER PROGRESS] " ++ strip line.

Definition terminal_event (line : str) : event :=
  Event PROGRESS_UPDATE
    [("task"%string, VStr (lit "transcription"));
     ("terminal_output"%string, VStr (terminal_msg line));
     ("user_id"%string, VStr transcription_id)].

Definition progress_event (progress : Z) : event :=
  Event PROGRESS_UPDATE
    [("task"%string, VStr (lit "transcription"));
     ("progress"%string, VNum (NInt progress));
     ("status"%string,
      VStr (lit "Transkribiere... " ++ str_of_Z progress ++ lit "%"));
     ("terminal_output"%string,
      VStr (lit "[PROGRESS UPDATE] Transkription bei " ++ str_of_Z progress
            ++ lit "%"));
     ("audio_path"%string, VStr audio_path);
     ("user_id"%string, VStr transcription_id)].

(** What handling a line read from stdout publishes, and how it ends: the
    terminal output, and the progress when the pattern is found
    ([progress = int(match.group(2))]).  When [int] raises, the terminal
    output has been published and the progress has not. *)
Definition on_stdout_line (line : str) : res unit * list event :=
  match search line with
  | Some (_, ds) =>
      match int_of_digits ds with
      | Ok progress => (Ok tt, [terminal_event line; progress_event progress])
      | Raise e => (Raise e, [terminal_event line])
      end
  | None => (Ok tt, [terminal_event line])
  end.

(** The [progress] fields among some events. *)
Definition progress_fields (evs : list event) : list value :=
  omap (fun e => get "progress" (data e)) evs.

(** *** The loop

    The two workers fill the queue while the loop runs.  One iteration of
    the loop meets the world through a [tick]: what the workers have put on
    the queue since the consumer last looked, the reading of the clock, what
    arrives while [get(timeout=0.1)] waits on an empty queue, and the state
    of the child process and of the two worker threads. *)

Record tick := {
  arrived : list item;
  elapsed_time : Q;           (* time.time() - process_start_time *)
  arrived_in_poll : list item;
  exited : bool;              (* process.poll() is not None *)
  stdout_alive : bool;        (* stdout_thread.is_alive() *)
  stderr_alive : bool;        (* stderr_thread.is_alive() *)
  exits_on_terminate : bool   (* wait(timeout=5) returns *)
}.

Record loop_state := {
  output_queue : list item;
  stdout_done : bool;         (* streams_done["stdout"] *)
  stderr_done : bool;         (* streams_done["stderr"] *)
  stdout : list str;
  stderr : list str;
  published : list event;
  effects : list effect
}.

(** [process_timeout = 3600]. *)
Definition process_timeout : Q := 3600.

Definition put_all (items : list item) (st : loop_state) : loop_state :=
  {| output_queue := output_queue st ++ items;
     stdout_done := stdout_done st; stderr_done := stderr_done st;
     stdout := stdout st; stderr := stderr st;
     published := published st; effects := effects st |}.

(** [not all(streams_done.values()) or not output_queue.empty()]. *)
Definition loop_test (st : loop_state) : bool :=
  negb (stdout_done st && stderr_done st)
  || negb (match output_queue st with [] => true | _ => false end).

(** The branch taken when the budget is exceeded, up to its [raise]:
    terminate, wait five seconds, kill and wait if the process is still
    there, and the cleanup, whose own failure is swallowed. *)
Definition on_timeout (t : tick) (st : loop_state) : loop_state :=
  {| output_queue := output_queue st;
     stdout_done := stdout_done st; stderr_done := stderr_done st;
     stdout := stdout st; stderr := stderr st;
     published := published st;
     effects := effects st
       ++ [ProcOp Cancel.Terminate; ProcOp (Cancel.WaitFor 5)]
       ++ (if exits_on_terminate t then []
           else [ProcOp Cancel.Kill; ProcOp Cancel.Wait])
       ++ [Cleanup audio_path] |}.

(** The item taken from the queue, handled.  The body can raise in one
    place, the [int] of a progress marker; the line is recorded and its
    terminal output published by then. *)
Definition handle (i : item) (rest : list item) (st : loop_state)
    : res unit * loop_state :=
  match i with
  | (Stdout, None) =>
      (Ok tt,
       {| output_queue := rest;
          stdout_done := true; stderr_done := stderr_done st;
          stdout := stdout st; stderr := stderr st;
          published := published st; effects := effects st |})
  | (Stderr, None) =>
      (Ok tt,
       {| output_queue := rest;
          stdout_done := stdout_done st; stderr_done := true;
          stdout := stdout st; stderr := stderr st;
          published := published st; effects := effects st |})
  | (Stdout, Some line) =>
      let '(r, evs) := on_stdout_line line in
      (r,
       {| output_queue := rest;
          stdout_done := stdout_done st; stderr_done := stderr_done st;
          stdout := stdout st ++ [line]; stderr := stderr st;
          published := published st ++ evs;
          effects := effects st |})
  | (Stderr, Some line) =>
      (Ok tt,
       {| output_queue := rest;
          stdout_done := stdout_done st; stderr_done := stderr_done st;
          stdout := stdout st; stderr := stderr st ++ [line];
          published := published st; effects := effects st |})
  end.

(** How the loop is left. *)
Inductive exit :=
| Finished            (* the [while] condition is false *)
| Broke               (* [break]: process gone, both workers finished *)
| TimedOut            (* [raise TimeoutError(...)] *)
| Failed (e : exn).   (* an exception of the body *)

Inductive step_result :=
| Continue (st : loop_state)
| Leave (x : exit) (st : loop_state).

(** One pass: the [while] test, the timeout check, and the body. *)
Definition step (t : tick) (st : loop_state) : step_result :=
  let st := put_all (arrived t) st in
  if negb (loop_test st) then Leave Finished st
  else if negb (Qle_bool (elapsed_time t) process_timeout) then
    Leave TimedOut (on_timeout t st)
  else
    (* output_queue.get(timeout=0.1) *)
    let st := match output_queue st with
              | [] => put_all (arrived_in_poll t) st
              | _ => st
              end in
    match output_queue st with
    | i :: rest =>
        match handle i rest st with
        | (Ok _, st') => Continue st'
        | (Raise e, st') => Leave (Failed e) st'
        end
    | [] =>
        (* except queue.Empty *)
        if exited t then
          if stdout_alive t || stderr_alive t then Continue st
          else Leave Broke st
        else Continue st
    end.

(** The wall clock does not stand still while the loop runs, and a pass
    waits a tenth of a second at most: a run that is not over earlier comes
    to a pass that reads a time past the budget. *)
Record late_tick := Late {
  late_pass : tick;
  is_late : Qle_bool (elapsed_time late_pass) process_timeout = false
}.

(** Such a pass leaves the loop. *)
Lemma late_leaves (l : late_tick) (st st' : loop_state) :
  step (late_pass l) st <> Continue st'.
Proof.
  unfold step. destruct (negb (loop_test _)); [discriminate|].
  rewrite (is_late l). discriminate.
Qed.

Definition last_step (l : late_tick) (st : loop_state) : exit * loop_state :=
  match step (late_pass l) st as r
        return step (late_pass l) st = r -> exit * loop_state with
  | Leave x st' => fun _ => (x, st')
  | Continue st' => fun E => False_rect _ (late_leaves l st st' E)
  end eq_refl.

(** The loop over the passes the run goes through: those of [ticks], as
    far as the loop gets, and the late one after them. *)
Fixpoint consumer_loop (ticks : list tick) (overdue : late_tick)
    (st : loop_state) : exit * loop_state :=
  match ticks with
  | [] => last_step overdue st
  | t :: ticks' =>
      match step t st with
      | Continue st' => consumer_loop ticks' overdue st'
      | Leave x st' => (x, st')
      end
  end.

(** The passes of [ticks] all go through: the state after them. *)
Fixpoint passes (ticks : list tick) (st : loop_state) : option loop_state :=
  match ticks with
  | [] => Some st
  | t :: ticks' =>
      match step t st with
      | Continue st' => passes ticks' st'
      | Leave _ _ => None
      end
  end.

(** *** The queue and what the loop has taken from it *)

(** [get] finds the queue empty in the pass [t] from [st], and waits. *)
Definition waits (t : tick) (st : loop_state) : bool :=
  loop_test (put_all (arrived t) st)
  && Qle_bool (elapsed_time t) process_timeout
  && match output_queue (put_all (arrived t) st) with
     | [] => true
     | _ => false
     end.

(** What the workers put on the queue in the pass [t] from [st]. *)
Definition intake (t : tick) (st : loop_state) : list item :=
  arrived t ++ (if waits t st then arrived_in_poll t else []).

(** What the workers put on the queue in the course of the loop. *)
Fixpoint delivered (ticks : list tick) (overdue : late_tick)
    (st : loop_state) : list item :=
  match ticks with
  | [] => intake (late_pass overdue) st
  | t :: ticks' =>
      intake t st
      ++ match step t st with
         | Continue st' => delivered ticks' overdue st'
         | Leave _ _ => []
         end
  end.

(** The lines of a channel among some items. *)
Definition lines_of (c : channel) (items : list item) : list str :=
  omap (fun i : item =>
          match c, i with
          | Stdout, (Stdout, Some l) | Stderr, (Stderr, Some l) => Some l
          | _, _ => None
          end) items.

(** [st'] is [st] with the items [taken] handled, in their order: a
    channel is done when its sentinel has been taken, the lines are
    recorded by channel, and for each line of stdout its events are
    published. *)
Definition accounts (taken : list item) (st st' : loop_state) : Prop :=
  (stdout_done st' = true
   <-> stdout_done st = true \/ (Stdout, None) ∈ taken)
  /\ (stderr_done st' = true
      <-> stderr_done st = true \/ (Stderr, None) ∈ taken)
  /\ stdout st' = stdout st ++ lines_of Stdout taken
  /\ stderr st' = stderr st ++ lines_of Stderr taken
  /\ published st'
     = published st
       ++ concat (map (fun l => snd (on_stdout_line l))
                      (lines_of Stdout taken)).

(** The exception that ends a run is the one [int] raised for the line
    taken last. *)
Definition raised_by (x : exit) (taken : list item) : Prop :=
  match x with
  | Failed e =>
      exists line,
        last taken = Some (Stdout, Some line)
        /\ fst (on_stdout_line line) = Raise e
  | _ => True
  end.

End Lines.

(** *** The marker search finds the leftmost marker *)

Lemma span_split p s :
  s = fst (span p s) ++ snd (span p s)
  /\ forallb p (fst (span p s)) = true.
Proof.
  induction s as [|c s [IH1 IH2]]; simpl; [done|].
  destruct (p c) eqn:E; simpl; [|done].
  destruct (span p s) as [a b]; simpl in *. rewrite E, IH2. now rewrite IH1 at 1.
Qed.

Lemma span_stop p a c b :
  forallb p a = true -> p c = false -> span p (a ++ c :: b) = (a, c :: b).
Proof.
  intros Ha Hc. induction a as [|x a IH]; simpl in *.
  - now rewrite Hc.
  - apply andb_prop in Ha as [Hx Ha]. now rewrite Hx, (IH Ha).
Qed.

Lemma digit_not_space c : isdigit c = true -> isspace c = false.
Proof.
  unfold isdigit, isspace. intros H.
  apply andb_prop in H as [H1 H2]. apply N.leb_le in H1, H2.
  rewrite (proj2 (N.leb_gt c 13)) by lia.
  rewrite (proj2 (N.leb_gt c 32)) by lia.
  rewrite (proj2 (N.leb_gt 8192 c)) by lia.
  rewrite !(proj2 (N.eqb_neq c _)) by lia.
  now rewrite !andb_false_r.
Qed.

Lemma match_here_marker ws ds post :
  forallb isspace ws = true -> forallb isdigit ds = true -> ds <> [] ->
  match_here (marker ws ds ++ post) = Some (ws, ds).
Proof.
  intros Hws Hds Hne. destruct ds as [|d ds]; [done|].
  unfold marker, match_here. simpl app. simpl in Hds.
  apply andb_prop in Hds as [Hd Hds].
  change (91 =? 91)%N with true. cbv iota.
  rewrite <- app_assoc. simpl app.
  rewrite (span_stop isspace ws d) by auto using digit_not_space.
  cbv beta iota.
  replace (d :: (ds ++ [37%N; 93%N]) ++ post)
    with ((d :: ds) ++ 37%N :: 93%N :: post)
    by (simpl; now rewrite <- app_assoc).
  rewrite (span_stop isdigit (d :: ds) 37%N);
    [reflexivity | simpl; now rewrite Hd | reflexivity].
Qed.

Lemma match_here_sound s ws ds :
  match_here s = Some (ws, ds) ->
  forallb isspace ws = true /\ forallb isdigit ds = true /\ ds <> []
  /\ exists post, s = marker ws ds ++ post.
Proof.
  unfold match_here. destruct s as [|c r]; [done|].
  destruct (N.eqb_spec c 91) as [->|]; [|done].
  pose proof (span_split isspace r) as [Hr Hws].
  destruct (span isspace r) as [ws' r1]. simpl in Hr, Hws.
  pose proof (span_split isdigit r1) as [Hr1 Hds].
  destruct (span isdigit r1) as [ds' r2]. simpl in Hr1, Hds.
  destruct ds' as [|d ds']; [done|].
  destruct r2 as [|pc [|bc r2]]; [done|done|].
  destruct (N.eqb_spec pc 37) as [->|]; [|done].
  destruct (N.eqb_spec bc 93) as [->|]; [|done].
  simpl. intros [= <- <-]. repeat split; [done|done|done|].
  exists r2. unfold marker. subst r r1. simpl.
  rewrite <- app_assoc. simpl. now rewrite <- app_assoc.
Qed.

Lemma marker_at_0 line ws ds :
  marker_at line 0 ws ds <-> match_here line = Some (ws, ds).
Proof.
  split.
  - intros (Hws & Hds & Hne & post & Hd). rewrite drop_0 in Hd. subst line.
    now apply match_here_marker.
  - intros H. apply match_here_sound in H as (? & ? & ? & post & ->).
    repeat split; try done. exists post. now rewrite drop_0.
Qed.

Lemma marker_at_S c line i ws ds :
  marker_at (c :: line) (S i) ws ds <-> marker_at line i ws ds.
Proof. reflexivity. Qed.

Lemma marker_at_nil i ws ds : ~ marker_at [] i ws ds.
Proof.
  intros (_ & _ & _ & post & H). rewrite drop_nil in H. discriminate.
Qed.

Lemma search_cons c line :
  search (c :: line)
  = match match_here (c :: line) with
    | Some m => Some m
    | None => search line
    end.
Proof. reflexivity. Qed.

(** [search] answers with the groups of the leftmost marker. *)
Lemma search_first line i ws ds :
  marker_at line i ws ds -> first_marker line i ->
  search line = Some (ws, ds).
Proof.
  revert i. induction line as [|c line IH]; intros i Hm Hfirst.
  - now apply marker_at_nil in Hm.
  - destruct i as [|i].
    + apply marker_at_0 in Hm. rewrite search_cons. now rewrite Hm.
    + rewrite search_cons.
      destruct (match_here (c :: line)) as [[ws' ds']|] eqn:E.
      * apply marker_at_0 in E. exfalso.
        apply (Hfirst 0%nat ws' ds'); [lia | exact E].
      * apply (IH i); [exact (proj1 (marker_at_S c line i ws ds) Hm)|].
        intros j ws' ds' Hj Hmj. apply (Hfirst (S j) ws' ds'); [lia|].
        exact (proj2 (marker_at_S c line j ws' ds') Hmj).
Qed.

(** [search] finds only markers, and none when there is none. *)
Lemma search_sound line ws ds :
  search line = Some (ws, ds) ->
  exists i, marker_at line i ws ds /\ first_marker line i.
Proof.
  induction line as [|c line IH].
  - discriminate.
  - rewrite search_cons. destruct (match_here (c :: line)) as [m|] eqn:E.
    + intros [= ->]. exists 0%nat. split; [now apply marker_at_0|].
      intros j ? ? Hj. lia.
    + intros H. destruct (IH H) as (i & Hm & Hfirst). exists (S i).
      split; [exact (proj2 (marker_at_S c line i ws ds) Hm)|].
      intros [|j] ws' ds' Hj Hmj.
      * apply marker_at_0 in Hmj. congruence.
      * apply (Hfirst j ws' ds'); [lia|].
        exact (proj1 (marker_at_S c line j ws' ds') Hmj).
Qed.

Lemma search_none line :
  (forall i ws ds, ~ marker_at line i ws ds) -> search line = None.
Proof.
  intros Hno. destruct (search line) as [[ws ds]|] eqn:E; [|done].
  apply search_sound in E as (i & Hm & _). now apply Hno in Hm.
Qed.

(** *** What the loop takes from the queue *)

Lemma accounts_same a tid st st' :
  stdout_done st' = stdout_done st -> stderr_done st' = stderr_done st ->
  stdout st' = stdout st -> stderr st' = stderr st ->
  published st' = published st ->
  accounts a tid [] st st'.
Proof.
  intros H1 H2 H3 H4 H5. unfold accounts. rewrite H1, H2, H3, H4, H5.
  cbn [lines_of omap map concat]. rewrite !app_nil_r.
  repeat split; try tauto; intros [H|H]; try done;
    now apply elem_of_nil in H.
Qed.

Lemma lines_of_app c xs ys :
  lines_of c (xs ++ ys) = lines_of c xs ++ lines_of c ys.
Proof. apply omap_app. Qed.

Lemma accounts_trans a tid h1 h2 st1 st2 st3 :
  accounts a tid h1 st1 st2 -> accounts a tid h2 st2 st3 ->
  accounts a tid (h1 ++ h2) st1 st3.
Proof.
  intros (A1 & A2 & A3 & A4 & A5) (B1 & B2 & B3 & B4 & B5).
  unfold accounts. rewrite !lines_of_app, map_app, concat_app.
  rewrite B3, B4, B5, A3, A4, A5, <- !app_assoc.
  repeat split; try reflexivity.
  - rewrite B1, A1, elem_of_app. tauto.
  - rewrite elem_of_app, B1, A1. tauto.
  - rewrite B2, A2, elem_of_app. tauto.
  - rewrite elem_of_app, B2, A2. tauto.
Qed.

Lemma put_all_accounts a tid items st : accounts a tid [] st (put_all items st).
Proof. now apply accounts_same. Qed.

(** Handling an item takes it from the queue and accounts for it. *)
Lemma handle_accounts a tid i rest st :
  output_queue (snd (handle a tid i rest st)) = rest
  /\ accounts a tid [i] st (snd (handle a tid i rest st))
  /\ match fst (handle a tid i rest st) with
     | Ok _ => True
     | Raise e =>
         exists line,
           i = (Stdout, Some line)
           /\ fst (on_stdout_line a tid line) = Raise e
     end.
Proof.
  assert (Hin : forall x y : item, x ∈ [y] <-> x = y)
    by (intros; apply list_elem_of_singleton).
  destruct i as [[] [line|]]; cbn [handle].
  - destruct (on_stdout_line a tid line) as [r evs] eqn:E.
    cbn [fst snd output_queue]. split; [reflexivity|]. split.
    + unfold accounts.
      cbn -[on_stdout_line]. rewrite E. cbn [snd]. rewrite !app_nil_r.
      repeat split; try tauto; intros [H|H]; try done;
        apply Hin in H; discriminate.
    + destruct r; [done|]. exists line. now rewrite E.
  - cbn [fst snd output_queue]. split; [reflexivity|]. split; [|done].
    unfold accounts.
    cbn -[on_stdout_line]. rewrite !app_nil_r.
    repeat split; try tauto; try (intros _; right; now apply Hin).
    intros [H|H]; try done. apply Hin in H; discriminate.
  - cbn [fst snd output_queue]. split; [reflexivity|]. split; [|done].
    unfold accounts.
    cbn -[on_stdout_line]. rewrite !app_nil_r.
    repeat split; try tauto; intros [H|H]; try done;
      apply Hin in H; discriminate.
  - cbn [fst snd output_queue]. split; [reflexivity|]. split; [|done].
    unfold accounts.
    cbn -[on_stdout_line]. rewrite !app_nil_r.
    repeat split; try tauto; try (intros _; right; now apply Hin).
    intros [H|H]; try done. apply Hin in H; discriminate.
Qed.

(** The state a pass leads to. *)
Definition after (r : step_result) : loop_state :=
  match r with Continue st' | Leave _ st' => st' end.

(** One pass: what was on the queue and what the workers have added is
    what the pass took and what it leaves there. *)
Lemma step_accounts a tid t st :
  exists taken,
    output_queue st ++ intake t st
    = taken ++ output_queue (after (step a tid t st))
    /\ accounts a tid taken st (after (step a tid t st))
    /\ match step a tid t st with
       | Leave x _ => raised_by a tid x taken
       | Continue _ => True
       end.
Proof.
  unfold step, intake, waits.
  set (st1 := put_all (arrived t) st).
  assert (Hq1 : output_queue st1 = output_queue st ++ arrived t) by reflexivity.
  destruct (loop_test st1); cbn [negb andb].
  2:{ exists []. rewrite app_nil_r. cbn [after app]. split; [now rewrite Hq1|].
      split; [apply put_all_accounts | done]. }
  destruct (Qle_bool (elapsed_time t) process_timeout); cbn [negb andb].
  2:{ exists []. rewrite app_nil_r. cbn [after app on_timeout output_queue].
      split; [now rewrite Hq1|]. split; [now apply accounts_same | done]. }
  set (st2 := match output_queue st1 with
              | [] => put_all (arrived_in_poll t) st1
              | _ => st1
              end).
  assert (Hq2 : output_queue st2
                = output_queue st
                  ++ arrived t
                  ++ (if match output_queue st1 with [] => true | _ => false end
                      then arrived_in_poll t else [])).
  { subst st2. destruct (output_queue st1) eqn:E.
    - cbn [put_all output_queue]. now rewrite E, app_assoc, <- Hq1.
    - rewrite app_nil_r, E. exact Hq1. }
  assert (Ha2 : accounts a tid [] st st2).
  { subst st2. destruct (output_queue st1); now apply accounts_same. }
  rewrite <- Hq2. clearbody st2. clear Hq2.
  destruct (output_queue st2) as [|i rest] eqn:E2.
  - exists []. cbn [app].
    destruct (exited t); [destruct (stdout_alive t || stderr_alive t)|];
      cbn [after]; rewrite E2; repeat split; try exact Ha2; apply Ha2.
  - destruct (handle_accounts a tid i rest st2) as (Hr & Hacc & Hx).
    exists [i].
    destruct (handle a tid i rest st2) as [[[]|e] st3]; cbn [after fst snd] in *;
      rewrite Hr; (split; [reflexivity|]);
      (split; [exact (accounts_trans a tid [] [i] _ _ _ Ha2 Hacc)|]);
      [done|].
    destruct Hx as (line & -> & Hx). now exists line.
Qed.

(** The last pass is a pass. *)
Lemma last_step_spec a tid l st :
  step a tid (late_pass l) st
  = Leave (fst (last_step a tid l st)) (snd (last_step a tid l st)).
Proof.
  unfold last_step. generalize (late_leaves a tid l st).
  destruct (step a tid (late_pass l) st) as [st'|x st']; intros n;
    [now destruct (n st') | reflexivity].
Qed.

Lemma raised_by_app a tid x h1 h2 :
  raised_by a tid x h2 -> raised_by a tid x (h1 ++ h2).
Proof.
  destruct x; try done. intros (line & Hl & Hr). exists line.
  split; [|exact Hr]. rewrite last_app, Hl. reflexivity.
Qed.

(** The whole run: everything that was on the queue or was put there is
    taken, in its order, or still there at the end, and the state at the
    end accounts for what was taken. *)
Lemma consumer_loop_accounts a tid ticks overdue st :
  exists taken,
    output_queue st ++ delivered a tid ticks overdue st
    = taken ++ output_queue (snd (consumer_loop a tid ticks overdue st))
    /\ accounts a tid taken st (snd (consumer_loop a tid ticks overdue st))
    /\ raised_by a tid (fst (consumer_loop a tid ticks overdue st)) taken.
Proof.
  revert st. induction ticks as [|t ticks IH]; intros st;
    cbn [consumer_loop delivered].
  - destruct (step_accounts a tid (late_pass overdue) st) as (h & Hq & Ha & Hx).
    rewrite last_step_spec in Hq, Ha, Hx. now exists h.
  - destruct (step_accounts a tid t st) as (h & Hq & Ha & Hx).
    destruct (step a tid t st) as [st1|x st1]; cbn [after fst snd] in *.
    + destruct (IH st1) as (h' & Hq' & Ha' & Hx'). exists (h ++ h').
      split; [|split].
      * now rewrite app_assoc, Hq, <- !app_assoc, Hq'.
      * exact (accounts_trans a tid h h' _ _ _ Ha Ha').
      * now apply raised_by_app.
    + exists h. now rewrite app_nil_r.
Qed.

(** *** How the loop is left *)

Lemma loop_test_false st :
  loop_test st = false
  <-> stdout_done st = true /\ stderr_done st = true /\ output_queue st = [].
Proof.
  unfold loop_test.
  destruct (stdout_done st), (stderr_done st), (output_queue st); simpl;
    intuition congruence.
Qed.

Lemma over_budget (q : Q) :
  negb (Qle_bool q process_timeout) = true <-> (process_timeout < q)%Q.
Proof.
  rewrite negb_true_iff. split.
  - intros H. apply Qnot_le_lt. intros Hle.
    apply Qle_bool_iff in Hle. congruence.
  - intros H. destruct (Qle_bool q process_timeout) eqn:E; [|done].
    apply Qle_bool_iff in E. now apply Qlt_not_le in H.
Qed.

Lemma late_over_budget (l : late_tick) :
  (process_timeout < elapsed_time (late_pass l))%Q.
Proof. apply over_budget. now rewrite (is_late l). Qed.

(** The exits of one pass. *)
Lemma step_leave a tid t st x st' :
  step a tid t st = Leave x st' ->
  match x with
  | Finished =>
      st' = put_all (arrived t) st /\ loop_test st' = false
  | TimedOut =>
      loop_test (put_all (arrived t) st) = true
      /\ (process_timeout < elapsed_time t)%Q
      /\ st' = on_timeout a t (put_all (arrived t) st)
  | Broke =>
      loop_test (put_all (arrived t) st) = true
      /\ (elapsed_time t <= process_timeout)%Q
      /\ exited t = true /\ stdout_alive t = false /\ stderr_alive t = false
      /\ output_queue st' = []
  | Failed e =>
      loop_test (put_all (arrived t) st) = true
      /\ (elapsed_time t <= process_timeout)%Q
  end.
Proof.
  unfold step.
  destruct (loop_test (put_all (arrived t) st)) eqn:Htest; cbn [negb].
  2:{ intros [= <- <-]. now split. }
  destruct (negb (Qle_bool (elapsed_time t) process_timeout)) eqn:Hq.
  { intros [= <- <-]. apply over_budget in Hq. now repeat split. }
  apply negb_false_iff, Qle_bool_iff in Hq.
  set (st1 := match output_queue (put_all (arrived t) st) with
              | [] => put_all (arrived_in_poll t) (put_all (arrived t) st)
              | _ => put_all (arrived t) st
              end).
  destruct (output_queue st1) as [|i rest] eqn:Hq1.
  - destruct (exited t); [|done].
    destruct (stdout_alive t), (stderr_alive t); simpl; try done.
    intros [= <- <-]. now repeat split.
  - destruct (handle a tid i rest st1) as [[[]|e] st2]; [done|].
    intros [= <- <-]. now split.
Qed.

(** The exits of the loop. *)
Lemma consumer_loop_exit a tid ticks overdue st :
  match consumer_loop a tid ticks overdue st with
  | (Finished, st') =>
      stdout_done st' = true /\ stderr_done st' = true
      /\ output_queue st' = []
  | (Broke, st') =>
      exists t, t ∈ ticks
        /\ (elapsed_time t <= process_timeout)%Q
        /\ exited t = true /\ stdout_alive t = false
        /\ stderr_alive t = false /\ output_queue st' = []
  | (TimedOut, st') =>
      exists t st0,
        (t ∈ ticks \/ t = late_pass overdue)
        /\ (process_timeout < elapsed_time t)%Q
        /\ loop_test st0 = true
        /\ st' = on_timeout a t st0
  | (Failed e, st') =>
      exists t, t ∈ ticks /\ (elapsed_time t <= process_timeout)%Q
  end.
Proof.
  revert st. induction ticks as [|t ticks IH]; intros st; cbn [consumer_loop].
  - pose proof (last_step_spec a tid overdue st) as Hs.
    pose proof (late_over_budget overdue) as Hlate.
    destruct (last_step a tid overdue st) as [x st']. cbn [fst snd] in Hs.
    apply step_leave in Hs. destruct x.
    + destruct Hs as [-> H]. now apply (proj1 (loop_test_false _)).
    + destruct Hs as (_ & Hle & _). now apply Qlt_not_le in Hlate.
    + exists (late_pass overdue), (put_all (arrived (late_pass overdue)) st).
      split; [now right|tauto].
    + destruct Hs as (_ & Hle). now apply Qlt_not_le in Hlate.
  - destruct (step a tid t st) as [st1|x st1] eqn:Es.
    + specialize (IH st1).
      destruct (consumer_loop a tid ticks overdue st1) as [[] st']; [done| | |].
      * destruct IH as (t' & Hin & H). exists t'. split; [now right|done].
      * destruct IH as (t' & st0 & [Hin | Heq] & H);
          exists t', st0; (split; [|done]); [left; now right | now right].
      * destruct IH as (t' & Hin & H). exists t'. split; [now right|done].
    + apply step_leave in Es. destruct x.
      * destruct Es as [-> H]. now apply (proj1 (loop_test_false _)).
      * exists t. split; [now left|]. tauto.
      * exists t, (put_all (arrived t) st). split; [left; now left|tauto].
      * exists t. split; [now left|]. tauto.
Qed.

(** A pass that finds the budget exceeded while the loop condition holds
    ends the loop by the timeout branch. *)
Lemma consumer_loop_timeout a tid pre t post overdue st st1 :
  passes a tid pre st = Some st1 ->
  loop_test (put_all (arrived t) st1) = true ->
  (process_timeout < elapsed_time t)%Q ->
  consumer_loop a tid (pre ++ t :: post) overdue st
  = (TimedOut, on_timeout a t (put_all (arrived t) st1)).
Proof.
  revert st. induction pre as [|p pre IH]; intros st; simpl.
  - intros [= ->] Htest Hlt. unfold step. rewrite Htest. simpl.
    now rewrite (proj2 (over_budget _) Hlt).
  - destruct (step a tid p st) as [st'|]; [|done]. apply IH.
Qed.

(** So does the late pass, when the passes before it have all gone
    through. *)
Lemma consumer_loop_late a tid ticks overdue st st1 :
  passes a tid ticks st = Some st1 ->
  loop_test (put_all (arrived (late_pass overdue)) st1) = true ->
  consumer_loop a tid ticks overdue st
  = (TimedOut,
     on_timeout a (late_pass overdue)
       (put_all (arrived (late_pass overdue)) st1)).
Proof.
  revert st. induction ticks as [|p ticks IH]; intros st; simpl.
  - intros [= ->] Htest. pose proof (last_step_spec a tid overdue st1) as Hs.
    destruct (last_step a tid overdue st1) as [x st']. cbn [fst snd] in Hs.
    unfold step in Hs. rewrite Htest, (is_late overdue) in Hs.
    now injection Hs as <- <-.
  - destruct (step a tid p st) as [st'|]; [|done]. apply IH.
Qed.

(** *** The progress marker, published (C6) *)

(** A line that is one marker, a space and 4301 digits in its brackets. *)
Definition long_marker : str := marker [32%N] (replicate 4301 57%N).

(** A pass that finds the budget exceeded and the queue as it was. *)
Definition too_late : late_tick :=
  Late {| arrived := []; elapsed_time := 3601; arrived_in_poll := [];
          exited := false; stdout_alive := true; stderr_alive := true;
          exits_on_terminate := true |} eq_refl.




Example progress_marker_inside :
  progress_fields
    (snd (on_stdout_line (lit "a.wav") (lit "id")
            (lit "whisper_print_progress_callback: progress = [ 42%] done")))
  = [VNum (NInt 42)].
Proof. reflexivity. Qed.

Example progress_marker_absent :
  on_stdout_line (lit "a.wav") (lit "id") (lit "[00:00.000 --> 00:02.000] 42%")
  = (Ok tt,
     [terminal_event (lit "id") (lit "[00:00.000 --> 00:02.000] 42%")]).
Proof. reflexivity. Qed.

End Pump.

(** ** ProgressBus, the delivery: [progress_event_handler] *)

Module Web.

(** A registered WebSocket, by identity. *)
Abbreviation websocket := nat.

(** What the handler meets outside the module: the answer of
    [json.dumps(event.data)] and of [ws.send_text(message)]. *)
Record env := {
  json_dumps : list (string * value) -> res str;
  send_text : websocket -> str -> res unit
}.

(** The globals of the module, and the sends attempted so far. *)
Record state := {
  progress_websockets : gset websocket;
  last_progress_data : option (list (string * value));
  attempts : list (websocket * str)
}.

(** One turn of [for ws in current_sockets]: the send, and on an exception
    [progress_websockets.discard(ws)]. *)
Definition deliver (E : env) (message : str) (st : state) (ws : websocket)
    : state :=
  {| progress_websockets :=
       match send_text E ws message with
       | Ok _ => progress_websockets st
       | Raise _ => progress_websockets st ∖ {[ws]}
       end;
     last_progress_data := last_progress_data st;
     attempts := attempts st ++ [(ws, message)] |}.

(** [last_progress_data = event.data.copy()]. *)
Definition remember (ev : event) (st : state) : state :=
  {| progress_websockets := progress_websockets st;
     last_progress_data := Some (data ev);
     attempts := attempts st |}.

(** The body of the outer [try]. *)
Definition handler_body (E : env) (ev : event) (st : state)
    : res unit * state :=
  match event_type ev with
  | PROGRESS_UPDATE | CUSTOM =>
      let st := remember ev st in
      (* current_sockets = list(progress_websockets) *)
      let current_sockets := elements (progress_websockets st) in
      match current_sockets with
      | [] => (Ok tt, st)
      | _ =>
          match json_dumps E (data ev) with
          | Raise e => (Raise e, st)
          | Ok message =>
              (Ok tt, fold_left (deliver E message) current_sockets st)
          end
      end
  | _ => (Ok tt, st)
  end.

(** The handler: both [except] clauses log and return. *)
Definition progress_event_handler (E : env) (ev : event) (st : state)
    : res unit * state :=
  match handler_body E ev st with
  | (Ok _, st') => (Ok tt, st')
  | (Raise _, st') => (Ok tt, st')
  end.

(** The sockets a send to which fails. *)
Definition fails (E : env) (message : str) (ws : websocket) : Prop :=
  exists e, send_text E ws message = Raise e.

Lemma deliver_all_attempts E message l st :
  attempts (fold_left (deliver E message) l st)
  = attempts st ++ map (fun ws => (ws, message)) l.
Proof.
  revert st. induction l as [|ws l IH]; intros st; simpl.
  - now rewrite app_nil_r.
  - rewrite IH. simpl. now rewrite <- app_assoc.
Qed.

Lemma deliver_all_sockets E message l st ws :
  ws ∈ progress_websockets (fold_left (deliver E message) l st)
  <-> ws ∈ progress_websockets st /\ ~ (ws ∈ l /\ fails E message ws).
Proof.
  revert st. induction l as [|x l IH]; intros st; simpl.
  - split; [intros H; split; [done|] | tauto].
    intros [Hin _]. now apply not_elem_of_nil in Hin.
  - rewrite IH. simpl. unfold fails.
    destruct (send_text E x message) as [u|e] eqn:Ex.
    + split; intros [H1 H2]; (split; [done|]).
      * intros [Hin [e He]]. apply elem_of_cons in Hin as [->|Hin];
          [congruence | apply H2; eauto].
      * intros [Hin He]. apply H2. split; [now right|done].
    + rewrite elem_of_difference, elem_of_singleton.
      split.
      * intros [[H1 Hne] H2]. split; [done|].
        intros [Hin He]. apply elem_of_cons in Hin as [->|Hin]; [done|].
        apply H2. now split.
      * intros [H1 H2]. split; [split; [done|]|].
        -- intros ->. apply H2. split; [now left | eauto].
        -- intros [Hin He]. apply H2. split; [now right|done].
Qed.

(** C8.  The handler never raises.  When the message can be built, a send
    is attempted to every observer registered when the delivery starts,
    once each, whether or not an earlier send failed; afterwards the
    registration set holds the observers it held minus those whose own send
    failed. *)
Theorem delivery_isolates_failures (E : env) (ev : event) (st : state) :
  fst (progress_event_handler E ev st) = Ok tt
  /\ (forall message,
        (event_type ev = PROGRESS_UPDATE \/ event_type ev = CUSTOM) ->
        json_dumps E (data ev) = Ok message ->
        let st' := snd (progress_event_handler E ev st) in
        attempts st'
        = attempts st
          ++ map (fun ws => (ws, message)) (elements (progress_websockets st))
        /\ NoDup (elements (progress_websockets st))
        /\ (forall ws, ws ∈ elements (progress_websockets st)
                       <-> ws ∈ progress_websockets st)
        /\ (forall ws, ws ∈ progress_websockets st'
                       <-> ws ∈ progress_websockets st
                           /\ ~ fails E message ws)).
Proof.
  split.
  - unfold progress_event_handler.
    now destruct (handler_body E ev st) as [[] ?].
  - intros message Hty Hmsg st'. subst st'.
    assert (Hbody : handler_body E ev st
              = (Ok tt, fold_left (deliver E message)
                          (elements (progress_websockets st))
                          (remember ev st))
                \/ elements (progress_websockets st) = []
                   /\ handler_body E ev st = (Ok tt, remember ev st)).
    { unfold handler_body.
      destruct Hty as [-> | ->]; simpl;
        (destruct (elements (progress_websockets st)) eqn:El;
         [right; done | left; now rewrite Hmsg]). }
    assert (Hst : snd (progress_event_handler E ev st)
                  = fold_left (deliver E message)
                      (elements (progress_websockets st)) (remember ev st)).
    { unfold progress_event_handler.
      destruct Hbody as [-> | [El ->]]; [done | now rewrite El]. }
    rewrite Hst. split; [|split; [|split]].
    + now rewrite deliver_all_attempts.
    + apply NoDup_elements.
    + intros ws. apply elem_of_elements.
    + intros ws. rewrite deliver_all_sockets. simpl.
      rewrite elem_of_elements. tauto.
Qed.

(** Three observers, the second of which has gone away. *)
Definition flaky : env :=
  {| json_dumps := fun _ => Ok (lit "{}");
     send_text := fun ws _ =>
       if Nat.eqb ws 2 then Raise (Exn RuntimeError (lit "closed"))
       else Ok tt |}.

Example delivery_three :
  let st := {| progress_websockets := {[1%nat; 2%nat; 3%nat]};
               last_progress_data := None; attempts := [] |} in
  let r := progress_event_handler flaky (Event PROGRESS_UPDATE []) st in
  fst r = Ok tt
  /\ length (attempts (snd r)) = 3%nat
  /\ progress_websockets (snd r) = {[1%nat; 3%nat]}.
Proof. vm_compute. repeat split. Qed.

End Web.

(** ** The result and the enums of [core.models] *)

Module Models.

(** Modelled from the spec: [core/models.py] is not among the sources.
    [OutputFormat] has the members the source names; their values are the
    file extensions of the output files ([SUPPORTED_OUTPUT_FORMATS] of
    [core/constants.py]). *)
Inductive OutputFormat := TXT | SRT | VTT | JSON.

Definition format_value (f : OutputFormat) : str :=
  match f with
  | TXT => lit "txt" | SRT => lit "srt" | VTT => lit "vtt" | JSON => lit "json"
  end.

(** [OutputFormat(s)] for a string: the member with that value, or
    [ValueError] as every [Enum] raises it. *)
Definition OutputFormat_of_str (s : str) : res OutputFormat :=
  if bool_decide (s = lit "txt") then Ok TXT
  else if bool_decide (s = lit "srt") then Ok SRT
  else if bool_decide (s = lit "vtt") then Ok VTT
  else if bool_decide (s = lit "json") then Ok JSON
  else Raise (Exn ValueError
                (lit "'" ++ s ++ lit "' is not a valid OutputFormat")).

(** Modelled from the spec: a member of [WhisperModel], known by its
    [value]; which strings are values is left to the environment. *)
Record WhisperModel := { model_value : str }.

(** Modelled from the spec: [TranscriptionResult], with the fields the
    source passes to its constructor; a field that is not passed is
    absent. *)
Record TranscriptionResult := {
  success : bool;
  text : option str;
  segments : option (list dict);
  output_file : option str;
  error : option str;
  language : option str;
  model : option str;
  stderr : option (list str)
}.

(** [TranscriptionResult(success=False, error=error_msg)]. *)
Definition failed (error_msg : str) : TranscriptionResult :=
  {| success := false; text := None; segments := None; output_file := None;
     error := Some error_msg; language := None; model := None;
     stderr := None |}.

(** The shape the specification gives every outcome: success with the
    text, or failure with an error string. *)
Definition well_formed (r : TranscriptionResult) : Prop :=
  if success r then text r <> None /\ output_file r <> None /\ error r = None
  else error r <> None /\ text r = None.

End Models.

(** ** The state the two entry points thread, and its monad *)

Module Run.

(** The event bus, the heap of dicts (configurations), the effects on the
    outside, and the global [current_transcription_process]. *)
Record world := {
  events : list event;
  heap : gmap loc dict;
  effects : list effect;
  current_transcription_process : option nat
}.

(** A computation: it reads and changes the world and returns or raises. *)
Definition M (A : Type) : Type := world -> res A * world.

Definition ret {A} (a : A) : M A := fun w => (Ok a, w).

Definition bind {A B} (m : M A) (k : A -> M B) : M B :=
  fun w => match m w with
           | (Ok a, w') => k a w'
           | (Raise e, w') => (Raise e, w')
           end.

Definition raise {A} (e : exn) : M A := fun w => (Raise e, w).

(** The answer of an oracle. *)
Definition lift {A} (r : res A) : M A := fun w => (r, w).

(** [try: m except Exception as e: h e]. *)
Definition catch {A} (m : M A) (h : exn -> M A) : M A :=
  fun w => match m w with
           | (Ok a, w') => (Ok a, w')
           | (Raise e, w') => h e w'
           end.

(** [try: m except Exception: log]. *)
Definition attempt {A} (m : M A) : M unit :=
  fun w => match m w with (_, w') => (Ok tt, w') end.

(** [publish(event_type, data)]. *)
Definition publish (t : EventType) (d : list (string * value)) : M unit :=
  fun w => (Ok tt,
            {| events := events w ++ [Event t d]; heap := heap w;
               effects := effects w;
               current_transcription_process :=
                 current_transcription_process w |}).

Definition perform (e : effect) : M unit :=
  fun w => (Ok tt,
            {| events := events w; heap := heap w;
               effects := effects w ++ [e];
               current_transcription_process :=
                 current_transcription_process w |}).

Definition set_process (pid : nat) : M unit :=
  fun w => (Ok tt,
            {| events := events w; heap := heap w; effects := effects w;
               current_transcription_process := Some pid |}).

Definition get_heap : M (gmap loc dict) := fun w => (Ok (heap w), w).

Definition set_heap (h : gmap loc dict) : M unit :=
  fun w => (Ok tt,
            {| events := events w; heap := h; effects := effects w;
               current_transcription_process :=
                 current_transcription_process w |}).

Declare Scope run_scope.
Delimit Scope run_scope with run.
Notation "x <- m ;; k" := (bind m (fun x => k))
  (at level 100, m at next level, right associativity) : run_scope.
Notation "m ;;; k" := (bind m (fun _ => k))
  (at level 100, right associativity) : run_scope.

(** *** Dicts on the heap *)

Definition type_error (what : string) : exn := Exn TypeError (lit what).
Definition key_error (k : string) : exn :=
  Exn KeyError (lit "'" ++ lit k ++ lit "'").

(** The dict an object is, if it is one. *)
Definition as_dict (h : gmap loc dict) (v : value) : option dict :=
  match v with VRef l => h !! l | _ => None end.

(** [s1 in s2] for strings. *)
Fixpoint starts_with (p s : str) : bool :=
  match p, s with
  | [], _ => true
  | c :: p', d :: s' => (c =? d)%N && starts_with p' s'
  | _ :: _, [] => false
  end.

Fixpoint contains (p s : str) : bool :=
  starts_with p s || match s with [] => false | _ :: s' => contains p s' end.

Definition ends_with (suffix s : str) : bool :=
  starts_with (rev suffix) (rev s).

(** [k in v]. *)
Definition py_in (k : string) (v : value) : M bool :=
  fun w => match v with
           | VRef l =>
               match heap w !! l with
               | Some d => (Ok (bool_decide (is_Some (d !! k))), w)
               | None => (Raise (type_error "not a container"), w)
               end
           | VStr s => (Ok (contains (lit k) s), w)
           | _ => (Raise (type_error "argument is not iterable"), w)
           end.

(** [v[k]]. *)
Definition py_item (v : value) (k : string) : M value :=
  fun w => match as_dict (heap w) v with
           | Some d =>
               match d !! k with
               | Some x => (Ok x, w)
               | None => (Raise (key_error k), w)
               end
           | None => (Raise (type_error "not subscriptable"), w)
           end.

(** [v[k] = x]. *)
Definition py_setitem (v : value) (k : string) (x : value) : M unit :=
  fun w => match v with
           | VRef l =>
               match heap w !! l with
               | Some d => set_heap (<[l := <[k := x]> d]> (heap w)) w
               | None => (Raise (type_error "no item assignment"), w)
               end
           | _ => (Raise (type_error "no item assignment"), w)
           end.

Definition default_value (default : value) (o : option value) : value :=
  match o with Some x => x | None => default end.

(** [v.get(k, default)]; a fresh [{}] given as the default of the outer
    [get] of [config.get(k1, {}).get(k2, default)] is not kept, so the
    double lookup is one function. *)
Definition py_get2 (v : value) (k1 k2 : string) (default : value) : M value :=
  fun w => match as_dict (heap w) v with
           | Some d =>
               match d !! k1 with
               | None => (Ok default, w)
               | Some v1 =>
                   match as_dict (heap w) v1 with
                   | Some d1 => (Ok (default_value default (d1 !! k2)), w)
                   | None =>
                       (Raise (Exn AttributeError (lit "no attribute 'get'")),
                        w)
                   end
               end
           | None => (Raise (Exn AttributeError (lit "no attribute 'get'")), w)
           end.

End Run.

(** ** The single-shot pipeline: [transcribe_audio] *)

Module Transcribe.

Import Models Run.
Local Open Scope run_scope.

(** The arguments of [transcribe_audio] and [transcribe_audio_chunked]. *)
Record args := {
  audio_path : str;
  output_format : str + OutputFormat;
  language : option str;
  model : str + WhisperModel;
  output_path : option str;
  output_dir : option str;
  srt_max_chars : option Z;
  srt_max_duration : option number;
  srt_linebreaks : bool;
  config : option loc
}.

(** Functions of the Python runtime and its library that the code applies
    and this development does not define: case mapping, [os.path],
    [str()] and [repr()], number formatting and float arithmetic. *)
Record runtime := {
  lower : str -> str;                       (* s.lower() *)
  dirname : str -> str;                     (* os.path.dirname *)
  basename : str -> str;                    (* os.path.basename *)
  splitext_root : str -> str;               (* os.path.splitext(p)[0] *)
  join : str -> str -> str;                 (* os.path.join *)
  str_of_value : value -> str;              (* str(v) *)
  repr_lines : list str -> str;             (* repr of a list of str *)
  fmt_1f : number -> str;                   (* f"{x:.1f}" *)
  fmt_num : number -> str;                  (* f"{x}" *)
  add : number -> number -> number;         (* x + y *)
  mul : number -> number -> number;         (* x * y *)
  truediv : number -> number -> number;     (* x / y, y nonzero *)
  trunc : number -> Z                       (* int(x) *)
}.

(** What one call of [transcribe_audio] meets outside the module. *)
Record env := {
  load_config : res loc;
  is_model : str -> bool;                   (* WhisperModel(s) has a member *)
  exists_audio : str -> bool;               (* os.path.exists(audio_path) *)
  uuid_first : str;                         (* str(uuid.uuid4()), first *)
  uuid_second : str;                        (* str(uuid.uuid4()), second *)
  import_ffmpeg : res unit;                 (* from ..module2_extract... *)
  detect_ffmpeg : res (option str);
  gettempdir : str;
  ensure_directory_exists : str -> res unit;
  convert_opus_to_mp3 : str -> str -> str -> res (Z * str * str);
  is_audio_chunkable : str -> res bool;
  new_chunker : res unit;                   (* AudioChunker(config) *)
  get_audio_duration : str -> res number;
  get_output_path : str -> value -> str -> res str;
  get_whisper_binary_path : res str;
  get_model_path : str -> res str;
  download_model : str -> res str;
  makedirs : str -> res unit;
  fallback_temp_dir : str;                  (* <project>/transcriptions/temp *)
  extract_audio : res unit;                 (* subprocess.run(ffmpeg_cmd) *)
  exists_temp_audio : str -> bool;
  chdir : str -> res unit;
  popen : list str -> res nat;              (* the pid of the child *)
  ticks : list Pump.tick;
  overdue : Pump.late_tick;
  returncode : option Z;                    (* process.returncode *)
  exists_txt_output : str -> bool;
  read_text : str -> res str;               (* open(p).read() *)
  copy : str -> str -> res unit;            (* shutil.copy *)
  write : str -> res unit;                  (* open(p, "w") ... write/dump *)
  parse_segments : str -> res (option (list dict));
  segments_to_srt :
    list dict -> option Z -> option number -> bool -> res str;
  text_to_srt : str -> option Z -> option number -> bool -> res str;
  export_json_control : list dict -> str -> res unit;
  cleanup_after_transcription : str -> res unit
}.

Section Pipeline.

Variable R : runtime.

(** [OutputFormat(output_format)] when a string is given. *)
Definition to_format (f : str + OutputFormat) : res OutputFormat :=
  match f with inl s => OutputFormat_of_str s | inr f => Ok f end.

(** [WhisperModel(model)] when a string is given. *)
Definition to_model (E : env) (m : str + WhisperModel) : res WhisperModel :=
  match m with
  | inl s =>
      if is_model E s then Ok {| model_value := s |}
      else Raise (Exn ValueError
                    (lit "'" ++ s ++ lit "' is not a valid WhisperModel"))
  | inr m => Ok m
  end.

(** [config = load_config()] when none is given. *)
Definition resolve_config (E : env) (a : args) : M loc :=
  match config a with Some c => ret c | None => lift (load_config E) end.

(** Truth of an optional string: [None] and [''] are false. *)
Definition given (o : option str) : option str :=
  match o with Some (c :: s) => Some (c :: s) | _ => None end.

(** A [str] is expected where the code passes a configuration value to
    [os.makedirs] and [os.path.join]. *)
Definition as_str (v : value) : M str :=
  match v with
  | VStr s => ret s
  | _ => raise (type_error "expected str, bytes or os.PathLike object")
  end.

(** The cleanup call, whose failure is logged and swallowed. *)
Definition cleanup (E : env) (audio_path : str) : M unit :=
  attempt (perform (Cleanup audio_path) ;;;
           lift (cleanup_after_transcription E audio_path)).

(** *** Lines 442-486: an Opus file is converted first *)

Definition opus_event (transcription_id : str) : list (string * value) :=
  [("task"%string, VStr (lit "transcription"));
   ("status"%string, VStr (lit "Konvertiere Opus zu MP3..."));
   ("progress"%string, VNum (NInt 1));
   ("user_id"%string, VStr transcription_id);
   ("phase"%string, VStr (lit "conversion"))].

(** The answer is a result to return at once, or the path to go on with. *)
Definition convert_opus (E : env) (cfg : loc) (transcription_id : str)
    (audio_path : str) : M (TranscriptionResult + str) :=
  if ends_with (lit ".opus") (lower R audio_path) then
    publish PROGRESS_UPDATE (opus_event transcription_id) ;;;
    catch
      (lift (import_ffmpeg E) ;;;
       ffmpeg_path <- lift (detect_ffmpeg E) ;;
       match given ffmpeg_path with
       | None =>
           ret (inl (failed
                  (lit "FFmpeg nicht gefunden. Ben" ++ [246%N] ++ lit "tigt f"
                   ++ [252%N] ++ lit "r Opus-Konvertierung.")))
       | Some ffmpeg_path =>
           temp_dir <- py_get2 (VRef cfg) "output" "temp_directory"
                         (VStr (gettempdir E)) ;;
           temp_dir <- as_str temp_dir ;;
           lift (ensure_directory_exists E temp_dir) ;;;
           let mp3_filename :=
             splitext_root R (basename R audio_path) ++ lit ".mp3" in
           let mp3_path := join R temp_dir mp3_filename in
           out <- lift (convert_opus_to_mp3 E ffmpeg_path audio_path mp3_path) ;;
           let '(returncode, _, stderr) := out in
           if negb (returncode =? 0)%Z then
             ret (inl (failed
                    (lit "Opus zu MP3 Konvertierung fehlgeschlagen: "
                     ++ stderr)))
           else ret (inr mp3_path)
       end)
      (fun e =>
         ret (inl (failed (lit "Fehler bei Opus-Konvertierung: " ++ exn_str e))))
  else ret (inr audio_path).

(** *** Lines 575-633: the command and the working directory *)

Definition opt_str (o : option str) : value :=
  match o with Some s => VStr s | None => VNone end.

(** [try: get_model_path(...) except ModelError: download_model(...)]. *)
Definition find_model (E : env) (m : WhisperModel) : M str :=
  catch (lift (get_model_path E (model_value m)))
    (fun e =>
       match exn_cls e with
       | ModelError => lift (download_model E (model_value m))
       | _ => raise e
       end).

(** A new dict. *)
Definition alloc (d : dict) : M loc :=
  fun w =>
    let l := fresh (dom (heap w)) in
    (Ok l,
     {| events := events w; heap := <[l := d]> (heap w);
        effects := effects w;
        current_transcription_process := current_transcription_process w |}).

(** The [-t] option: [if "whisper" in config and "threads" in
    config["whisper"]]. *)
Definition threads_option (cfg : loc) : M (list str) :=
  has_whisper <- py_in "whisper" (VRef cfg) ;;
  if has_whisper : bool then
    whisper <- py_item (VRef cfg) "whisper" ;;
    has_threads <- py_in "threads" whisper ;;
    if has_threads : bool then
      whisper <- py_item (VRef cfg) "whisper" ;;
      threads <- py_item whisper "threads" ;;
      ret [lit "-t"; str_of_value R threads]
    else ret []
  else ret [].

(** The temporary directory: the configured one, or the fallback, which is
    then written into the configuration. *)
Definition choose_temp_dir (E : env) (cfg : loc) : M str :=
  has_output <- py_in "output" (VRef cfg) ;;
  has_temp <- (if has_output : bool then
                 output <- py_item (VRef cfg) "output" ;;
                 py_in "temp_directory" output
               else ret false) ;;
  if has_temp : bool then
    output <- py_item (VRef cfg) "output" ;;
    temp_dir <- py_item output "temp_directory" ;;
    temp_dir <- as_str temp_dir ;;
    lift (makedirs E temp_dir) ;;;
    ret temp_dir
  else
    let temp_dir := fallback_temp_dir E in
    lift (makedirs E temp_dir) ;;;
    has_output <- py_in "output" (VRef cfg) ;;
    (if has_output : bool then ret tt
     else fresh_dict <- alloc ∅ ;;
          py_setitem (VRef cfg) "output" (VRef fresh_dict)) ;;;
    output <- py_item (VRef cfg) "output" ;;
    py_setitem output "temp_directory" (VStr temp_dir) ;;;
    ret temp_dir.

(** *** Lines 635-678: a video has its audio extracted *)

Definition video_extensions : list str :=
  [lit ".mp4"; lit ".avi"; lit ".mov"; lit ".mkv"; lit ".flv"; lit ".webm"].

Definition is_video (audio_path : str) : bool :=
  existsb (fun ext => ends_with ext (lower R audio_path)) video_extensions.

Definition audio_input (E : env) (temp_dir audio_path : str) : M str :=
  if is_video audio_path then
    let temp_audio_path :=
      join R temp_dir
        (splitext_root R (basename R audio_path) ++ lit "_audio.wav") in
    catch
      (lift (extract_audio E) ;;;
       if exists_temp_audio E temp_audio_path then ret temp_audio_path
       else ret audio_path)
      (fun _ => ret audio_path)
  else ret audio_path.

(** [for i, arg in enumerate(cmd): if arg == "-f" and i + 1 < len(cmd):
    cmd[i + 1] = audio_input_path; break]. *)
Fixpoint set_input (cmd : list str) (audio_input_path : str) : list str :=
  match cmd with
  | [] => []
  | arg :: rest =>
      if bool_decide (arg = lit "-f") then
        match rest with
        | [] => [arg]
        | _ :: rest' => arg :: audio_input_path :: rest'
        end
      else arg :: set_input rest audio_input_path
  end.

(** *** Lines 696-822: the child process and the consumer loop *)

Definition fresh_loop : Pump.loop_state :=
  {| Pump.output_queue := []; Pump.stdout_done := false;
     Pump.stderr_done := false; Pump.stdout := []; Pump.stderr := [];
     Pump.published := []; Pump.effects := [] |}.

Definition timed_out : exn :=
  Exn TimeoutError
    (lit "Transcription timed out after " ++ str_of_Z 3600 ++ lit " seconds").

(** The loop, run in the world: what it publishes and does is appended;
    the timeout exit is the [raise] of its branch, and an exception of the
    body goes on as it is.  The answer is the lines of the two channels. *)
Definition pump (E : env) (audio_path transcription_id : str)
    : M (list str * list str) :=
  fun w =>
    let '(x, st) := Pump.consumer_loop audio_path transcription_id
                      (ticks E) (overdue E) fresh_loop in
    let w' := {| events := events w ++ Pump.published st;
                 heap := heap w;
                 effects := effects w ++ Pump.effects st;
                 current_transcription_process :=
                   current_transcription_process w |} in
    match x with
    | Pump.TimedOut => (Raise timed_out, w')
    | Pump.Failed e => (Raise e, w')
    | Pump.Finished | Pump.Broke => (Ok (Pump.stdout st, Pump.stderr st), w')
    end.

(** *** Lines 828-962: the outcome of the run and the output file *)

Definition str_of_returncode (rc : option Z) : str :=
  match rc with Some z => str_of_Z z | None => lit "None" end.

Definition progress_payload (progress : Z) (status : str)
    (audio_path transcription_id : str) (phase : string)
    : list (string * value) :=
  [("task"%string, VStr (lit "transcription"));
   ("progress"%string, VNum (NInt progress));
   ("status"%string, VStr status);
   ("audio_path"%string, VStr audio_path);
   ("user_id"%string, VStr transcription_id);
   ("phase"%string, VStr (lit phase))].

Definition failed_payload (audio_path error_msg : str)
    : list (string * value) :=
  [("audio_path"%string, VStr audio_path);
   ("error"%string, VStr error_msg)].

(** The segment the JSON output is given: the whole text, from 0 to 300. *)
Definition whole_text_segment (text : str) : dict :=
  {[ "text"%string := VStr text;
     "start"%string := VNum (NInt 0);
     "end"%string := VNum (NInt 300) ]}.

Definition vtt_of (text : str) : str :=
  lit "WEBVTT" ++ [10%N; 10%N] ++ lit "00:00:00.000 --> 00:05:00.000"
  ++ [10%N] ++ text ++ [10%N; 10%N].

(** The output file in the requested format. *)
Definition write_output (E : env) (a : args) (fmt : OutputFormat)
    (temp_dir txt_output output_path text : str) : M unit :=
  match fmt with
  | TXT =>
      perform (Copy txt_output output_path) ;;;
      lift (copy E txt_output output_path)
  | SRT =>
      json_segments <- lift (parse_segments E temp_dir) ;;
      srt_content <-
        match json_segments with
        | Some segs =>
            srt <- lift (segments_to_srt E segs (srt_max_chars a)
                           (srt_max_duration a) (srt_linebreaks a)) ;;
            attempt (lift (export_json_control E segs output_path)) ;;;
            ret srt
        | None =>
            lift (text_to_srt E text (srt_max_chars a) (srt_max_duration a)
                    (srt_linebreaks a))
        end ;;
      perform (WriteText output_path srt_content) ;;;
      lift (write E output_path)
  | VTT =>
      perform (WriteText output_path (vtt_of text)) ;;;
      lift (write E output_path)
  | JSON =>
      perform (WriteJson output_path text [whole_text_segment text] None) ;;;
      lift (write E output_path)
  end.

(** [TranscriptionResult(success=True, text=..., output_file=...,
    language=..., model=...)]. *)
Definition succeeded (text output_path : str) (language : option str)
    (m : WhisperModel) : TranscriptionResult :=
  {| success := true; text := Some text; segments := None;
     output_file := Some output_path; error := None;
     Models.language := language; Models.model := Some (model_value m);
     stderr := None |}.

(** After the loop: the return code decides, then the text file. *)
Definition finish (E : env) (a : args) (fmt : OutputFormat) (m : WhisperModel)
    (audio_path output_path temp_dir transcription_id : str)
    (stderr_lines : list str) : M TranscriptionResult :=
  let rc := returncode E in
  (if bool_decide (rc = Some 0) then
     publish PROGRESS_UPDATE
       (progress_payload 95 (lit "Verarbeite Transkriptionsergebnis...")
          audio_path transcription_id "post_processing")
   else
     publish PROGRESS_UPDATE
       (progress_payload 0 (lit "Transkription fehlgeschlagen")
          audio_path transcription_id "failed")) ;;;
  if negb (bool_decide (rc = Some 0)) then
    let error_msg :=
      lit "Whisper.cpp failed with return code " ++ str_of_returncode rc
      ++ lit ": " ++ repr_lines R stderr_lines in
    publish TRANSCRIPTION_FAILED (failed_payload audio_path error_msg) ;;;
    cleanup E audio_path ;;;
    ret {| success := false; text := None; segments := None;
           output_file := None; error := Some error_msg;
           Models.language := None; Models.model := None;
           stderr := Some stderr_lines |}
  else
    let txt_output := join R temp_dir (lit "output.txt") in
    if negb (exists_txt_output E txt_output) then
      let error_msg := lit "Output file not found: " ++ txt_output in
      publish TRANSCRIPTION_FAILED (failed_payload audio_path error_msg) ;;;
      ret (failed error_msg)
    else
      text <- lift (read_text E txt_output) ;;
      write_output E a fmt temp_dir txt_output output_path text ;;;
      publish PROGRESS_UPDATE
        (progress_payload 100 (lit "Transkription abgeschlossen")
           audio_path transcription_id "completed") ;;;
      publish TRANSCRIPTION_COMPLETED
        [("audio_path"%string, VStr audio_path);
         ("output_path"%string, VStr output_path);
         ("model"%string, VStr (model_value m));
         ("language"%string, opt_str (language a))] ;;;
      cleanup E audio_path ;;;
      ret (succeeded text output_path (language a) m).

(** *** Lines 575-970: the body of the [try] *)

(** Up to the start of the child process: the answer is the temporary
    directory. *)
Definition launch (E : env) (a : args) (cfg : loc) (m : WhisperModel)
    (audio_path : str) : M str :=
  whisper_path <- lift (get_whisper_binary_path E) ;;
  model_path <- find_model E m ;;
  let cmd := [whisper_path; lit "-m"; model_path; lit "-f"; audio_path;
              lit "-otxt"; lit "-osrt"] in
  let cmd := cmd ++ match given (language a) with
                    | Some l => [lit "-l"; l]
                    | None => []
                    end in
  threads <- threads_option cfg ;;
  let cmd := cmd ++ threads in
  temp_dir <- choose_temp_dir E cfg ;;
  (* the inner try; its finally does nothing, system_temp being False *)
  audio_input_path <- audio_input E temp_dir audio_path ;;
  lift (chdir E temp_dir) ;;;
  let cmd := set_input cmd audio_input_path in
  let cmd := cmd ++ [lit "-of"; join R temp_dir (lit "output")] in
  publish PROGRESS_UPDATE
    [("task"%string, VStr (lit "transcription"));
     ("status"%string,
      VStr (lit "Whisper-Modell wird geladen und Transkription l" ++ [228%N]
            ++ lit "uft..."));
     ("progress"%string, VNum (NInt 20))] ;;;
  perform (Popen cmd) ;;;
  pid <- lift (popen E cmd) ;;
  set_process pid ;;;
  ret temp_dir.

Definition recognize (E : env) (a : args) (cfg : loc) (fmt : OutputFormat)
    (m : WhisperModel) (audio_path output_path : str)
    : M TranscriptionResult :=
  temp_dir <- launch E a cfg m audio_path ;;
  let transcription_id := uuid_second E in
  lines <- pump E audio_path transcription_id ;;
  finish E a fmt m audio_path output_path temp_dir transcription_id
    (snd lines).

(** *** Lines 971-986: the handler of the [try] *)

Definition on_exception (E : env) (audio_path : str) (e : exn)
    : M TranscriptionResult :=
  let error_msg := lit "Error transcribing audio: " ++ exn_str e in
  publish TRANSCRIPTION_FAILED (failed_payload audio_path error_msg) ;;;
  cleanup E audio_path ;;;
  ret (failed error_msg).

(** *** The function *)

Definition status_payload (status transcription_id : str)
    : list (string * value) :=
  [("task"%string, VStr (lit "transcription"));
   ("status"%string, VStr status);
   ("user_id"%string, VStr transcription_id)].

Definition phase_payload (status : str) (progress : Z)
    (transcription_id : str) (phase : string) : list (string * value) :=
  [("task"%string, VStr (lit "transcription"));
   ("status"%string, VStr status);
   ("progress"%string, VNum (NInt progress));
   ("user_id"%string, VStr transcription_id);
   ("phase"%string, VStr (lit phase))].

(** Truth of a configuration value. *)
Definition truthy (v : value) : M bool :=
  fun w =>
    (Ok match v with
        | VNone => false
        | VBool b => b
        | VNum (NInt z) => negb (z =? 0)%Z
        | VNum (NFloat q) => negb (Qeq_bool q 0)
        | VStr s => match s with [] => false | _ => true end
        | VRef l => match heap w !! l with
                    | Some d => negb (bool_decide (d = ∅))
                    | None => true
                    end
        end, w).

(** The message of a large file: its minutes and the segments expected. *)
Definition split_status (duration_seconds : number) (verb : string) : str :=
  let duration_minutes := truediv R duration_seconds (NInt 60) in
  let num_chunks := trunc R (truediv R duration_minutes (NInt 20)) + 1 in
  lit "Audio-Datei ist " ++ fmt_1f R duration_minutes ++ lit " Minuten lang. "
  ++ lit verb ++ str_of_Z num_chunks ++ lit " Segmente".

(** The [try] statement of the function. *)
Definition guarded (E : env) (a : args) (cfg : loc) (fmt : OutputFormat)
    (m : WhisperModel) (audio_path output_path : str)
    : M TranscriptionResult :=
  catch (recognize E a cfg fmt m audio_path output_path)
        (on_exception E audio_path).

(** Where the statements before the [try] lead: to a [return], to the
    call of [transcribe_audio_chunked], or to the [try]. *)
Inductive stage :=
| Return (result : TranscriptionResult)
| Dispatch (a : args)
| Guarded (cfg : loc) (fmt : OutputFormat) (m : WhisperModel)
          (audio_path output_path : str).

(** Lines 420-573: the statements before the [try]. *)
Definition prelude (E : env) (a : args) : M stage :=
  cfg <- resolve_config E a ;;
  fmt <- lift (to_format (output_format a)) ;;
  m <- lift (to_model E (model a)) ;;
  if negb (exists_audio E (audio_path a)) then
    ret (Return (failed (lit "Audio file not found: " ++ audio_path a)))
  else
    let transcription_id := take 8 (uuid_first E) in
    converted <- convert_opus E cfg transcription_id (audio_path a) ;;
    match converted with
    | inl result => ret (Return result)
    | inr audio_path =>
        publish PROGRESS_UPDATE
          (phase_payload (lit "Initialisiere Transkription...") 0
             transcription_id "initialization") ;;;
        chunking_enabled <- py_get2 (VRef cfg) "chunking" "enabled"
                              (VBool true) ;;
        publish PROGRESS_UPDATE
          (phase_payload (lit "Analysiere Audio-Datei...") 2
             transcription_id "analyzing") ;;;
        enabled <- truthy chunking_enabled ;;
        chunkable <- (if enabled : bool
                      then lift (is_audio_chunkable E audio_path)
                      else ret false) ;;
        if chunkable : bool then
          lift (new_chunker E) ;;;
          duration_seconds <- lift (get_audio_duration E audio_path) ;;
          publish PROGRESS_UPDATE
            (status_payload
               (split_status duration_seconds "Teile in " ++ lit " auf...")
               transcription_id) ;;;
          ret (Dispatch {| audio_path := audio_path;
                           output_format := inr fmt;
                           language := language a;
                           model := inr m;
                           output_path := output_path a;
                           output_dir := output_dir a;
                           srt_max_chars := srt_max_chars a;
                           srt_max_duration := srt_max_duration a;
                           srt_linebreaks := srt_linebreaks a;
                           config := Some cfg |})
        else
          output_path <-
            match output_path a with
            | None =>
                output_directory <-
                  match given (output_dir a) with
                  | Some d => ret (VStr d)
                  | None =>
                      output <- py_item (VRef cfg) "output" ;;
                      py_item output "default_directory"
                  end ;;
                lift (get_output_path E audio_path output_directory
                        (format_value fmt))
            | Some p => ret p
            end ;;
          lift (ensure_directory_exists E (dirname R output_path)) ;;;
          publish TRANSCRIPTION_STARTED
            [("audio_path"%string, VStr audio_path);
             ("model"%string, VStr (model_value m));
             ("language"%string, opt_str (language a));
             ("output_format"%string, VStr (format_value fmt));
             ("output_path"%string, VStr output_path)] ;;;
          publish PROGRESS_UPDATE
            (status_payload
               (lit "Starte Transkription mit Modell " ++ model_value m
                ++ lit "...")
               transcription_id) ;;;
          publish PROGRESS_UPDATE
            [("task"%string, VStr (lit "transcription"));
             ("status"%string,
              VStr (lit "Transkription mit Modell " ++ model_value m
                    ++ lit " wird gestartet..."));
             ("progress"%string, VNum (NInt 5));
             ("user_id"%string, VStr transcription_id)] ;;;
          ret (Guarded cfg fmt m audio_path output_path)
    end.

(** [transcribe_audio], with [transcribe_audio_chunked] as [chunked]. *)
Definition transcribe_audio_with (chunked : args -> M TranscriptionResult)
    (E : env) (a : args) : M TranscriptionResult :=
  s <- prelude E a ;;
  match s with
  | Return result => ret result
  | Dispatch a' => chunked a'
  | Guarded cfg fmt m audio_path output_path =>
      guarded E a cfg fmt m audio_path output_path
  end.

End Pipeline.

End Transcribe.

(** ** The chunked pipeline: [transcribe_audio_chunked] *)

Module Chunked.

Import Models Run Transcribe.
Local Open Scope run_scope.

(** A chunk as [AudioChunker.split_audio] describes it. *)
Record chunk_info := {
  path : str;
  filename : str;
  start_time : number
}.

(** An entry of [chunk_transcriptions]. *)
Record chunk_transcription := {
  chunk : nat;
  chunk_text : option str;
  chunk_start_time : number
}.

(** What a chunked job meets outside the module: the oracles it shares with
    [transcribe_audio], those of the chunker, and the world each chunk's
    single-shot run meets. *)
Record env := {
  base : Transcribe.env;
  split_audio : str -> res (list chunk_info);
  merge_transcriptions : list chunk_transcription -> res str;
  cleanup_chunks : str -> res unit;
  reload_config : res loc;                   (* load_config(), line 1203 *)
  chunk_env : nat -> Transcribe.env
}.

(** The loop variables that outlive an iteration, and the value
    [chunk_result] took in each iteration so far. *)
Record collected := {
  chunk_transcriptions : list chunk_transcription;
  all_segments : list dict;
  chunk_results : list TranscriptionResult
}.

Section Pipeline.

Variable R : runtime.

(** A number is expected where the code adds. *)
Definition as_number (v : value) : M number :=
  match v with
  | VNum n => ret n
  | VBool b => ret (NInt (if b then 1 else 0))
  | _ => raise (type_error "unsupported operand type(s) for +")
  end.

(** The copy of a segment moved by the start of its chunk:
    [segment.copy()] with [start] and [end] set to
    [segment.get(key, 0) + chunk_start_time]. *)
Definition adjusted (chunk_start_time : number) (segment : dict) : M dict :=
  start <- as_number (default_value (VNum (NInt 0)) (segment !! "start")) ;;
  let adjusted_segment :=
    <["start" := VNum (add R start chunk_start_time)]> segment in
  stop <- as_number (default_value (VNum (NInt 0)) (segment !! "end")) ;;
  ret (<["end" := VNum (add R stop chunk_start_time)]> adjusted_segment).

(** [for segment in chunk_result.segments: ...append(adjusted_segment)]. *)
Fixpoint adjusted_all (chunk_start_time : number) (segs : list dict)
    : M (list dict) :=
  match segs with
  | [] => ret []
  | segment :: segs' =>
      adjusted_segment <- adjusted chunk_start_time segment ;;
      rest <- adjusted_all chunk_start_time segs' ;;
      ret (adjusted_segment :: rest)
  end.

Definition num_of_nat (n : nat) : number := NInt (Z.of_nat n).

Definition chunk_failed_event (chunk_num : nat) (error : option str)
    : event :=
  Event CUSTOM
    [("type"%string, VStr (lit "CHUNK_FAILED"));
     ("chunk"%string, VNum (num_of_nat chunk_num));
     ("error"%string, opt_str error)].

Definition chunk_completed_event (chunk_num total : nat) : event :=
  Event CUSTOM
    [("type"%string, VStr (lit "CHUNK_COMPLETED"));
     ("chunk"%string, VNum (num_of_nat chunk_num));
     ("total"%string, VNum (num_of_nat total));
     ("progress"%string,
      VNum (mul R (truediv R (num_of_nat chunk_num) (num_of_nat total))
              (NInt 100)))].

(** Lines 1076-1100: the announcements of a chunk. *)
Definition announce (i total : nat) (c : chunk_info)
    (transcription_id : str) : M unit :=
  let chunk_num := S i in
  let base_progress :=
    mul R (truediv R (num_of_nat i) (num_of_nat total)) (NInt 90) in
  publish PROGRESS_UPDATE
    [("task"%string, VStr (lit "transcription"));
     ("status"%string,
      VStr (lit "Verarbeite Segment " ++ str_of_Z (Z.of_nat chunk_num)
            ++ lit "/" ++ str_of_Z (Z.of_nat total) ++ lit "..."));
     ("progress"%string, VNum base_progress);
     ("user_id"%string, VStr transcription_id);
     ("phase"%string, VStr (lit "chunk_processing"));
     ("chunk_current"%string, VNum (num_of_nat chunk_num));
     ("chunk_total"%string, VNum (num_of_nat total))] ;;;
  publish CUSTOM
    [("type"%string, VStr (lit "CHUNK_STARTED"));
     ("chunk"%string, VNum (num_of_nat chunk_num));
     ("total"%string, VNum (num_of_nat total));
     ("filename"%string, VStr (filename c));
     ("user_id"%string, VStr transcription_id)].

(** Lines 1103-1104: [chunk_config = config.copy()], a new dict with the
    items of [config], the values shared; then
    [chunk_config["chunking"]["enabled"] = False]. *)
Definition disable_chunking (cfg : loc) : M loc :=
  h <- get_heap ;;
  match h !! cfg with
  | None => raise (Exn AttributeError (lit "no attribute 'copy'"))
  | Some d =>
      chunk_config <- alloc d ;;
      chunking <- py_item (VRef chunk_config) "chunking" ;;
      py_setitem chunking "enabled" (VBool false) ;;;
      ret chunk_config
  end.

(** The arguments of the call for a chunk; what is not passed has its
    default. *)
Definition chunk_args (a : args) (m : WhisperModel) (c : chunk_info)
    (chunk_config : loc) : args :=
  {| audio_path := path c;
     output_format := inr JSON;
     language := language a;
     model := inr m;
     output_path := None;
     output_dir := None;
     srt_max_chars := None;
     srt_max_duration := None;
     srt_linebreaks := true;
     config := Some chunk_config |}.

(** Lines 1114-1146: what is done with the result of a chunk. *)
Definition collect (i total : nat) (c : chunk_info)
    (chunk_result : TranscriptionResult) (acc : collected) : M collected :=
  let chunk_num := S i in
  if negb (success chunk_result) then
    publish CUSTOM (data (chunk_failed_event chunk_num (error chunk_result))) ;;;
    (* continue *)
    ret {| chunk_transcriptions := chunk_transcriptions acc;
           all_segments := all_segments acc;
           chunk_results := chunk_results acc ++ [chunk_result] |}
  else
    let chunk_start_time := start_time c in
    new_segments <-
      match segments chunk_result with
      | Some (s :: segs) => adjusted_all chunk_start_time (s :: segs)
      | _ => ret []
      end ;;
    publish CUSTOM (data (chunk_completed_event chunk_num total)) ;;;
    ret {| chunk_transcriptions :=
             chunk_transcriptions acc
             ++ [{| chunk := chunk_num; chunk_text := text chunk_result;
                    chunk_start_time := chunk_start_time |}];
           all_segments := all_segments acc ++ new_segments;
           chunk_results := chunk_results acc ++ [chunk_result] |}.

(** At the depth of the interpreter's recursion limit a call raises
    [RecursionError]; a chunk's run never gets there, its configuration
    having chunking disabled (see [inner_never_chunks]). *)
Definition too_deep : args -> M TranscriptionResult :=
  fun _ => raise (Exn RuntimeError (lit "maximum recursion depth exceeded")).

(** [for i, chunk_info in enumerate(chunks)], from index [i] on. *)
Fixpoint chunk_loop (E : env) (a : args) (cfg : loc) (m : WhisperModel)
    (transcription_id : str) (total : nat) (i : nat)
    (chunks : list chunk_info) (acc : collected) : M collected :=
  match chunks with
  | [] => ret acc
  | c :: chunks' =>
      announce i total c transcription_id ;;;
      chunk_config <- disable_chunking cfg ;;
      chunk_result <-
        transcribe_audio_with R too_deep (chunk_env E i)
          (chunk_args a m c chunk_config) ;;
      acc <- collect i total c chunk_result acc ;;
      chunk_loop E a cfg m transcription_id total (S i) chunks' acc
  end.

(** Lines 1162-1185: the output file in the requested format. *)
Definition write_merged (E : env) (a : args) (fmt : OutputFormat)
    (output_path merged_text : str) (acc : collected) (total : nat)
    : M unit :=
  match fmt with
  | TXT =>
      perform (WriteText output_path merged_text) ;;;
      lift (write (base E) output_path)
  | SRT =>
      srt_content <-
        match all_segments acc with
        | _ :: _ =>
            lift (segments_to_srt (base E) (all_segments acc)
                    (srt_max_chars a) (srt_max_duration a)
                    (srt_linebreaks a))
        | [] =>
            lift (text_to_srt (base E) merged_text (srt_max_chars a)
                    (srt_max_duration a) (srt_linebreaks a))
        end ;;
      perform (WriteText output_path srt_content) ;;;
      lift (write (base E) output_path)
  | VTT =>
      perform (WriteText output_path (vtt_of merged_text)) ;;;
      lift (write (base E) output_path)
  | JSON =>
      perform (WriteJson output_path merged_text (all_segments acc)
                 (Some total)) ;;;
      lift (write (base E) output_path)
  end.

(** Lines 1148-1216: after the loop. *)
Definition after_loop (E : env) (a : args) (cfg : loc) (fmt : OutputFormat)
    (m : WhisperModel) (chunks : list chunk_info) (acc : collected)
    : M TranscriptionResult :=
  let audio_path := audio_path a in
  let total := length chunks in
  merged_text <- lift (merge_transcriptions E (chunk_transcriptions acc)) ;;
  output_path <-
    match output_path a with
    | None =>
        output_directory <-
          match given (output_dir a) with
          | Some d => ret (VStr d)
          | None =>
              output <- py_item (VRef cfg) "output" ;;
              py_item output "default_directory"
          end ;;
        lift (get_output_path (base E) audio_path output_directory
                (format_value fmt))
    | Some p => ret p
    end ;;
  lift (ensure_directory_exists (base E) (dirname R output_path)) ;;;
  write_merged E a fmt output_path merged_text acc total ;;;
  match chunks with
  | c :: _ =>
      match dirname R (path c) with
      | [] => ret tt
      | chunk_dir =>
          perform (CleanupChunks chunk_dir) ;;;
          lift (cleanup_chunks E chunk_dir)
      end
  | [] => ret tt
  end ;;;
  publish TRANSCRIPTION_COMPLETED
    [("audio_path"%string, VStr audio_path);
     ("output_path"%string, VStr output_path);
     ("chunks"%string, VNum (num_of_nat total));
     ("text"%string, VStr merged_text)] ;;;
  attempt (lift (reload_config E) ;;;
           perform (Cleanup audio_path) ;;;
           lift (cleanup_after_transcription (base E) audio_path)) ;;;
  ret {| success := true; text := Some merged_text;
         segments := Some (all_segments acc);
         output_file := Some output_path; error := None;
         Models.language := language a;
         Models.model := Some (model_value m); stderr := None |}.

(** The collection before the first chunk. *)
Definition nothing_yet : collected :=
  {| chunk_transcriptions := []; all_segments := []; chunk_results := [] |}.

(** Lines 1029-1146: the body of the [try] up to the loop. *)
Definition chunked_body (E : env) (a : args) (cfg : loc)
    (fmt : OutputFormat) (m : WhisperModel) (transcription_id : str)
    : M TranscriptionResult :=
  let audio_path := audio_path a in
  duration_seconds <- lift (get_audio_duration (base E) audio_path) ;;
  publish PROGRESS_UPDATE
    (status_payload (split_status R duration_seconds "Erstelle " ++ lit "...")
       transcription_id) ;;;
  publish PROGRESS_UPDATE
    [("task"%string, VStr (lit "chunking"));
     ("status"%string, VStr (lit "Audio-Datei wird in Chunks aufgeteilt..."));
     ("progress"%string, VNum (NInt 0));
     ("user_id"%string, VStr transcription_id)] ;;;
  publish CUSTOM
    [("type"%string, VStr (lit "CHUNKING_STARTED"));
     ("audio_path"%string, VStr audio_path);
     ("user_id"%string, VStr transcription_id)] ;;;
  chunks <- lift (split_audio E audio_path) ;;
  let total := length chunks in
  publish PROGRESS_UPDATE
    (status_payload
       (str_of_Z (Z.of_nat total)
        ++ lit " Segmente erstellt. Starte Transkription...")
       transcription_id) ;;;
  publish PROGRESS_UPDATE
    [("task"%string, VStr (lit "chunking"));
     ("status"%string,
      VStr (str_of_Z (Z.of_nat total) ++ lit " Chunks erfolgreich erstellt"));
     ("chunks"%string, VNum (num_of_nat total));
     ("progress"%string, VNum (NInt 100));
     ("user_id"%string, VStr transcription_id)] ;;;
  acc <- chunk_loop E a cfg m transcription_id total 0 chunks nothing_yet ;;
  after_loop E a cfg fmt m chunks acc.

(** Lines 1218-1225: the handler of the [try]. *)
Definition on_chunked_exception (audio_path : str) (e : exn)
    : M TranscriptionResult :=
  let error_msg := lit "Error in chunked transcription: " ++ exn_str e in
  publish TRANSCRIPTION_FAILED (failed_payload audio_path error_msg) ;;;
  ret (failed error_msg).

(** Lines 1010-1026: the statements before the [try]. *)
Definition chunked_prelude (E : env) (a : args)
    : M (loc * OutputFormat * WhisperModel) :=
  cfg <- resolve_config (base E) a ;;
  fmt <- lift (to_format (output_format a)) ;;
  m <- lift (to_model (base E) (model a)) ;;
  lift (new_chunker (base E)) ;;;
  ret (cfg, fmt, m).

(** [transcribe_audio_chunked]. *)
Definition transcribe_audio_chunked (E : env) (a : args)
    : M TranscriptionResult :=
  p <- chunked_prelude E a ;;
  let '(cfg, fmt, m) := p in
  let transcription_id := take 8 (uuid_first (base E)) in
  catch (chunked_body E a cfg fmt m transcription_id)
        (on_chunked_exception (audio_path a)).

(** [transcribe_audio], the entry point. *)
Definition transcribe_audio (E : env) (a : args) : M TranscriptionResult :=
  transcribe_audio_with R (transcribe_audio_chunked E) (base E) a.

End Pipeline.

End Chunked.

(** ** A runtime and environments for the examples *)

Module Sample.

Import Models Run Transcribe Chunked.

(** Case mapping on the ASCII letters. *)
Definition ascii_lower (s : str) : str :=
  map (fun c => if ((65 <=? c) && (c <=? 90))%N then (c + 32)%N else c) s.

(** [s] split at its last [sep]. *)
Definition split_last (sep : N) (s : str) : option (str * str) :=
  let '(after, before) := span (fun c => negb (c =? sep)%N) (rev s) in
  match before with
  | [] => None
  | _ :: before' => Some (rev before', rev after)
  end.

Definition to_Q (n : number) : Q :=
  match n with NInt z => inject_Z z | NFloat q => q end.

(** Arithmetic without rounding, where the interpreter has floats. *)
Definition exact (op : Q -> Q -> Q) (x y : number) : number :=
  NFloat (Qred (op (to_Q x) (to_Q y))).

Definition show_number (n : number) : str :=
  match n with
  | NInt z => str_of_Z z
  | NFloat q => str_of_Z (Qnum q) ++ lit "/" ++ str_of_Z (Zpos (Qden q))
  end.

Definition posix : runtime :=
  {| lower := ascii_lower;
     dirname := fun p => match split_last 47 p with
                         | Some (d, _) => d
                         | None => []
                         end;
     basename := fun p => match split_last 47 p with
                          | Some (_, b) => b
                          | None => p
                          end;
     splitext_root := fun p => match split_last 46 p with
                               | Some (r, _) => r
                               | None => p
                               end;
     join := fun a b => a ++ [47%N] ++ b;
     str_of_value := fun v => match v with
                              | VStr s => s
                              | VNum n => show_number n
                              | VBool true => lit "True"
                              | VBool false => lit "False"
                              | VNone => lit "None"
                              | VRef _ => lit "{...}"
                              end;
     repr_lines := fun l =>
       lit "[" ++ concat (map (fun x => lit "'" ++ x ++ lit "', ") l)
       ++ lit "]";
     fmt_1f := show_number;
     fmt_num := show_number;
     add := fun x y => match x, y with
                       | NInt a, NInt b => NInt (a + b)
                       | _, _ => exact Qplus x y
                       end;
     mul := exact Qmult;
     truediv := exact Qdiv;
     trunc := fun n => match n with
                       | NInt z => z
                       | NFloat q => Z.quot (Qnum q) (Zpos (Qden q))
                       end |}.

(** A pass of the consumer loop in which nothing has arrived. *)
Definition quiet (elapsed : Q) : Pump.tick :=
  {| Pump.arrived := []; Pump.elapsed_time := elapsed;
     Pump.arrived_in_poll := []; Pump.exited := false;
     Pump.stdout_alive := true; Pump.stderr_alive := true;
     Pump.exits_on_terminate := true |}.

(** A pass that finds [items] on the queue. *)
Definition with_items (elapsed : Q) (items : list StreamReader.item)
    : Pump.tick :=
  {| Pump.arrived := items; Pump.elapsed_time := elapsed;
     Pump.arrived_in_poll := []; Pump.exited := false;
     Pump.stdout_alive := true; Pump.stderr_alive := true;
     Pump.exits_on_terminate := true |}.

(** A run of the recognizer that prints one progress line and ends well,
    leaving [text] in its output file. *)
Definition calm (text : str) : Transcribe.env :=
  {| load_config := Ok 1%positive;
     is_model := fun s => bool_decide (s = lit "large-v3-turbo");
     exists_audio := fun _ => true;
     uuid_first := lit "0f8fad5b-d9cb-469f-a165-70867728950e";
     uuid_second := lit "7c9e6679-7425-40de-944b-e07fc1f90ae7";
     import_ffmpeg := Ok tt;
     detect_ffmpeg := Ok (Some (lit "/usr/bin/ffmpeg"));
     gettempdir := lit "/tmp";
     ensure_directory_exists := fun _ => Ok tt;
     convert_opus_to_mp3 := fun _ _ _ => Ok (0, [], []);
     is_audio_chunkable := fun _ => Ok true;
     new_chunker := Ok tt;
     get_audio_duration := fun _ => Ok (NInt 3600);
     get_output_path := fun a _ ext => Ok (a ++ lit "." ++ ext);
     get_whisper_binary_path := Ok (lit "/usr/local/bin/whisper-cli");
     get_model_path := fun m => Ok (lit "/models/ggml-" ++ m ++ lit ".bin");
     download_model := fun m => Ok (lit "/models/ggml-" ++ m ++ lit ".bin");
     makedirs := fun _ => Ok tt;
     fallback_temp_dir := lit "/project/transcriptions/temp";
     extract_audio := Ok tt;
     exists_temp_audio := fun _ => true;
     chdir := fun _ => Ok tt;
     popen := fun _ => Ok 4711%nat;
     ticks :=
       [quiet 1;
        with_items 2 [(StreamReader.Stdout, Some (lit "progress = [ 50%]"))];
        with_items 3 [(StreamReader.Stdout, None); (StreamReader.Stderr, None)];
        quiet 3; quiet 3];
     overdue := Pump.Late (quiet 3601) eq_refl;
     returncode := Some 0;
     exists_txt_output := fun _ => true;
     read_text := fun _ => Ok text;
     copy := fun _ _ => Ok tt;
     write := fun _ => Ok tt;
     parse_segments := fun _ => Ok None;
     segments_to_srt := fun _ _ _ _ => Ok (lit "1");
     text_to_srt := fun _ _ _ _ => Ok (lit "1");
     export_json_control := fun _ _ => Ok tt;
     cleanup_after_transcription := fun _ => Ok tt |}.

(** The same surroundings with a recognizer that never finishes. *)
Definition stuck : Transcribe.env :=
  {| load_config := load_config (calm []);
     is_model := is_model (calm []);
     exists_audio := exists_audio (calm []);
     uuid_first := uuid_first (calm []);
     uuid_second := uuid_second (calm []);
     import_ffmpeg := import_ffmpeg (calm []);
     detect_ffmpeg := detect_ffmpeg (calm []);
     gettempdir := gettempdir (calm []);
     ensure_directory_exists := ensure_directory_exists (calm []);
     convert_opus_to_mp3 := convert_opus_to_mp3 (calm []);
     is_audio_chunkable := is_audio_chunkable (calm []);
     new_chunker := new_chunker (calm []);
     get_audio_duration := get_audio_duration (calm []);
     get_output_path := get_output_path (calm []);
     get_whisper_binary_path := get_whisper_binary_path (calm []);
     get_model_path := get_model_path (calm []);
     download_model := download_model (calm []);
     makedirs := makedirs (calm []);
     fallback_temp_dir := fallback_temp_dir (calm []);
     extract_audio := extract_audio (calm []);
     exists_temp_audio := exists_temp_audio (calm []);
     chdir := chdir (calm []);
     popen := popen (calm []);
     ticks := [quiet 1; quiet 1800];
     overdue :=
       Pump.Late
         {| Pump.arrived := []; Pump.elapsed_time := 3601;
            Pump.arrived_in_poll := []; Pump.exited := false;
            Pump.stdout_alive := true; Pump.stderr_alive := true;
            Pump.exits_on_terminate := false |} eq_refl;
     returncode := None;
     exists_txt_output := fun _ => false;
     read_text := read_text (calm []);
     copy := copy (calm []);
     write := write (calm []);
     parse_segments := parse_segments (calm []);
     segments_to_srt := segments_to_srt (calm []);
     text_to_srt := text_to_srt (calm []);
     export_json_control := export_json_control (calm []);
     cleanup_after_transcription := cleanup_after_transcription (calm []) |}.

(** The same surroundings with a recognizer that prints a progress marker
    of 4301 digits. *)
Definition garbled : Transcribe.env :=
  {| load_config := load_config (calm []);
     is_model := is_model (calm []);
     exists_audio := exists_audio (calm []);
     uuid_first := uuid_first (calm []);
     uuid_second := uuid_second (calm []);
     import_ffmpeg := import_ffmpeg (calm []);
     detect_ffmpeg := detect_ffmpeg (calm []);
     gettempdir := gettempdir (calm []);
     ensure_directory_exists := ensure_directory_exists (calm []);
     convert_opus_to_mp3 := convert_opus_to_mp3 (calm []);
     is_audio_chunkable := is_audio_chunkable (calm []);
     new_chunker := new_chunker (calm []);
     get_audio_duration := get_audio_duration (calm []);
     get_output_path := get_output_path (calm []);
     get_whisper_binary_path := get_whisper_binary_path (calm []);
     get_model_path := get_model_path (calm []);
     download_model := download_model (calm []);
     makedirs := makedirs (calm []);
     fallback_temp_dir := fallback_temp_dir (calm []);
     extract_audio := extract_audio (calm []);
     exists_temp_audio := exists_temp_audio (calm []);
     chdir := chdir (calm []);
     popen := popen (calm []);
     ticks :=
       [quiet 1;
        with_items 2 [(StreamReader.Stdout, Some Pump.long_marker)];
        with_items 3 [(StreamReader.Stdout, None); (StreamReader.Stderr, None)]];
     overdue := overdue (calm []);
     returncode := None;
     exists_txt_output := fun _ => false;
     read_text := read_text (calm []);
     copy := copy (calm []);
     write := write (calm []);
     parse_segments := parse_segments (calm []);
     segments_to_srt := segments_to_srt (calm []);
     text_to_srt := text_to_srt (calm []);
     export_json_control := export_json_control (calm []);
     cleanup_after_transcription := cleanup_after_transcription (calm []) |}.

(** The same surroundings with the audio file missing. *)
Definition missing : Transcribe.env :=
  {| load_config := load_config (calm []);
     is_model := is_model (calm []);
     exists_audio := fun _ => false;
     uuid_first := uuid_first (calm []);
     uuid_second := uuid_second (calm []);
     import_ffmpeg := import_ffmpeg (calm []);
     detect_ffmpeg := detect_ffmpeg (calm []);
     gettempdir := gettempdir (calm []);
     ensure_directory_exists := ensure_directory_exists (calm []);
     convert_opus_to_mp3 := convert_opus_to_mp3 (calm []);
     is_audio_chunkable := is_audio_chunkable (calm []);
     new_chunker := new_chunker (calm []);
     get_audio_duration := get_audio_duration (calm []);
     get_output_path := get_output_path (calm []);
     get_whisper_binary_path := get_whisper_binary_path (calm []);
     get_model_path := get_model_path (calm []);
     download_model := download_model (calm []);
     makedirs := makedirs (calm []);
     fallback_temp_dir := fallback_temp_dir (calm []);
     extract_audio := extract_audio (calm []);
     exists_temp_audio := exists_temp_audio (calm []);
     chdir := chdir (calm []);
     popen := popen (calm []);
     ticks := ticks (calm []);
     overdue := overdue (calm []);
     returncode := returncode (calm []);
     exists_txt_output := exists_txt_output (calm []);
     read_text := read_text (calm []);
     copy := copy (calm []);
     write := write (calm []);
     parse_segments := parse_segments (calm []);
     segments_to_srt := segments_to_srt (calm []);
     text_to_srt := text_to_srt (calm []);
     export_json_control := export_json_control (calm []);
     cleanup_after_transcription := cleanup_after_transcription (calm []) |}.

(** A configuration as [load_config] builds it: the dict at 1, with its
    ["chunking"] section at 2 and its ["output"] section at 3. *)
Definition configured : world :=
  {| events := [];
     heap :=
       {[ 1%positive :=
            {[ "chunking"%string := VRef 2; "output"%string := VRef 3 ]};
          2%positive :=
            {[ "enabled"%string := VBool true;
               "max_duration_minutes"%string := VNum (NInt 20) ]};
          3%positive :=
            {[ "default_directory"%string := VStr (lit "/out");
               "temp_directory"%string := VStr (lit "/out/temp") ]} ]};
     effects := [];
     current_transcription_process := None |}.

(** A call as the web interface makes it. *)
Definition request (audio_path : str) (output_format : str) : args :=
  {| audio_path := audio_path;
     output_format := inl output_format;
     language := Some (lit "de");
     model := inl (lit "large-v3-turbo");
     output_path := None;
     output_dir := None;
     srt_max_chars := Some 40;
     srt_max_duration := Some (NFloat (3 # 2));
     srt_linebreaks := true;
     config := Some 1%positive |}.

(** An hour of audio cut into three chunks; the file of the second has
    gone when its turn comes. *)
Definition three_chunks : Chunked.env :=
  {| base := calm (lit "whole");
     split_audio := fun _ =>
       Ok [ {| path := lit "/out/temp/chunks/chunk_000.wav";
               filename := lit "chunk_000.wav"; start_time := NInt 0 |};
            {| path := lit "/out/temp/chunks/chunk_001.wav";
               filename := lit "chunk_001.wav"; start_time := NInt 1190 |};
            {| path := lit "/out/temp/chunks/chunk_002.wav";
               filename := lit "chunk_002.wav"; start_time := NInt 2380 |} ];
     merge_transcriptions := fun l =>
       Ok (concat (map (fun c => match chunk_text c with
                                 | Some t => t ++ lit " "
                                 | None => []
                                 end) l));
     cleanup_chunks := fun _ => Ok tt;
     reload_config := Ok 1%positive;
     chunk_env := fun i =>
       match i with
       | 0%nat => calm (lit "a storm is")
       | 1%nat => missing
       | _ => calm (lit "coming tonight")
       end |}.

End Sample.

(** ** Properties of the two pipelines *)

Module Facts.

Import Models Run Transcribe Chunked.
Local Open Scope run_scope.

(** *** What every step leaves alone

    No step of either pipeline takes an event back or drops a dict, none
    writes the key ["chunking"] of a dict, and the only value written under
    the key ["enabled"] is [False]. *)

Definition keeps (h h' : gmap loc dict) : Prop :=
  forall l d, h !! l = Some d ->
    exists d', h' !! l = Some d'
               /\ d' !! "chunking" = d !! "chunking"
               /\ (d' !! "enabled" = d !! "enabled"
                   \/ d' !! "enabled" = Some (VBool false)).

Definition grows (w w' : world) : Prop :=
  events w `prefix_of` events w' /\ keeps (heap w) (heap w').

Definition steady {A} (m : M A) : Prop := forall w, grows w (snd (m w)).

Lemma keeps_refl h : keeps h h.
Proof. intros l d H. eauto. Qed.

Lemma keeps_trans h1 h2 h3 : keeps h1 h2 -> keeps h2 h3 -> keeps h1 h3.
Proof.
  intros H12 H23 l d H. destruct (H12 l d H) as (d2 & H2 & Hc & He).
  destruct (H23 l d2 H2) as (d3 & H3 & Hc' & He').
  exists d3. split; [done|]. split; [congruence|].
  destruct He' as [He'|He']; [|now right].
  destruct He as [He|He]; [left|right]; congruence.
Qed.

Lemma grows_refl w : grows w w.
Proof. split; [done | apply keeps_refl]. Qed.

Lemma grows_trans w1 w2 w3 : grows w1 w2 -> grows w2 w3 -> grows w1 w3.
Proof.
  intros [H1 H1'] [H2 H2']. split; [by etrans | by eapply keeps_trans].
Qed.

Lemma steady_ret {A} (a : A) : steady (ret a).
Proof. intros w. apply grows_refl. Qed.

Lemma steady_raise {A} e : steady (@raise A e).
Proof. intros w. apply grows_refl. Qed.

Lemma steady_lift {A} (r : res A) : steady (lift r).
Proof. intros w. apply grows_refl. Qed.

Lemma steady_bind {A B} (m : M A) (k : A -> M B) :
  steady m -> (forall a, steady (k a)) -> steady (bind m k).
Proof.
  intros Hm Hk w. unfold bind. specialize (Hm w).
  destruct (m w) as [[a|e] w1]; simpl in *; [|done].
  eapply grows_trans; [exact Hm | apply Hk].
Qed.

Lemma steady_catch {A} (m : M A) (h : exn -> M A) :
  steady m -> (forall e, steady (h e)) -> steady (catch m h).
Proof.
  intros Hm Hh w. unfold catch. specialize (Hm w).
  destruct (m w) as [[a|e] w1]; simpl in *; [done|].
  eapply grows_trans; [exact Hm | apply Hh].
Qed.

Lemma steady_attempt {A} (m : M A) : steady m -> steady (attempt m).
Proof.
  intros Hm w. unfold attempt. specialize (Hm w). now destruct (m w).
Qed.

Lemma steady_publish t d : steady (publish t d).
Proof.
  intros w. split; simpl; [by apply prefix_app_r | apply keeps_refl].
Qed.

Lemma steady_perform e : steady (perform e).
Proof. intros w. split; simpl; [done | apply keeps_refl]. Qed.

Lemma steady_set_process pid : steady (set_process pid).
Proof. intros w. split; simpl; [done | apply keeps_refl]. Qed.

Lemma steady_get_heap : steady get_heap.
Proof. intros w. apply grows_refl. Qed.

Lemma steady_py_in k v : steady (py_in k v).
Proof.
  intros w. unfold py_in. destruct v; try apply grows_refl.
  destruct (heap w !! l); apply grows_refl.
Qed.

Lemma steady_py_item v k : steady (py_item v k).
Proof.
  intros w. unfold py_item.
  destruct (as_dict (heap w) v) as [d|]; [|apply grows_refl].
  destruct (d !! k); apply grows_refl.
Qed.

Lemma steady_py_get2 v k1 k2 x : steady (py_get2 v k1 k2 x).
Proof.
  intros w. unfold py_get2.
  destruct (as_dict (heap w) v) as [d|]; [|apply grows_refl].
  destruct (d !! k1) as [v1|]; [|apply grows_refl].
  destruct (as_dict (heap w) v1); apply grows_refl.
Qed.

Lemma steady_truthy v : steady (truthy v).
Proof. intros w. apply grows_refl. Qed.

Lemma steady_as_str v : steady (as_str v).
Proof. destruct v; simpl; first [apply steady_ret | apply steady_raise]. Qed.

Lemma steady_as_number v : steady (as_number v).
Proof. destruct v; simpl; first [apply steady_ret | apply steady_raise]. Qed.

Lemma steady_alloc d : steady (alloc d).
Proof.
  intros w. split; simpl; [done|]. intros l d0 H.
  exists d0. split; [|auto]. rewrite lookup_insert_ne; [done|].
  intros <-. pose proof (is_fresh (dom (heap w))) as Hf.
  apply Hf, elem_of_dom. eauto.
Qed.

Lemma steady_py_setitem v k x :
  k <> "chunking"%string ->
  k <> "enabled"%string \/ k = "enabled"%string /\ x = VBool false ->
  steady (py_setitem v k x).
Proof.
  intros Hc He w. unfold py_setitem.
  destruct v; try apply grows_refl.
  destruct (heap w !! l) as [d|] eqn:El; [|apply grows_refl].
  split; simpl; [done|]. intros l0 d0 H.
  destruct (decide (l0 = l)) as [->|Hne].
  - rewrite lookup_insert_eq. exists (<[k := x]> d).
    split; [done|]. rewrite lookup_insert_ne by done.
    split; [congruence|].
    destruct He as [He|[-> ->]].
    + left. rewrite lookup_insert_ne by done. congruence.
    + right. apply lookup_insert_eq.
  - rewrite lookup_insert_ne by done. eauto.
Qed.

Lemma steady_pump E audio_path tid : steady (pump E audio_path tid).
Proof.
  intros w. unfold pump.
  destruct (Pump.consumer_loop _ _ _ _ _) as [x st].
  assert (grows w
            {| events := events w ++ Pump.published st; heap := heap w;
               effects := effects w ++ Pump.effects st;
               current_transcription_process :=
                 current_transcription_process w |}).
  { split; simpl; [by apply prefix_app_r | apply keeps_refl]. }
  now destruct x.
Qed.

Create HintDb steady discriminated.
#[local] Hint Resolve steady_ret steady_raise steady_lift steady_publish
  steady_perform steady_set_process steady_get_heap steady_py_in
  steady_py_item steady_py_get2 steady_truthy steady_as_str steady_as_number
  steady_alloc steady_pump : steady.

(** One step through a computation built from the steps above. *)
Ltac steady_step :=
  match goal with
  | |- steady (bind _ _) => apply steady_bind; [|intros ?]
  | |- steady (catch _ _) => apply steady_catch; [|intros ?]
  | |- steady (attempt _) => apply steady_attempt
  | |- steady (py_setitem _ _ _) =>
      apply steady_py_setitem;
      [discriminate | first [left; discriminate | right; split; reflexivity]]
  | |- steady (let _ := _ in _) => cbv zeta
  | |- steady (match ?x with _ => _ end) => destruct x
  | |- steady _ => solve [auto with steady]
  end.

Ltac steady_all := repeat steady_step.

Section Steady.

Variable R : runtime.

Lemma steady_cleanup E p : steady (cleanup E p).
Proof. unfold cleanup. steady_all. Qed.

Lemma steady_convert_opus E cfg tid p : steady (convert_opus R E cfg tid p).
Proof. unfold convert_opus. steady_all. Qed.

Lemma steady_find_model E m : steady (find_model E m).
Proof. unfold find_model. steady_all. Qed.

Lemma steady_threads_option cfg : steady (threads_option R cfg).
Proof. unfold threads_option. steady_all. Qed.

Lemma steady_choose_temp_dir E cfg : steady (choose_temp_dir E cfg).
Proof. unfold choose_temp_dir. steady_all. Qed.

Lemma steady_audio_input E t p : steady (audio_input R E t p).
Proof. unfold audio_input. steady_all. Qed.

Lemma steady_launch E a cfg m p : steady (launch R E a cfg m p).
Proof.
  unfold launch.
  pose proof (steady_find_model E m).
  pose proof (steady_threads_option cfg).
  pose proof (steady_choose_temp_dir E cfg).
  pose proof (fun t => steady_audio_input E t p).
  steady_all.
Qed.

Lemma steady_write_output E a fmt t x o txt :
  steady (write_output E a fmt t x o txt).
Proof. unfold write_output. steady_all. Qed.

Lemma steady_finish E a fmt m p o t tid l :
  steady (finish R E a fmt m p o t tid l).
Proof.
  unfold finish.
  pose proof (steady_cleanup E p).
  pose proof (fun x txt => steady_write_output E a fmt t x o txt).
  steady_all.
Qed.

Lemma steady_on_exception E p e : steady (on_exception E p e).
Proof. unfold on_exception. pose proof (steady_cleanup E p). steady_all. Qed.

Lemma steady_guarded E a cfg fmt m p o : steady (guarded R E a cfg fmt m p o).
Proof.
  unfold guarded, recognize.
  pose proof (steady_launch E a cfg m p).
  pose proof (fun t tid l => steady_finish E a fmt m p o t tid l).
  pose proof (steady_on_exception E p).
  steady_all.
Qed.

Lemma steady_prelude E a : steady (prelude R E a).
Proof.
  unfold prelude, resolve_config.
  pose proof (fun cfg tid p => steady_convert_opus E cfg tid p).
  steady_all.
Qed.

Lemma steady_transcribe_audio_with chunked E a :
  (forall a', steady (chunked a')) ->
  steady (transcribe_audio_with R chunked E a).
Proof.
  intros Hc. unfold transcribe_audio_with.
  pose proof (steady_prelude E a).
  pose proof (fun cfg fmt m p o => steady_guarded E a cfg fmt m p o).
  steady_all.
Qed.

End Steady.

(** *** What a computation returns, and that it returns *)

(** Whatever [m] returns satisfies [P]. *)
Definition ensures {A} (P : A -> Prop) (m : M A) : Prop :=
  forall w a w', m w = (Ok a, w') -> P a.

(** [m] never raises. *)
Definition total {A} (m : M A) : Prop := forall w, exists a, fst (m w) = Ok a.

Lemma ensures_ret {A} (P : A -> Prop) a : P a -> ensures P (ret a).
Proof. intros H w a' w' [= <- <-]. exact H. Qed.

Lemma ensures_raise {A} (P : A -> Prop) e : ensures P (raise e).
Proof. intros w a w' [=]. Qed.

Lemma ensures_bind_with {A B} (Q : A -> Prop) (P : B -> Prop) m k :
  ensures Q m -> (forall a, Q a -> ensures P (k a)) -> ensures P (bind m k).
Proof.
  intros Hm Hk w b w'. unfold bind.
  destruct (m w) as [[a|e] w1] eqn:Em; [|done].
  intros H. eapply Hk; [|exact H]. eapply Hm, Em.
Qed.

Lemma ensures_bind {A B} (P : B -> Prop) (m : M A) k :
  (forall a, ensures P (k a)) -> ensures P (bind m k).
Proof.
  intros Hk. apply (ensures_bind_with (fun _ => True)); [done | auto].
Qed.

Lemma ensures_catch {A} (P : A -> Prop) m h :
  ensures P m -> (forall e, ensures P (h e)) -> ensures P (catch m h).
Proof.
  intros Hm Hh w a w'. unfold catch.
  destruct (m w) as [[a0|e] w1] eqn:Em.
  - intros [= <- <-]. eapply Hm, Em.
  - apply Hh.
Qed.

Lemma total_ret {A} (a : A) : total (ret a).
Proof. intros w. now exists a. Qed.

Lemma total_bind {A B} (m : M A) (k : A -> M B) :
  total m -> (forall a, total (k a)) -> total (bind m k).
Proof.
  intros Hm Hk w. unfold bind. destruct (Hm w) as [a Ha].
  destruct (m w) as [[a0|e] w1]; simpl in Ha; [|done]. apply Hk.
Qed.

Lemma total_catch {A} (m : M A) h :
  (forall e, total (h e)) -> total (catch m h).
Proof.
  intros Hh w. unfold catch. destruct (m w) as [[a|e] w1]; [now exists a|].
  apply Hh.
Qed.

Lemma total_attempt {A} (m : M A) : total (attempt m).
Proof. intros w. unfold attempt. destruct (m w). now exists tt. Qed.

Lemma total_publish t d : total (publish t d).
Proof. intros w. now exists tt. Qed.

(** The handler of a [try] is what the statement returns when its body
    raises. *)
Lemma catch_raise {A} (m : M A) h w e w1 :
  m w = (Raise e, w1) -> catch m h w = h e w1.
Proof. intros H. unfold catch. now rewrite H. Qed.

Lemma bind_run {A B} (m : M A) (k : A -> M B) w :
  bind m k w = match m w with
               | (Ok a, w') => k a w'
               | (Raise e, w') => (Raise e, w')
               end.
Proof. reflexivity. Qed.

Lemma catch_ok {A} (m : M A) h w a w1 :
  m w = (Ok a, w1) -> catch m h w = (Ok a, w1).
Proof. intros H. unfold catch. now rewrite H. Qed.

Ltac ensures_step :=
  match goal with
  | |- ensures _ (bind _ _) => apply ensures_bind; intros ?
  | |- ensures _ (catch _ _) => apply ensures_catch; [|intros ?]
  | |- ensures _ (raise _) => apply ensures_raise
  | |- ensures _ (ret _) => apply ensures_ret
  | |- ensures _ (let _ := _ in _) => cbv zeta
  | |- ensures _ (match ?x with _ => _ end) => destruct x
  end.

(** A result of the single-shot pipeline: of the stated shape, and with no
    segments. *)
Definition plain (r : TranscriptionResult) : Prop :=
  well_formed r /\ segments r = None.

Lemma plain_failed msg : plain (failed msg).
Proof. now repeat split. Qed.

Section Outcomes.

Variable R : runtime.

Lemma total_on_exception E p e : total (on_exception E p e).
Proof.
  unfold on_exception, cleanup.
  repeat first [apply total_bind; [|intros ?] | apply total_publish
               | apply total_attempt | apply total_ret].
Qed.

Lemma total_guarded E a cfg fmt m p o : total (guarded R E a cfg fmt m p o).
Proof. apply total_catch. intros e. apply total_on_exception. Qed.

Lemma total_on_chunked_exception p e : total (on_chunked_exception p e).
Proof.
  unfold on_chunked_exception.
  repeat first [apply total_bind; [|intros ?] | apply total_publish
               | apply total_ret].
Qed.

Lemma plain_finish E a fmt m p o t tid l :
  ensures plain (finish R E a fmt m p o t tid l).
Proof. unfold finish. repeat ensures_step; now repeat split. Qed.

Lemma plain_guarded E a cfg fmt m p o :
  ensures plain (guarded R E a cfg fmt m p o).
Proof.
  unfold guarded, recognize, on_exception.
  pose proof (fun t tid l => plain_finish E a fmt m p o t tid l).
  repeat ensures_step; auto using plain_failed.
Qed.

Definition plain_or_path (x : TranscriptionResult + str) : Prop :=
  match x with inl r => plain r | inr _ => True end.

Lemma plain_convert_opus E cfg tid p :
  ensures plain_or_path (convert_opus R E cfg tid p).
Proof.
  unfold convert_opus.
  repeat ensures_step; simpl; auto using plain_failed.
Qed.

Definition plain_stage (s : stage) : Prop :=
  match s with Return r => plain r | _ => True end.

Lemma plain_prelude E a : ensures plain_stage (prelude R E a).
Proof.
  unfold prelude.
  do 3 (apply ensures_bind; intros ?).
  destruct (negb _); [apply ensures_ret, plain_failed|].
  eapply ensures_bind_with; [apply plain_convert_opus|].
  intros [r|p] Hp; [now apply ensures_ret|].
  repeat ensures_step; exact I.
Qed.

(** What [transcribe_audio] returns when it does not hand over to
    [transcribe_audio_chunked]. *)
Lemma plain_transcribe_audio_with chunked E a :
  (forall a', ensures plain (chunked a')) ->
  ensures plain (transcribe_audio_with R chunked E a).
Proof.
  intros Hc. unfold transcribe_audio_with.
  eapply ensures_bind_with; [apply plain_prelude|].
  intros [r|a'|cfg fmt m p o] Hs;
    [now apply ensures_ret | apply Hc | apply plain_guarded].
Qed.

Lemma plain_inner E a : ensures plain (transcribe_audio_with R too_deep E a).
Proof.
  apply plain_transcribe_audio_with. intros a'. apply ensures_raise.
Qed.

Lemma well_formed_chunked_body E a cfg fmt m tid :
  ensures well_formed (chunked_body R E a cfg fmt m tid).
Proof.
  unfold chunked_body, after_loop. repeat ensures_step. now repeat split.
Qed.

End Outcomes.

(** *** The timeout of the consumer loop (C3) *)

(** What the timeout branch does to the outside. *)
Definition timeout_effects (audio_path : str) (t : Pump.tick) : list effect :=
  [ProcOp Cancel.Terminate; ProcOp (Cancel.WaitFor 5)]
  ++ (if Pump.exits_on_terminate t then []
      else [ProcOp Cancel.Kill; ProcOp Cancel.Wait])
  ++ [Cleanup audio_path].

Lemma handle_effects a tid i rest st :
  Pump.effects (snd (Pump.handle a tid i rest st)) = Pump.effects st.
Proof.
  destruct i as [[] [line|]]; cbn [Pump.handle]; try done.
  now destruct (Pump.on_stdout_line a tid line).
Qed.

Lemma step_effects a tid t st :
  match Pump.step a tid t st with
  | Pump.Leave Pump.TimedOut st' =>
      Pump.effects st' = Pump.effects st ++ timeout_effects a t
  | Pump.Continue st' | Pump.Leave _ st' => Pump.effects st' = Pump.effects st
  end.
Proof.
  unfold Pump.step.
  destruct (negb (Pump.loop_test _)); [done|].
  destruct (negb (Qle_bool _ _)); [done|].
  set (st1 := match Pump.output_queue (Pump.put_all (Pump.arrived t) st) with
              | [] => _ | _ => _ end).
  assert (H1 : Pump.effects st1 = Pump.effects st).
  { subst st1. now destruct (Pump.output_queue _). }
  destruct (Pump.output_queue st1) as [|i rest].
  - destruct (Pump.exited t);
      [destruct (Pump.stdout_alive t || Pump.stderr_alive t)|]; exact H1.
  - pose proof (handle_effects a tid i rest st1) as H.
    destruct (Pump.handle a tid i rest st1) as [[[]|e] st2]; cbn [snd] in H;
      congruence.
Qed.

(** The timeout branch is taken in a pass that reads a time past the
    budget while the loop condition holds, and nothing else of the loop
    touches the child process. *)
Lemma loop_effects a tid ticks overdue st :
  match Pump.consumer_loop a tid ticks overdue st with
  | (Pump.TimedOut, st') =>
      exists t st0,
        (t ∈ ticks \/ t = Pump.late_pass overdue)
        /\ (Pump.process_timeout < Pump.elapsed_time t)%Q
        /\ Pump.loop_test st0 = true
        /\ st' = Pump.on_timeout a t st0
        /\ Pump.effects st' = Pump.effects st ++ timeout_effects a t
  | (_, st') => Pump.effects st' = Pump.effects st
  end.
Proof.
  assert (Hstep : forall t st x st',
             Pump.step a tid t st = Pump.Leave x st' ->
             match x with
             | Pump.TimedOut =>
                 (Pump.process_timeout < Pump.elapsed_time t)%Q
                 /\ Pump.loop_test (Pump.put_all (Pump.arrived t) st) = true
                 /\ st' = Pump.on_timeout a t (Pump.put_all (Pump.arrived t) st)
                 /\ Pump.effects st' = Pump.effects st ++ timeout_effects a t
             | _ => Pump.effects st' = Pump.effects st
             end).
  { intros t st0 x st' Hs. pose proof (step_effects a tid t st0) as He.
    pose proof (Pump.step_leave a tid t st0 x st' Hs) as Hl. rewrite Hs in He.
    destruct x; try exact He. tauto. }
  revert st. induction ticks as [|t ticks IH]; intros st;
    cbn [Pump.consumer_loop].
  - pose proof (Pump.last_step_spec a tid overdue st) as Hs.
    destruct (Pump.last_step a tid overdue st) as [x st']. cbn [fst snd] in Hs.
    apply Hstep in Hs. destruct x; try exact Hs.
    exists (Pump.late_pass overdue), (Pump.put_all
                                        (Pump.arrived (Pump.late_pass overdue)) st).
    split; [now right | tauto].
  - pose proof (step_effects a tid t st) as He.
    destruct (Pump.step a tid t st) as [st1|x st1] eqn:Es.
    + specialize (IH st1).
      destruct (Pump.consumer_loop a tid ticks overdue st1) as [[] st'];
        try congruence.
      destruct IH as (t' & st0 & Ht & Hlt & Htest & Hst & Heff).
      exists t', st0. split; [destruct Ht; [left; now right | now right]|].
      repeat split; try done. congruence.
    + apply Hstep in Es. destruct x; try exact Es.
      exists t, (Pump.put_all (Pump.arrived t) st).
      split; [left; now left | tauto].
Qed.

Section Deadline.

Variable R : runtime.


End Deadline.

Example timed_out_message :
  exn_str timed_out = lit "Transcription timed out after 3600 seconds".
Proof. reflexivity. Qed.

(** A recognizer that is still silent when the budget is spent and does
    not heed [terminate()]. *)
Example stuck_job :
  let r := guarded Sample.posix Sample.stuck
             (Sample.request (lit "/in/talk.wav") (lit "txt")) 1%positive TXT
             {| model_value := lit "large-v3-turbo" |}
             (lit "/in/talk.wav") (lit "/out/talk.txt") Sample.configured in
  fst r
  = Ok (failed (lit "Error transcribing audio: Transcription timed out after 3600 seconds"))
  /\ drop 1 (effects (snd r))
     = [ProcOp Cancel.Terminate; ProcOp (Cancel.WaitFor 5);
        ProcOp Cancel.Kill; ProcOp Cancel.Wait;
        Cleanup (lit "/in/talk.wav"); Cleanup (lit "/in/talk.wav")].
Proof. vm_compute. split; reflexivity. Qed.


(** The exception of the loop body becomes the failed result, and nothing
    is done to the child process. *)
Example garbled_job :
  let r := guarded Sample.posix Sample.garbled
             (Sample.request (lit "/in/talk.wav") (lit "txt")) 1%positive TXT
             {| model_value := lit "large-v3-turbo" |}
             (lit "/in/talk.wav") (lit "/out/talk.txt") Sample.configured in
  fst r
  = Ok (failed (lit "Error transcribing audio: "
                ++ exn_str (too_many_digits 4301)))
  /\ drop 1 (effects (snd r)) = [Cleanup (lit "/in/talk.wav")]
  /\ Pump.progress_fields (events (snd r)) = [VNum (NInt 20)].
Proof. vm_compute. repeat split; reflexivity. Qed.


(** *** The orchestration boundary (C7) *)

Section Boundary.

Variable R : runtime.

(** C7, as the code has it.  An exception raised by a statement before
    the [try] of either function leaves the function: the loading of the
    configuration, the conversion of a string to [OutputFormat] or
    [WhisperModel], the construction of the chunker and, in
    [transcribe_audio], the look-ups in the configuration, the chunkability
    analysis and the making of the output path.  When these statements do
    not raise, the call returns a result of the stated shape: success with
    text and output file, or failure with an error string.  A missing
    source file gives a failed result, and every exception raised inside
    the [try] of either function is turned into a failed result. *)
Theorem exceptions_inside_try_become_results (E : Chunked.env) (a : args)
    (w : world) :
  match chunked_prelude E a w with
  | (Ok _, _) =>
      exists r, fst (transcribe_audio_chunked R E a w) = Ok r /\ well_formed r
  | (Raise e, _) => fst (transcribe_audio_chunked R E a w) = Raise e
  end
  /\ match prelude R (base E) a w with
     | (Ok (Return r), w1) =>
         transcribe_audio R E a w = (Ok r, w1) /\ well_formed r
     | (Ok (Dispatch a'), w1) =>
         transcribe_audio R E a w = transcribe_audio_chunked R E a' w1
     | (Ok (Guarded _ _ _ _ _), _) =>
         exists r, fst (transcribe_audio R E a w) = Ok r /\ well_formed r
     | (Raise e, _) => fst (transcribe_audio R E a w) = Raise e
     end
  /\ (forall cfg fmt m,
        config a = Some cfg ->
        to_format (output_format a) = Ok fmt ->
        to_model (base E) (model a) = Ok m ->
        exists_audio (base E) (audio_path a) = false ->
        transcribe_audio R E a w
        = (Ok (failed (lit "Audio file not found: " ++ audio_path a)), w))
  /\ (forall cfg fmt m p o e w1 w2,
        recognize R (base E) a cfg fmt m p o w1 = (Raise e, w2) ->
        fst (guarded R (base E) a cfg fmt m p o w1)
        = Ok (failed (lit "Error transcribing audio: " ++ exn_str e)))
  /\ (forall cfg fmt m tid e w1 w2,
        chunked_body R E a cfg fmt m tid w1 = (Raise e, w2) ->
        fst (catch (chunked_body R E a cfg fmt m tid)
               (on_chunked_exception (audio_path a)) w1)
        = Ok (failed (lit "Error in chunked transcription: " ++ exn_str e))).
Proof.
  repeat split.
  - unfold transcribe_audio_chunked. rewrite bind_run.
    destruct (chunked_prelude E a w) as [[[[cfg fmt] m]|e] w1]; [|done].
    set (c := catch _ _).
    assert (Ht : total c).
    { apply total_catch. intros e. apply total_on_chunked_exception. }
    destruct (Ht w1) as [r Hr]. exists r. split; [done|].
    destruct (c w1) as [r' w2] eqn:Ec. simpl in Hr. subst r'.
    revert Ec. apply ensures_catch.
    + apply well_formed_chunked_body.
    + intros e. unfold on_chunked_exception.
      repeat ensures_step. now repeat split.
  - unfold transcribe_audio, transcribe_audio_with. rewrite bind_run.
    pose proof (plain_prelude R (base E) a w) as Hp.
    destruct (prelude R (base E) a w) as [[[r|a'|cfg fmt m p o]|e] w1];
      [split; [done|] | done | | done].
    + now destruct (Hp _ _ eq_refl).
    + destruct (total_guarded R (base E) a cfg fmt m p o w1) as [r Hr].
      exists r. split; [done|].
      destruct (guarded R (base E) a cfg fmt m p o w1) as [r' w2] eqn:Eg.
      simpl in Hr. subst r'. now destruct (plain_guarded _ _ _ _ _ _ _ _ _ _ _ Eg).
  - intros cfg fmt m Hc Hf Hm Hex.
    unfold transcribe_audio, transcribe_audio_with, prelude, resolve_config.
    rewrite Hc, Hf, Hm. unfold bind, ret, lift. now rewrite Hex.
  - intros cfg fmt m p o e w1 w2 Hr. unfold guarded.
    rewrite (catch_raise _ _ _ _ _ Hr).
    destruct (total_on_exception (base E) p e w2) as [r Hr'].
    rewrite Hr'. f_equal.
    destruct (on_exception (base E) p e w2) as [r' w3] eqn:Eo.
    simpl in Hr'. subst r'. revert Eo. unfold on_exception.
    apply (ensures_bind (fun r => r = failed _)). intros _.
    apply ensures_bind. intros _. now apply ensures_ret.
  - intros cfg fmt m tid e w1 w2 Hr.
    now rewrite (catch_raise _ _ _ _ _ Hr).
Qed.

End Boundary.

(** C7 as stated fails: a format string that names no member of
    [OutputFormat] makes both functions raise [ValueError]. *)
Lemma invalid_format_escapes :
  fst (transcribe_audio Sample.posix Sample.three_chunks
         (Sample.request (lit "/in/talk.wav") (lit "bogus"))
         Sample.configured)
  = Raise (Exn ValueError (lit "'bogus' is not a valid OutputFormat"))
  /\ fst (transcribe_audio_chunked Sample.posix Sample.three_chunks
            (Sample.request (lit "/in/talk.wav") (lit "bogus"))
            Sample.configured)
     = Raise (Exn ValueError (lit "'bogus' is not a valid OutputFormat")).
Proof. split; vm_compute; reflexivity. Qed.

(** *** The chunk loop *)

(** The entries of [chunk_transcriptions] that chunks with the results
    [results] leave, the first chunk having index [i]. *)
Fixpoint survivors (i : nat) (chunks : list chunk_info)
    (results : list TranscriptionResult) : list chunk_transcription :=
  match chunks, results with
  | c :: chunks', r :: results' =>
      (if success r
       then [{| chunk := S i; chunk_text := text r;
                chunk_start_time := start_time c |}]
       else [])
      ++ survivors (S i) chunks' results'
  | _, _ => []
  end.

(** The configuration at [cfg] reads as chunking disabled: its
    ["chunking"] entry is the dict at [l], whose ["enabled"] is [False]. *)
Definition disabled_at (cfg l : loc) (h : gmap loc dict) : Prop :=
  exists d dl,
    h !! cfg = Some d /\ d !! "chunking" = Some (VRef l)
    /\ h !! l = Some dl /\ dl !! "enabled" = Some (VBool false).

Lemma keeps_disabled cfg l h h' :
  keeps h h' -> disabled_at cfg l h -> disabled_at cfg l h'.
Proof.
  intros Hk (d & dl & Hd & Hc & Hl & He).
  destruct (Hk _ _ Hd) as (d' & Hd' & Hc' & _).
  destruct (Hk _ _ Hl) as (dl' & Hl' & _ & He').
  exists d', dl'. repeat split; try done; [congruence|].
  destruct He'; congruence.
Qed.

Lemma grows_disabled cfg l w w' :
  grows w w' -> disabled_at cfg l (heap w) -> disabled_at cfg l (heap w').
Proof. intros [_ Hk]. now apply keeps_disabled. Qed.

Lemma disabled_read cfg l w :
  disabled_at cfg l (heap w) ->
  py_get2 (VRef cfg) "chunking" "enabled" (VBool true) w = (Ok (VBool false), w).
Proof.
  intros (d & dl & Hd & Hc & Hl & He). unfold py_get2. simpl.
  rewrite Hd, Hc. simpl. now rewrite Hl, He.
Qed.

Lemma bind_ok_inv {A B} (m : M A) (k : A -> M B) w b w' :
  bind m k w = (Ok b, w') ->
  exists a w1, m w = (Ok a, w1) /\ k a w1 = (Ok b, w').
Proof.
  rewrite bind_run. destruct (m w) as [[a|e] w1]; [eauto | done].
Qed.

Lemma lift_inv {A} (r : res A) w a w' :
  lift r w = (Ok a, w') -> r = Ok a /\ w' = w.
Proof. now intros [= -> ->]. Qed.

Lemma publish_inv t d w x w' :
  publish t d w = (Ok x, w') -> events w' = events w ++ [Event t d].
Proof. now intros [= _ <-]. Qed.

Lemma steady_events {A} (m : M A) w r w1 :
  steady m -> m w = (r, w1) -> exists evs, events w1 = events w ++ evs.
Proof. intros Hm Hr. destruct (Hm w) as [[evs Hp] _]. rewrite Hr in Hp. eauto. Qed.

Lemma snd_bind_grows {A B} (m : M A) (k : A -> M B) w :
  (forall a, steady (k a)) -> grows (snd (m w)) (snd (bind m k w)).
Proof.
  intros Hk. rewrite bind_run. destruct (m w) as [[a|e] w1]; simpl.
  - apply Hk.
  - apply grows_refl.
Qed.

Lemma snd_catch_grows {A} (m : M A) h w :
  (forall e, steady (h e)) -> grows (snd (m w)) (snd (catch m h w)).
Proof.
  intros Hh. unfold catch. destruct (m w) as [[a|e] w1]; simpl.
  - apply grows_refl.
  - apply Hh.
Qed.

Section Chunks.

Variable R : runtime.

Lemma steady_adjusted t seg : steady (adjusted R t seg).
Proof. unfold adjusted. steady_all. Qed.

Lemma steady_adjusted_all t segs : steady (adjusted_all R t segs).
Proof.
  induction segs as [|seg segs IH]; simpl; [apply steady_ret|].
  pose proof (steady_adjusted t seg). steady_all.
Qed.

Lemma steady_announce i total c tid : steady (announce R i total c tid).
Proof. unfold announce. steady_all. Qed.

Lemma steady_disable_chunking cfg : steady (disable_chunking cfg).
Proof. unfold disable_chunking. steady_all. Qed.

Lemma steady_collect i total c cr acc : steady (collect R i total c cr acc).
Proof.
  unfold collect. pose proof (fun segs => steady_adjusted_all (start_time c) segs).
  steady_all.
Qed.

Lemma steady_inner E a : steady (transcribe_audio_with R too_deep E a).
Proof. apply steady_transcribe_audio_with. intros a'. apply steady_raise. Qed.

Lemma steady_chunk_loop E a cfg m tid total i chunks acc :
  steady (chunk_loop R E a cfg m tid total i chunks acc).
Proof.
  revert i acc. induction chunks as [|c chunks IH]; intros i acc; simpl.
  - apply steady_ret.
  - pose proof (steady_announce i total c tid).
    pose proof (steady_disable_chunking cfg).
    pose proof (fun x => steady_inner (chunk_env E i) x).
    pose proof (fun cr => steady_collect i total c cr acc).
    steady_all.
Qed.

Lemma steady_write_merged E a fmt o t acc total :
  steady (write_merged E a fmt o t acc total).
Proof. unfold write_merged. steady_all. Qed.

Lemma steady_after_loop E a cfg fmt m chunks acc :
  steady (after_loop R E a cfg fmt m chunks acc).
Proof.
  unfold after_loop.
  pose proof (fun o t => steady_write_merged E a fmt o t acc (length chunks)).
  steady_all.
Qed.

Lemma steady_chunked_body E a cfg fmt m tid :
  steady (chunked_body R E a cfg fmt m tid).
Proof.
  unfold chunked_body.
  pose proof (fun total chunks acc =>
                steady_chunk_loop E a cfg m tid total 0 chunks acc).
  pose proof (fun chunks acc => steady_after_loop E a cfg fmt m chunks acc).
  steady_all.
Qed.

Lemma steady_on_chunked_exception p e : steady (on_chunked_exception p e).
Proof. unfold on_chunked_exception. steady_all. Qed.

Lemma steady_transcribe_audio_chunked E a :
  steady (transcribe_audio_chunked R E a).
Proof.
  unfold transcribe_audio_chunked, chunked_prelude, resolve_config.
  pose proof (fun cfg fmt m tid => steady_chunked_body E a cfg fmt m tid).
  pose proof steady_on_chunked_exception.
  steady_all.
Qed.

(** What [collect] does with the result of a failed chunk: the event,
    and on to the next chunk with nothing added. *)
Lemma collect_failed i total c cr acc w :
  success cr = false ->
  collect R i total c cr acc w
  = (Ok {| chunk_transcriptions := chunk_transcriptions acc;
           all_segments := all_segments acc;
           chunk_results := chunk_results acc ++ [cr] |},
     {| events := events w ++ [chunk_failed_event (S i) (error cr)];
        heap := heap w; effects := effects w;
        current_transcription_process := current_transcription_process w |}).
Proof. intros H. unfold collect. now rewrite H. Qed.

Lemma collect_inv i total c cr acc w acc1 w1 :
  collect R i total c cr acc w = (Ok acc1, w1) ->
  chunk_results acc1 = chunk_results acc ++ [cr]
  /\ chunk_transcriptions acc1
     = chunk_transcriptions acc ++ survivors i [c] [cr]
  /\ (segments cr = None -> all_segments acc1 = all_segments acc)
  /\ exists evs,
       events w1 = events w ++ evs
       /\ (success cr = false -> chunk_failed_event (S i) (error cr) ∈ evs).
Proof.
  destruct (success cr) eqn:Hs.
  - unfold collect. rewrite Hs. cbn [negb]. intros H.
    apply bind_ok_inv in H as (segs & w2 & Hseg & H).
    apply bind_ok_inv in H as ([] & w3 & Hpub & H).
    injection H as <- <-. simpl. rewrite Hs, app_nil_r.
    repeat split; try done.
    + intros Hnone. rewrite Hnone in Hseg. injection Hseg as <- <-.
      now rewrite app_nil_r.
    + assert (Hst : steady (match segments cr with
                            | Some (s0 :: segs0) =>
                                adjusted_all R (start_time c) (s0 :: segs0)
                            | _ => ret []
                            end)).
      { destruct (segments cr) as [[|]|];
          auto using steady_ret, steady_adjusted_all. }
      destruct (steady_events _ _ _ _ Hst Hseg) as [evs1 He1].
      injection Hpub as <-. cbn [events]. rewrite He1, <- app_assoc.
      eexists. split; [reflexivity | congruence].
  - rewrite (collect_failed _ _ _ _ _ _ Hs). intros [= <- <-]. simpl.
    rewrite Hs, app_nil_r. repeat split; try done.
    eexists. split; [reflexivity|]. intros _. apply list_elem_of_singleton.
    reflexivity.
Qed.

(** The loop: every chunk is gone through, whatever its result; the
    entries collected are those of the chunks that succeeded, in order; a
    [CHUNK_FAILED] event is published for each chunk that failed; and no
    segment is collected, the results of the single-shot pipeline having
    none. *)
Lemma chunk_loop_spec E a cfg m tid total chunks :
  forall i acc w acc' w',
    chunk_loop R E a cfg m tid total i chunks acc w = (Ok acc', w') ->
    exists results evs,
      chunk_results acc' = chunk_results acc ++ results
      /\ length results = length chunks
      /\ Forall plain results
      /\ chunk_transcriptions acc'
         = chunk_transcriptions acc ++ survivors i chunks results
      /\ all_segments acc' = all_segments acc
      /\ events w' = events w ++ evs
      /\ (forall k cr,
            results !! k = Some cr -> success cr = false ->
            chunk_failed_event (S (i + k)) (error cr) ∈ evs).
Proof.
  induction chunks as [|c chunks IH]; intros i acc w acc' w'; simpl.
  - intros [= <- <-]. exists [], []. rewrite !app_nil_r.
    repeat split; done.
  - intros H.
    apply bind_ok_inv in H as ([] & w1 & Ha & H).
    apply bind_ok_inv in H as (cc & w2 & Hd & H).
    apply bind_ok_inv in H as (cr & w3 & Hi & H).
    apply bind_ok_inv in H as (acc1 & w4 & Hc & H).
    destruct (steady_events _ _ _ _ (steady_announce _ _ _ _) Ha) as [e1 He1].
    destruct (steady_events _ _ _ _ (steady_disable_chunking _) Hd)
      as [e2 He2].
    destruct (steady_events _ _ _ _ (steady_inner _ _) Hi) as [e3 He3].
    pose proof (plain_inner R _ _ _ _ _ Hi) as Hplain.
    apply collect_inv in Hc as (Hr1 & Ht1 & Hs1 & e4 & He4 & Hf4).
    apply IH in H as (results & e5 & Hr & Hlen & Hpl & Ht & Hs & He & Hf).
    exists (cr :: results), (e1 ++ e2 ++ e3 ++ e4 ++ e5).
    split; [now rewrite Hr, Hr1, <- app_assoc|].
    split; [simpl; now rewrite Hlen|].
    split; [now constructor|].
    split; [rewrite Ht, Ht1; simpl; now rewrite app_nil_r, <- !app_assoc|].
    split; [rewrite Hs; apply Hs1, Hplain|].
    split; [rewrite He, He4, He3, He2, He1; now rewrite <- !app_assoc|].
    intros [|k] cr' Hk Hsucc; simpl in Hk.
    + injection Hk as <-. rewrite Nat.add_0_r.
      rewrite !elem_of_app. right. right. right. left. now apply Hf4.
    + replace (i + S k)%nat with (S i + k)%nat by lia.
      rewrite !elem_of_app. right. right. right. right. now apply (Hf k).
Qed.

(** C1.  When the single-shot transcription of a chunk returns an
    unsuccessful result, the [CHUNK_FAILED] event of that chunk is
    published, nothing is collected for it, and the loop goes on to the
    next chunk.  When no exception is raised in the job, it returns
    [success=True] with the text [merge_transcriptions] makes of the
    entries of the chunks that succeeded, in order, and the events
    published contain a [CHUNK_FAILED] event for each chunk that failed. *)
Theorem chunk_failure_tolerated (E : Chunked.env) (a : args) (w w1 : world)
    (cfg : loc) (fmt : OutputFormat) (m : WhisperModel)
    (r : TranscriptionResult) (w' : world) :
  chunked_prelude E a w = (Ok (cfg, fmt, m), w1) ->
  chunked_body R E a cfg fmt m (take 8 (uuid_first (base E))) w1
  = (Ok r, w') ->
  transcribe_audio_chunked R E a w = (Ok r, w')
  /\ (forall i total c cr acc w0,
        success cr = false ->
        collect R i total c cr acc w0
        = (Ok {| chunk_transcriptions := chunk_transcriptions acc;
                 all_segments := all_segments acc;
                 chunk_results := chunk_results acc ++ [cr] |},
           {| events := events w0 ++ [chunk_failed_event (S i) (error cr)];
              heap := heap w0; effects := effects w0;
              current_transcription_process :=
                current_transcription_process w0 |}))
  /\ exists chunks acc merged evs w2 w3,
       split_audio E (audio_path a) = Ok chunks
       /\ chunk_loop R E a cfg m (take 8 (uuid_first (base E)))
            (length chunks) 0 chunks nothing_yet w2 = (Ok acc, w3)
       /\ length (chunk_results acc) = length chunks
       /\ chunk_transcriptions acc = survivors 0 chunks (chunk_results acc)
       /\ merge_transcriptions E (chunk_transcriptions acc) = Ok merged
       /\ success r = true /\ text r = Some merged /\ error r = None
       /\ events w' = events w1 ++ evs
       /\ (forall k cr,
             chunk_results acc !! k = Some cr -> success cr = false ->
             chunk_failed_event (S k) (error cr) ∈ evs).
Proof.
  intros Hpre Hbody. split; [|split].
  - unfold transcribe_audio_chunked. rewrite bind_run, Hpre.
    now rewrite (catch_ok _ _ _ _ _ Hbody).
  - intros. now apply collect_failed.
  - unfold chunked_body in Hbody. cbv zeta in Hbody.
    apply bind_ok_inv in Hbody as (dur & v1 & H1 & Hbody).
    apply bind_ok_inv in Hbody as ([] & v2 & H2 & Hbody).
    apply bind_ok_inv in Hbody as ([] & v3 & H3 & Hbody).
    apply bind_ok_inv in Hbody as ([] & v4 & H4 & Hbody).
    apply bind_ok_inv in Hbody as (chunks & v5 & H5 & Hbody).
    apply bind_ok_inv in Hbody as ([] & v6 & H6 & Hbody).
    apply bind_ok_inv in Hbody as ([] & v7 & H7 & Hbody).
    apply bind_ok_inv in Hbody as (acc & v8 & Hloop & Hafter).
    pose proof (steady_events _ _ _ _ (steady_after_loop _ _ _ _ _ _ _) Hafter)
      as [e9 He9].
    unfold after_loop in Hafter. cbv zeta in Hafter.
    apply bind_ok_inv in Hafter as (merged & v9 & Hm & Hafter).
    assert (Hres : success r = true /\ text r = Some merged /\ error r = None).
    { revert Hafter.
      apply (ensures_bind
               (fun r => success r = true /\ text r = Some merged
                         /\ error r = None)).
      intros o. repeat ensures_step. now repeat split. }
    pose proof (chunk_loop_spec _ _ _ _ _ _ _ _ _ _ _ _ Hloop)
      as (results & e8 & Hr & Hlen & _ & Ht & _ & He8 & Hf).
    simpl in Hr, Ht. subst results.
    apply lift_inv in H1 as [_ ->]. apply lift_inv in H5 as [Hsplit ->].
    apply lift_inv in Hm as [Hmerge ->].
    apply publish_inv in H2, H3, H4, H6, H7.
    exists chunks, acc, merged. eexists. exists v7, v8.
    split; [exact Hsplit|]. split; [exact Hloop|].
    split; [exact Hlen|]. split; [exact Ht|]. split; [exact Hmerge|].
    split; [tauto|]. split; [tauto|]. split; [tauto|].
    split.
    + rewrite He9, He8, H7, H6, H4, H3, H2. rewrite <- !app_assoc.
      reflexivity.
    + intros k cr Hk Hs. rewrite !elem_of_app. do 5 right. left.
      now apply (Hf k).
Qed.

(** The loop does move the segments of a result that has some: each is
    copied with [start] and [end] increased by the start of the chunk. *)
Lemma adjusted_moves t seg (start stop : number) w :
  seg !! "start" = Some (VNum start) -> seg !! "end" = Some (VNum stop) ->
  adjusted R t seg w
  = (Ok (<["end" := VNum (add R stop t)]>
           (<["start" := VNum (add R start t)]> seg)), w).
Proof. intros Hs He. unfold adjusted. now rewrite Hs, He. Qed.

(** C2 fails on the code.  A result of the single-shot pipeline carries no
    segments, so [chunk_result.segments] is empty for every chunk, the
    loop has nothing to move, and a chunked job that succeeds returns an
    empty list of segments. *)
Theorem chunk_segments_are_lost (E : Chunked.env) (a : args) (w : world)
    (r : TranscriptionResult) (w' : world) :
  transcribe_audio_chunked R E a w = (Ok r, w') ->
  success r = true ->
  segments r = Some []
  /\ (forall Ec ac w0 chunk_result w1,
        transcribe_audio_with R too_deep Ec ac w0 = (Ok chunk_result, w1) ->
        segments chunk_result = None).
Proof.
  intros Hjob Hs. split.
  - unfold transcribe_audio_chunked in Hjob.
    apply bind_ok_inv in Hjob as ([[cfg fmt] m] & w1 & _ & Hjob).
    unfold catch in Hjob.
    destruct (chunked_body R E a cfg fmt m _ w1) as [[r0|e] w2] eqn:Hbody.
    + injection Hjob as -> ->. unfold chunked_body in Hbody.
      cbv zeta in Hbody.
      do 7 (apply bind_ok_inv in Hbody as (? & ? & _ & Hbody)).
      apply bind_ok_inv in Hbody as (acc & w3 & Hloop & Hafter).
      apply chunk_loop_spec in Hloop as (_ & _ & _ & _ & _ & _ & Hseg & _).
      simpl in Hseg. revert Hafter. unfold after_loop. cbv zeta.
      apply (ensures_bind (fun r => segments r = Some [])). intros merged.
      repeat ensures_step. simpl. now rewrite Hseg.
    + revert Hjob. unfold on_chunked_exception.
      intros Hjob. apply bind_ok_inv in Hjob as (? & ? & _ & Hjob).
      injection Hjob as <- _. discriminate.
  - intros Ec ac w0 cr w1 H. now destruct (plain_inner R _ _ _ _ _ H).
Qed.

(** *** The configuration of the caller (C10) *)

(** The copy and the write of [disable_chunking]: the new dict has the
    items of the configuration, and the dict its ["chunking"] entry names,
    which is the one the configuration names, has ["enabled"] set to
    [False]. *)
Lemma disable_chunking_shares cfg l w d dl :
  heap w !! cfg = Some d -> d !! "chunking" = Some (VRef l) ->
  heap w !! l = Some dl ->
  exists chunk_config w1,
    disable_chunking cfg w = (Ok chunk_config, w1)
    /\ heap w !! chunk_config = None
    /\ chunk_config <> cfg
    /\ events w1 = events w
    /\ heap w1
       = <[l := <["enabled" := VBool false]> dl]>
           (<[chunk_config := d]> (heap w))
    /\ disabled_at cfg l (heap w1)
    /\ disabled_at chunk_config l (heap w1).
Proof.
  intros Hd Hc Hl. set (cc := fresh (dom (heap w))).
  assert (Hfresh : heap w !! cc = None).
  { apply not_elem_of_dom, is_fresh. }
  assert (Hcl : cc <> l) by congruence.
  assert (Hcc : cc <> cfg) by congruence.
  exists cc. eexists. split; [|split; [exact Hfresh|split; [exact Hcc|]]].
  - unfold disable_chunking. rewrite bind_run. simpl. rewrite Hd.
    rewrite bind_run. unfold alloc. fold cc.
    rewrite bind_run. unfold py_item, as_dict. cbn [heap].
    rewrite lookup_insert_eq, Hc.
    rewrite bind_run. unfold py_setitem. cbn [heap].
    rewrite lookup_insert_ne by done. rewrite Hl. simpl. reflexivity.
  - cbn [events heap]. split; [done|]. split; [done|].
    assert (Hdis : forall x, x = cfg \/ x = cc ->
              disabled_at x l
                (<[l := <["enabled" := VBool false]> dl]>
                   (<[cc := d]> (heap w)))).
    { intros x Hx.
      assert (Hxd : <[cc := d]> (heap w) !! x = Some d).
      { destruct Hx as [-> | ->];
          [rewrite lookup_insert_ne by done; exact Hd
          | apply lookup_insert_eq]. }
      destruct (decide (x = l)) as [->|Hxl].
      - assert (dl = d) as ->.
        { rewrite lookup_insert_ne in Hxd by done. congruence. }
        exists (<["enabled" := VBool false]> d),
               (<["enabled" := VBool false]> d).
        rewrite !lookup_insert_eq. rewrite lookup_insert_ne by done.
        repeat split; done.
      - exists d, (<["enabled" := VBool false]> dl).
        rewrite lookup_insert_ne by done. rewrite lookup_insert_eq.
        rewrite lookup_insert_eq. repeat split; done. }
    split; apply Hdis; auto.
Qed.

(** C10.  When the job gets to its first chunk, [disable_chunking] makes
    a new dict with the items of the caller's configuration and sets
    ["enabled"] to [False] in the ["chunking"] dict both share.  From then
    on the caller's own configuration reads as chunking disabled, and it
    still does when [transcribe_audio_chunked] has returned, whatever it
    returns. *)
Theorem chunking_stays_disabled (E : Chunked.env) (a : args) (w : world)
    (cfg l : loc) (d dl : dict) (fmt : OutputFormat) (m : WhisperModel)
    (duration : number) (c : chunk_info) (chunks : list chunk_info) :
  config a = Some cfg ->
  heap w !! cfg = Some d ->
  d !! "chunking" = Some (VRef l) ->
  heap w !! l = Some dl ->
  to_format (output_format a) = Ok fmt ->
  to_model (base E) (model a) = Ok m ->
  new_chunker (base E) = Ok tt ->
  get_audio_duration (base E) (audio_path a) = Ok duration ->
  split_audio E (audio_path a) = Ok (c :: chunks) ->
  (forall w0, heap w0 = heap w ->
     exists chunk_config w1,
       disable_chunking cfg w0 = (Ok chunk_config, w1)
       /\ heap w !! chunk_config = None
       /\ chunk_config <> cfg
       /\ disabled_at cfg l (heap w1)
       /\ disabled_at chunk_config l (heap w1))
  /\ let w' := snd (transcribe_audio_chunked R E a w) in
     disabled_at cfg l (heap w')
     /\ py_get2 (VRef cfg) "chunking" "enabled" (VBool true) w'
        = (Ok (VBool false), w').
Proof.
  intros Hcfg Hd Hc Hl Hfmt Hm Hnew Hdur Hsplit. split.
  - intros w0 Hw0. rewrite <- Hw0 in Hd, Hl |- *.
    destruct (disable_chunking_shares cfg l w0 d dl Hd Hc Hl)
      as (cc & w1 & Hrun & Hfresh & Hne & _ & _ & H1 & H2).
    exists cc, w1. repeat split; done.
  - intros w'. assert (Hw' : disabled_at cfg l (heap w')).
    2:{ split; [exact Hw' | now apply (disabled_read cfg l)]. }
    subst w'. unfold transcribe_audio_chunked, chunked_prelude, resolve_config.
    rewrite Hcfg, Hfmt, Hm, Hnew.
    rewrite !bind_run. cbn [ret lift].
    set (tid := take 8 _).
    eapply grows_disabled;
      [apply (snd_catch_grows _ _ _
                (steady_on_chunked_exception (audio_path a)))|].
    unfold chunked_body. cbv zeta. rewrite Hdur, Hsplit.
    rewrite bind_run. cbn [lift].
    repeat (rewrite bind_run; cbn [publish lift]).
    set (w0 := {| events := _ |}).
    assert (Hh0 : heap w0 = heap w) by reflexivity.
    clearbody w0.
    eapply grows_disabled.
    { apply (snd_bind_grows _ _ _
               (fun acc => steady_after_loop E a cfg fmt m (c :: chunks) acc)). }
    cbn [chunk_loop]. rewrite bind_run.
    destruct (announce R 0 (length (c :: chunks)) c tid w0)
      as [[[]|e] wa] eqn:Ha.
    2:{ unfold announce in Ha. rewrite !bind_run in Ha. discriminate. }
    assert (Hha : heap wa = heap w).
    { unfold announce in Ha. rewrite !bind_run in Ha. cbn [publish] in Ha.
      injection Ha as <-. exact Hh0. }
    rewrite <- Hha in Hd, Hl.
    destruct (disable_chunking_shares cfg l wa d dl Hd Hc Hl)
      as (cc & wd & Hrun & _ & _ & _ & _ & Hdis & _).
    eapply grows_disabled; [|exact Hdis].
    rewrite bind_run, Hrun.
    match goal with
    | |- grows wd (snd (bind ?inner ?k wd)) =>
        apply (steady_bind inner k)
    end.
    + apply steady_inner.
    + intros cr. apply steady_bind; [apply steady_collect|].
      intros acc. apply steady_chunk_loop.
Qed.

(** *** The recursion is cut by the configuration *)

Lemma steady_run {A} (m : M A) w r w1 :
  steady m -> m w = (r, w1) -> grows w w1.
Proof. intros Hm Hr. specialize (Hm w). now rewrite Hr in Hm. Qed.

(** Under a configuration that reads as chunking disabled, the statements
    before the [try] never lead to [transcribe_audio_chunked]. *)
Lemma prelude_never_dispatches E a w cfg l a' w' :
  config a = Some cfg -> disabled_at cfg l (heap w) ->
  prelude R E a w <> (Ok (Dispatch a'), w').
Proof.
  intros Hc Hdis H. unfold prelude, resolve_config in H. rewrite Hc in H.
  apply bind_ok_inv in H as (c0 & w1 & [= <- <-] & H).
  apply bind_ok_inv in H as (fmt & w2 & [_ ->]%lift_inv & H).
  apply bind_ok_inv in H as (m & w3 & [_ ->]%lift_inv & H).
  destruct (negb (exists_audio E (audio_path a))); [discriminate|].
  apply bind_ok_inv in H as (conv & w4 & Hconv & H).
  apply (steady_run _ _ _ _ (steady_convert_opus R E _ _ _)) in Hconv.
  apply (grows_disabled cfg l _ _ Hconv) in Hdis.
  destruct conv as [r|p]; [discriminate|].
  apply bind_ok_inv in H as ([] & w5 & Hp & H).
  apply (steady_run _ _ _ _ (steady_publish _ _)) in Hp.
  apply (grows_disabled cfg l _ _ Hp) in Hdis.
  apply bind_ok_inv in H as (v & w6 & Hv & H).
  rewrite (disabled_read cfg l w5 Hdis) in Hv. injection Hv as <- <-.
  apply bind_ok_inv in H as ([] & w7 & _ & H).
  apply bind_ok_inv in H as (en & w8 & Ht & H).
  injection Ht as <- <-.
  apply bind_ok_inv in H as (ch & w9 & [= <- <-] & H).
  cbn iota in H.
  match type of H with
  | ?c _ = _ =>
      assert (Hc' : ensures (fun s => s <> Dispatch a') c)
        by (apply ensures_bind; intros o; repeat ensures_step; discriminate)
  end.
  now apply Hc' in H.
Qed.

(** So the function that stands for [transcribe_audio_chunked] in the call
    that transcribes a chunk is never called: with any other in its place
    the call does the same. *)
Lemma inner_never_chunks chunked E a w cfg l :
  config a = Some cfg -> disabled_at cfg l (heap w) ->
  transcribe_audio_with R chunked E a w
  = transcribe_audio_with R too_deep E a w.
Proof.
  intros Hc Hdis. unfold transcribe_audio_with. rewrite !bind_run.
  destruct (prelude R E a w) as [[[r|a'|]|e] w1] eqn:Hp; try reflexivity.
  now apply (prelude_never_dispatches E a w cfg l a' w1) in Hp.
Qed.

End Chunks.

(** *** The three-chunk job of the specification *)

Definition talk : args := Sample.request (lit "/in/talk.wav") (lit "json").

Definition turbo : WhisperModel := {| model_value := lit "large-v3-turbo" |}.

Lemma chunk_failure_tolerated_witness :
  let run := chunked_body Sample.posix Sample.three_chunks talk 1%positive
               JSON turbo
               (take 8 (uuid_first (base Sample.three_chunks)))
               Sample.configured in
  exists r,
    fst run = Ok r
    /\ transcribe_audio_chunked Sample.posix Sample.three_chunks talk
         Sample.configured = (Ok r, snd run)
    /\ success r = true
    /\ text r = Some (lit "a storm is coming tonight ")
    /\ chunk_failed_event 2
         (Some (lit "Audio file not found: /out/temp/chunks/chunk_001.wav"))
       ∈ events (snd run).
Proof.
  intros run. destruct run as [[r|e] w'] eqn:Hrun; subst run.
  - exists r.
    destruct (chunk_failure_tolerated Sample.posix Sample.three_chunks talk
                Sample.configured Sample.configured 1%positive JSON turbo
                r w' eq_refl Hrun)
      as (Hjob & _ & chunks & acc & merged & evs & w2 & w3 & _ & _ & _ & _
          & _ & Hs & _ & _ & _ & _).
    split; [reflexivity|]. split; [exact Hjob|]. split; [exact Hs|].
    vm_compute in Hrun. injection Hrun as <- <-.
    split; [reflexivity|]. vm_compute.
    repeat first [apply list_elem_of_here | apply list_elem_of_further].
  - vm_compute in Hrun. discriminate.
Defined.

Lemma chunk_segments_are_lost_witness :
  let run := transcribe_audio_chunked Sample.posix Sample.three_chunks talk
               Sample.configured in
  exists r,
    fst run = Ok r /\ success r = true /\ segments r = Some []
    /\ effects (snd run) !! 1%nat
       = Some (WriteJson (lit "/out/temp/chunks/chunk_000.wav.json")
                 (lit "a storm is")
                 [whole_text_segment (lit "a storm is")] None)
    /\ effects (snd run) !! 4%nat
       = Some (WriteJson (lit "/out/temp/chunks/chunk_002.wav.json")
                 (lit "coming tonight")
                 [whole_text_segment (lit "coming tonight")] None)
    /\ effects (snd run) !! 6%nat
       = Some (WriteJson (lit "/in/talk.wav.json")
                 (lit "a storm is coming tonight ") [] (Some 3%nat)).
Proof.
  intros run. destruct run as [[r|e] w'] eqn:Hrun; subst run.
  - exists r.
    assert (Hs : success r = true).
    { vm_compute in Hrun. now injection Hrun as <- _. }
    destruct (chunk_segments_are_lost Sample.posix Sample.three_chunks talk
                Sample.configured r w' Hrun Hs) as [Hseg _].
    split; [reflexivity|]. split; [exact Hs|]. split; [exact Hseg|].
    vm_compute in Hrun. injection Hrun as _ <-.
    repeat split; vm_compute; reflexivity.
  - vm_compute in Hrun. discriminate.
Defined.

Lemma chunking_stays_disabled_witness :
  Sample.configured.(heap) !! 2%positive
  = Some {[ "enabled"%string := VBool true;
            "max_duration_minutes"%string := VNum (NInt 20) ]}
  /\ let w' := snd (transcribe_audio_chunked Sample.posix Sample.three_chunks
                      talk Sample.configured) in
     disabled_at 1 2 (heap w')
     /\ py_get2 (VRef 1) "chunking" "enabled" (VBool true) w'
        = (Ok (VBool false), w').
Proof.
  split; [vm_compute; reflexivity|].
  refine (proj2 (chunking_stays_disabled Sample.posix Sample.three_chunks talk
                   Sample.configured 1%positive 2%positive
                   {[ "chunking"%string := VRef 2; "output"%string := VRef 3 ]}
                   {[ "enabled"%string := VBool true;
                      "max_duration_minutes"%string := VNum (NInt 20) ]}
                   JSON turbo (NInt 3600) _ _
                   eq_refl _ _ _ eq_refl eq_refl eq_refl eq_refl eq_refl));
    vm_compute; reflexivity.
Defined.

End Facts.

(** ** The cue segmenter *)

Module Cue.

Local Open Scope Q_scope.

(** Modelled from the spec: [AudioSegment] of the specification's data
    model, a text with its time span in seconds.  A time is the rational it
    denotes; the rounding of floating-point arithmetic is left out. *)
Record AudioSegment := { seg_text : str; seg_start : Q; seg_end : Q }.

(** Modelled from the spec: [Cue], one timed subtitle entry. *)
Record Cue := { cue_text : str; cue_start : Q; cue_end : Q }.

(** Modelled from the spec: the word sequence of a text, its maximal runs
    of characters that are not whitespace.  [cur] is the run being read. *)
Fixpoint split_from (cur t : str) : list str :=
  match t with
  | [] => match cur with [] => [] | _ => [cur] end
  | c :: t' =>
      if isspace c then
        match cur with
        | [] => split_from [] t'
        | _ => cur :: split_from [] t'
        end
      else split_from (cur ++ [c]) t'
  end.

Definition words (t : str) : list str := split_from [] t.

(** Modelled from the spec: the text of a cue, its words with one space
    between neighbours. *)
Fixpoint unwords (ws : list str) : str :=
  match ws with
  | [] => []
  | w :: ws' =>
      match ws' with
      | [] => w
      | _ => w ++ 32%N :: unwords ws'
      end
  end.

(** A word with the time span given to it. *)
Record timed := { word : str; word_start : Q; word_end : Q }.

(** Modelled from the spec: an [AudioSegment] has no word-level timestamps,
    so the segmenter interpolates.  The [k]-th of [n] word boundaries of a
    segment lies at the [k/n]-th part of its span. *)
Definition boundary (s : AudioSegment) (n : positive) (k : nat) : Q :=
  seg_start s + (Z.of_nat k # n) * (seg_end s - seg_start s).

Fixpoint spread_from (s : AudioSegment) (n : positive) (k : nat)
    (ws : list str) : list timed :=
  match ws with
  | [] => []
  | w :: ws' =>
      {| word := w; word_start := boundary s n k;
         word_end := boundary s n (S k) |}
      :: spread_from s n (S k) ws'
  end.

Definition spread (s : AudioSegment) : list timed :=
  let ws := words (seg_text s) in
  spread_from s (Pos.of_nat (length ws)) 0 ws.

(** The cue being accumulated: its words so far, the start of the first
    and the end of the last. *)
Record open_cue := { held : list str; since : Q; until : Q }.

Definition open_with (w : timed) : open_cue :=
  {| held := [word w]; since := word_start w; until := word_end w |}.

Definition extend (cur : open_cue) (w : timed) : open_cue :=
  {| held := held cur ++ [word w]; since := since cur;
     until := word_end w |}.

(** Modelled from the spec: every way to cut a text in two at one of its
    spaces, the space left out. *)
Fixpoint cuts (before t : str) : list (str * str) :=
  match t with
  | [] => []
  | c :: t' =>
      (if (c =? 32)%N then [(before, t')] else [])
      ++ cuts (before ++ [c]) t'
  end.

(** By how much the two lines of a cut differ in length. *)
Definition lopsided (p : str * str) : nat :=
  (length p.1 - length p.2) + (length p.2 - length p.1).

Fixpoint most_balanced (best : str * str) (ps : list (str * str))
    : str * str :=
  match ps with
  | [] => best
  | p :: ps' =>
      most_balanced (if (lopsided p <? lopsided best)%nat then p else best)
        ps'
  end.

(** Modelled from the spec: the text in two visually balanced lines, broken
    at the space nearest to its middle; a text without a space stays one
    line. *)
Definition balance (t : str) : str :=
  match cuts [] t with
  | [] => t
  | p :: ps => let '(a, b) := most_balanced p ps in a ++ 10%N :: b
  end.

(** Modelled from the spec: with [linebreaks], a closed cue whose text is
    longer than half of [max_chars] is set in two lines. *)
Definition wrapped (linebreaks : bool) (max_chars : Z) (t : str) : str :=
  if linebreaks && (max_chars <? 2 * Z.of_nat (length t))%Z
  then balance t else t.

Section Segmenter.

Variables (max_chars : Z) (max_duration : Q) (linebreaks : bool).

(** Modelled from the spec: a cue is closed with the words it holds; its
    end is the end of the last word included. *)
Definition close (cur : open_cue) : Cue :=
  {| cue_text := wrapped linebreaks max_chars (unwords (held cur));
     cue_start := since cur; cue_end := until cur |}.

(** Modelled from the spec: the two bounds, asked of the cue as it would be
    with the next word. *)
Definition fits (cur : open_cue) : bool :=
  (Z.of_nat (length (unwords (held cur))) <=? max_chars)%Z
  && Qle_bool (until cur - since cur) max_duration.

(** Modelled from the spec: the walk over the words.  The next word joins
    the current cue while both bounds hold; when either would be exceeded
    the current cue is closed and a new one starts at the next word. *)
Fixpoint fill (cur : open_cue) (ws : list timed) : list Cue :=
  match ws with
  | [] => [close cur]
  | w :: ws' =>
      if fits (extend cur w) then fill (extend cur w) ws'
      else close cur :: fill (open_with w) ws'
  end.

Definition cues (ws : list timed) : list Cue :=
  match ws with
  | [] => []
  | w :: ws' => fill (open_with w) ws'
  end.

(** Modelled from the spec: the cue segmenter on time-coded segments
    ([segments_to_srt] of [output_formatter.py], which is not among the
    sources, up to the rendering of the cues as text).  The cues are
    numbered from 1. *)
Definition segments_to_cues (segs : list AudioSegment) : list (nat * Cue) :=
  let cs := cues (flat_map spread segs) in
  zip (seq 1 (length cs)) cs.

(** The properties the specification states of the cues. *)
Definition bounded (c : Cue) : Prop :=
  (Z.of_nat (length (cue_text c)) <= max_chars)%Z
  /\ cue_end c - cue_start c <= max_duration.

End Segmenter.

(** Time-ordered and non-overlapping: no span is reversed and each ends
    before the next starts. *)
Definition ordered_by {A} (lo hi : A -> Q) (xs : list A) : Prop :=
  Forall (fun x => lo x <= hi x) xs
  /\ forall i x y, xs !! i = Some x -> xs !! S i = Some y -> hi x <= lo y.

Definition time_ordered : list Cue -> Prop := ordered_by cue_start cue_end.

Definition in_time_order : list AudioSegment -> Prop :=
  ordered_by seg_start seg_end.

Definition from_one (ncs : list (nat * Cue)) : Prop :=
  ncs.*1 = seq 1 (length ncs).

Definition verbatim (segs : list AudioSegment) (cs : list Cue) : Prop :=
  flat_map (fun c => words (cue_text c)) cs
  = flat_map (fun s => words (seg_text s)) segs.

(** The claim of the specification, for one input. *)
Definition as_stated (max_chars : Z) (max_duration : Q) (linebreaks : bool)
    (segs : list AudioSegment) : Prop :=
  let ncs := segments_to_cues max_chars max_duration linebreaks segs in
  Forall (bounded max_chars max_duration) ncs.*2
  /\ time_ordered ncs.*2 /\ from_one ncs /\ verbatim segs ncs.*2.

Definition one_word (c : Cue) : Prop := length (words (cue_text c)) = 1%nat.

(** *** Words and texts *)

(** What a word is: some characters, none of them whitespace. *)
Definition solid (w : str) : Prop :=
  w <> [] /\ Forall (fun c => isspace c = false) w.

Lemma split_from_run w : forall cur rest,
  Forall (fun c => isspace c = false) w ->
  split_from cur (w ++ rest) = split_from (cur ++ w) rest.
Proof.
  induction w as [|c w IH]; intros cur rest Hw; simpl.
  - now rewrite app_nil_r.
  - apply Forall_cons in Hw as [Hc Hw]. rewrite Hc, IH by exact Hw.
    now rewrite <- app_assoc.
Qed.

Lemma words_unwords ws : Forall solid ws -> words (unwords ws) = ws.
Proof.
  unfold words. induction ws as [|w ws IH]; intros Hs; [reflexivity|].
  apply Forall_cons in Hs as [[Hne Hw] Hs]. simpl.
  destruct ws as [|w' ws].
  - rewrite <- (app_nil_r w) at 1. rewrite split_from_run by exact Hw.
    simpl. now destruct w.
  - rewrite split_from_run by exact Hw. cbn [app split_from].
    change (isspace 32) with true. cbn iota.
    rewrite IH by exact Hs. now destruct w.
Qed.

Lemma split_from_solid t : forall cur,
  Forall (fun c => isspace c = false) cur -> Forall solid (split_from cur t).
Proof.
  induction t as [|c t IH]; intros cur Hcur; simpl.
  - destruct cur; [constructor|]. constructor; [now split | constructor].
  - destruct (isspace c) eqn:Hc.
    + destruct cur; [now apply IH|].
      constructor; [now split | now apply IH].
    + apply IH. apply Forall_app; split; [exact Hcur | now repeat constructor].
Qed.

Lemma words_solid t : Forall solid (words t).
Proof. now apply split_from_solid. Qed.

(** Which whitespace character separates two words makes no difference to
    the word sequence. *)
Lemma split_from_separator a : forall cur c c' b,
  isspace c = true -> isspace c' = true ->
  split_from cur (a ++ c :: b) = split_from cur (a ++ c' :: b).
Proof.
  induction a as [|x a IH]; intros cur c c' b Hc Hc'; simpl.
  - now rewrite Hc, Hc'.
  - destruct (isspace x); [|now apply IH].
    destruct cur; [now apply IH | f_equal; now apply IH].
Qed.

Lemma cuts_spec t : forall before a b,
  (a, b) ∈ cuts before t -> before ++ t = a ++ 32%N :: b.
Proof.
  induction t as [|c t IH]; intros before a b Hin; simpl in Hin.
  - now apply elem_of_nil in Hin.
  - apply elem_of_app in Hin as [Hin|Hin].
    + destruct (c =? 32)%N eqn:Hc; [|now apply elem_of_nil in Hin].
      apply N.eqb_eq in Hc as ->.
      now apply list_elem_of_singleton in Hin as [= -> ->].
    + apply IH in Hin. now rewrite <- app_assoc in Hin.
Qed.

Lemma most_balanced_in ps : forall best, most_balanced best ps ∈ best :: ps.
Proof.
  induction ps as [|p ps IH]; intros best; simpl; [left|].
  specialize (IH (if (lopsided p <? lopsided best)%nat then p else best)).
  apply elem_of_cons in IH as [->|IH].
  - destruct (lopsided p <? lopsided best)%nat; [right; left | left].
  - now do 2 right.
Qed.

(** Setting a text in two lines replaces one of its spaces by a line
    break, and nothing else. *)
Lemma balance_spec t :
  balance t = t
  \/ exists a b, t = a ++ 32%N :: b /\ balance t = a ++ 10%N :: b.
Proof.
  unfold balance. destruct (cuts [] t) as [|p ps] eqn:Hc; [now left|].
  right. pose proof (most_balanced_in ps p) as Hin. rewrite <- Hc in Hin.
  destruct (most_balanced p ps) as [a b]. exists a, b.
  split; [|reflexivity]. now apply cuts_spec in Hin.
Qed.

Lemma length_wrapped lb mc t : length (wrapped lb mc t) = length t.
Proof.
  unfold wrapped. destruct (lb && _); [|reflexivity].
  destruct (balance_spec t) as [->|(a & b & Ht & ->)]; [reflexivity|].
  rewrite Ht. now rewrite !length_app.
Qed.

Lemma words_wrapped lb mc t : words (wrapped lb mc t) = words t.
Proof.
  unfold wrapped. destruct (lb && _); [|reflexivity].
  destruct (balance_spec t) as [->|(a & b & Ht & ->)]; [reflexivity|].
  rewrite Ht. now apply split_from_separator.
Qed.

(** *** Spans in a row *)

Section Chain.

Context {A : Type} (lo hi : A -> Q).

(** The spans of [xs] follow one another inside the stretch from [f] to
    [g]. *)
Fixpoint chain (f : Q) (xs : list A) (g : Q) : Prop :=
  match xs with
  | [] => f <= g
  | x :: xs' => f <= lo x /\ lo x <= hi x /\ chain (hi x) xs' g
  end.

Lemma chain_earlier f f' xs g : f' <= f -> chain f xs g -> chain f' xs g.
Proof.
  destruct xs; simpl; [lra|]. intros Hf (H1 & H2 & H3).
  split; [lra|]. now split.
Qed.

Lemma chain_later xs : forall f g g',
  g <= g' -> chain f xs g -> chain f xs g'.
Proof.
  induction xs as [|x xs IH]; intros f g g' Hg; simpl; [lra|].
  intros (H1 & H2 & H3). split; [exact H1|]. split; [exact H2|].
  now apply IH with g.
Qed.

Lemma chain_app xs : forall f m ys g,
  chain f xs m -> chain m ys g -> chain f (xs ++ ys) g.
Proof.
  induction xs as [|x xs IH]; intros f m ys g Hx Hy; simpl in *.
  - now apply chain_earlier with m.
  - destruct Hx as (H1 & H2 & H3). split; [exact H1|].
    split; [exact H2|]. now apply IH with m.
Qed.

Lemma chain_ordered xs : forall f g, chain f xs g -> ordered_by lo hi xs.
Proof.
  induction xs as [|x xs IH]; intros f g Hc.
  - split; [constructor|]. intros i x y Hx. now rewrite lookup_nil in Hx.
  - destruct Hc as (H1 & H2 & H3). destruct (IH _ _ H3) as [Hall Hadj].
    split; [now constructor|].
    intros [|i] a b Ha Hb; simpl in *.
    + injection Ha as <-. destruct xs as [|y xs]; [discriminate|].
      injection Hb as <-. now destruct H3.
    + now apply (Hadj i).
Qed.

Lemma ordered_chain xs : ordered_by lo hi xs -> exists f g, chain f xs g.
Proof.
  induction xs as [|x xs IH]; intros [Hall Hadj].
  - exists 0, 0. simpl. lra.
  - apply Forall_cons in Hall as [Hx Hall].
    destruct IH as (f & g & Hc).
    { split; [exact Hall|]. intros i a b. apply (Hadj (S i)). }
    destruct xs as [|y xs].
    + exists (lo x), (hi x). simpl. repeat split; lra.
    + exists (lo x), g. destruct Hc as (_ & H2 & H3).
      pose proof (Hadj 0%nat x y eq_refl eq_refl).
      simpl. repeat split; try lra. exact H3.
Qed.

End Chain.

(** *** The interpolated words of a segment *)

Lemma boundary_step s n k :
  seg_start s <= seg_end s -> boundary s n k <= boundary s n (S k).
Proof.
  intros Hs. unfold boundary.
  assert (Hk : (Z.of_nat k # n) <= (Z.of_nat (S k) # n)).
  { unfold Qle. simpl. nia. }
  assert (Hd : 0 <= seg_end s - seg_start s) by lra.
  pose proof (Qmult_le_compat_r _ _ _ Hk Hd). lra.
Qed.

Lemma boundary_first s n : boundary s n 0 == seg_start s.
Proof.
  unfold boundary. assert (H0 : (Z.of_nat 0 # n) == 0) by reflexivity.
  rewrite H0. ring.
Qed.

Lemma boundary_last s k :
  boundary s (Pos.of_nat (S k)) (S k) == seg_end s.
Proof.
  unfold boundary.
  assert (H1 : (Z.of_nat (S k) # Pos.of_nat (S k)) == 1).
  { unfold Qeq. simpl. lia. }
  rewrite H1. ring.
Qed.

Lemma spread_from_chain s n ws : forall k,
  seg_start s <= seg_end s ->
  chain word_start word_end (boundary s n k) (spread_from s n k ws)
    (boundary s n (k + length ws)).
Proof.
  induction ws as [|w ws IH]; intros k Hs; simpl.
  - rewrite Nat.add_0_r. lra.
  - split; [lra|]. split; [now apply boundary_step|].
    rewrite Nat.add_succ_r. now apply (IH (S k)).
Qed.

Lemma spread_chain s :
  seg_start s <= seg_end s ->
  chain word_start word_end (seg_start s) (spread s) (seg_end s).
Proof.
  intros Hs. unfold spread. destruct (words (seg_text s)) as [|w ws] eqn:Hw.
  - exact Hs.
  - set (n := Pos.of_nat (length (w :: ws))).
    apply chain_earlier with (boundary s n 0).
    { pose proof (boundary_first s n). lra. }
    apply chain_later with (boundary s n (0 + length (w :: ws))).
    { pose proof (boundary_last s (length ws)). subst n. simpl in *. lra. }
    now apply spread_from_chain.
Qed.

Lemma spread_from_words s n ws : forall k,
  map word (spread_from s n k ws) = ws.
Proof. induction ws as [|w ws IH]; intros k; simpl; [|rewrite IH]; done. Qed.

Lemma spread_words s : map word (spread s) = words (seg_text s).
Proof. apply spread_from_words. Qed.

Lemma segments_chain segs : forall f g,
  chain seg_start seg_end f segs g ->
  chain word_start word_end f (flat_map spread segs) g.
Proof.
  induction segs as [|s segs IH]; intros f g Hc; simpl in *; [exact Hc|].
  destruct Hc as (H1 & H2 & H3).
  apply chain_app with (seg_end s); [|now apply IH].
  apply chain_earlier with (seg_start s); [exact H1|].
  now apply spread_chain.
Qed.

Lemma segments_words segs :
  map word (flat_map spread segs)
  = flat_map (fun s => words (seg_text s)) segs.
Proof.
  induction segs as [|s segs IH]; [reflexivity|]. simpl.
  now rewrite map_app, spread_words, IH.
Qed.

(** *** The walk *)

Section Walk.

Variables (max_chars : Z) (max_duration : Q) (linebreaks : bool).

Local Abbreviation close := (close max_chars linebreaks).
Local Abbreviation fits := (fits max_chars max_duration).
Local Abbreviation fill := (fill max_chars max_duration linebreaks).
Local Abbreviation cues := (cues max_chars max_duration linebreaks).
Local Abbreviation bounded := (bounded max_chars max_duration).

Lemma fill_nil cur : fill cur [] = [close cur].
Proof. reflexivity. Qed.

Lemma fill_cons cur w ws :
  fill cur (w :: ws)
  = if fits (extend cur w) then fill (extend cur w) ws
    else close cur :: fill (open_with w) ws.
Proof. reflexivity. Qed.

Lemma fill_chain ws : forall cur g,
  since cur <= until cur ->
  chain word_start word_end (until cur) ws g ->
  chain cue_start cue_end (since cur) (fill cur ws) g.
Proof.
  induction ws as [|w ws IH]; intros cur g Hcur Hw.
  - rewrite fill_nil. simpl in *. split; [lra|]. now split.
  - destruct Hw as (H1 & H2 & H3). rewrite fill_cons.
    destruct (fits (extend cur w)).
    + apply (IH (extend cur w)); simpl; [lra | exact H3].
    + split; [simpl; lra|]. split; [exact Hcur|].
      apply chain_earlier with (word_start w); [exact H1|].
      now apply (IH (open_with w)).
Qed.

Lemma cues_chain ws f g :
  chain word_start word_end f ws g -> chain cue_start cue_end f (cues ws) g.
Proof.
  destruct ws as [|w ws]; [done|]. intros (H1 & H2 & H3).
  apply chain_earlier with (word_start w); [exact H1|].
  now apply (fill_chain ws (open_with w)).
Qed.

Lemma close_words cur :
  Forall solid (held cur) -> words (cue_text (close cur)) = held cur.
Proof.
  intros Hs. unfold Cue.close. cbn [cue_text].
  now rewrite words_wrapped, words_unwords.
Qed.

Lemma fits_bounded cur : fits cur = true -> bounded (close cur).
Proof.
  unfold Cue.fits, Cue.bounded, Cue.close. cbn [cue_text cue_start cue_end].
  intros [Hc Hd]%andb_prop. rewrite length_wrapped.
  split; [now apply Z.leb_le | now apply Qle_bool_iff].
Qed.

Lemma open_one_word w : solid (word w) -> one_word (close (open_with w)).
Proof.
  intros Hw. unfold one_word. rewrite close_words; [reflexivity|].
  now apply Forall_singleton.
Qed.

Lemma extend_solid cur w :
  Forall solid (held cur) -> solid (word w) ->
  Forall solid (held (extend cur w)).
Proof.
  intros Hh Hw. apply Forall_app. split; [exact Hh|].
  now apply Forall_singleton.
Qed.

Lemma fill_bounds ws : forall cur,
  Forall solid (held cur) -> Forall solid (map word ws) ->
  one_word (close cur) \/ bounded (close cur) ->
  Forall (fun c => one_word c \/ bounded c) (fill cur ws).
Proof.
  induction ws as [|w ws IH]; intros cur Hh Hw Hcur.
  - rewrite fill_nil. now apply Forall_singleton.
  - apply Forall_cons in Hw as [Hw Hws]. rewrite fill_cons.
    destruct (fits (extend cur w)) eqn:Hf.
    + apply (IH (extend cur w));
        [now apply extend_solid | exact Hws | right; now apply fits_bounded].
    + constructor; [exact Hcur|].
      apply (IH (open_with w));
        [now apply Forall_singleton | exact Hws | left].
      now apply open_one_word.
Qed.

Lemma fill_words ws : forall cur,
  Forall solid (held cur) -> Forall solid (map word ws) ->
  flat_map (fun c => words (cue_text c)) (fill cur ws)
  = held cur ++ map word ws.
Proof.
  induction ws as [|w ws IH]; intros cur Hh Hw.
  - rewrite fill_nil. cbn [flat_map map].
    now rewrite close_words, !app_nil_r.
  - apply Forall_cons in Hw as [Hw Hws]. rewrite fill_cons.
    destruct (fits (extend cur w)).
    + rewrite (IH (extend cur w)); [|now apply extend_solid|exact Hws].
      cbn [held extend map]. now rewrite <- app_assoc.
    + cbn [flat_map map]. rewrite close_words by exact Hh. f_equal.
      rewrite (IH (open_with w)); [reflexivity| |exact Hws].
      now apply Forall_singleton.
Qed.

Lemma cues_bounds ws :
  Forall solid (map word ws) ->
  Forall (fun c => one_word c \/ bounded c) (cues ws).
Proof.
  destruct ws as [|w ws]; [constructor|]. intros [Hw Hws]%Forall_cons.
  apply (fill_bounds ws (open_with w));
    [now apply Forall_singleton | exact Hws | left].
  now apply open_one_word.
Qed.

Lemma cues_words ws :
  Forall solid (map word ws) ->
  flat_map (fun c => words (cue_text c)) (cues ws) = map word ws.
Proof.
  destruct ws as [|w ws]; [reflexivity|]. intros [Hw Hws]%Forall_cons.
  unfold Cue.cues. rewrite (fill_words ws (open_with w));
    [reflexivity| |exact Hws].
  now apply Forall_singleton.
Qed.

End Walk.

Lemma spread_solid segs : Forall solid (map word (flat_map spread segs)).
Proof.
  rewrite segments_words. induction segs as [|s segs IH]; [constructor|].
  simpl. apply Forall_app. split; [apply words_solid | exact IH].
Qed.

(** The example of the specification: one segment of two seconds with two
    words and a bound of a second and a half gives two cues. *)
Definition hello_world : AudioSegment :=
  {| seg_text := lit "Hello world"; seg_start := 0; seg_end := 2 |}.

Example hello_world_splits :
  map (fun nc => (nc.1, cue_text nc.2))
    (segments_to_cues 40 (3 # 2) false [hello_world])
  = [(1%nat, lit "Hello"); (2%nat, lit "world")].
Proof. reflexivity. Qed.

(** A word of 34 letters, spoken in two seconds, and a segment that holds
    nothing else. *)
Definition steamship : AudioSegment :=
  {| seg_text := lit "Donaudampfschifffahrtsgesellschaft";
     seg_start := 0; seg_end := 2 |}.

(** Two segments, the later one listed first. *)
Definition answer_first : list AudioSegment :=
  [ {| seg_text := lit "Fine thanks and you"; seg_start := 5; seg_end := 6 |};
    {| seg_text := lit "How are you today"; seg_start := 3; seg_end := 4 |} ].



(** Three segments in time order, the last one a long word. *)
Definition forecast : list AudioSegment :=
  [ {| seg_text := lit "A storm is coming tonight";
       seg_start := 0; seg_end := 3 |};
    {| seg_text := lit "stay inside and keep the windows closed";
       seg_start := 3; seg_end := 7 |};
    {| seg_text := lit "Donaudampfschifffahrtsgesellschaft";
       seg_start := 8; seg_end := 9 |} ].

Example forecast_cues :
  map (fun nc => (nc.1, cue_text nc.2))
    (segments_to_cues 20 (5 # 2) true forecast)
  = [(1%nat, lit "A storm" ++ [10%N] ++ lit "is coming");
     (2%nat, lit "tonight" ++ [10%N] ++ lit "stay inside");
     (3%nat, lit "and keep" ++ [10%N] ++ lit "the windows");
     (4%nat, lit "closed");
     (5%nat, lit "Donaudampfschifffahrtsgesellschaft")].
Proof. vm_compute. reflexivity. Qed.


End Cue.

(** ** Finding the project directory: [find_project_root] *)

Module ProjectRoot.

Import Run.
Local Open Scope nat_scope.

(** The separator of [posixpath]. *)
Definition sep : N := 47.

Definition is_sep (c : N) : bool := (c =? sep)%N.

(** [p[:p.rfind('/') + 1]]: [p] up to and including its last separator,
    empty when it has none. *)
Fixpoint upto_last_sep (p : str) : str :=
  match p with
  | [] => []
  | c :: p' =>
      match upto_last_sep p' with
      | [] => if is_sep c then [c] else []
      | h => c :: h
      end
  end.

(** [s.rstrip('/')]. *)
Definition rstrip_sep (s : str) : str :=
  rev (snd (span is_sep (rev s))).

(** [posixpath.dirname]. *)
Definition dirname (p : str) : str :=
  let head := upto_last_sep p in
  match head with
  | [] => head
  | _ => if forallb is_sep head then head else rstrip_sep head
  end.

(** The loop of [find_project_root], lines 18 to 26, from the directory of
    the module's file.  The outer [option] is the fuel running out, the
    inner one is Python's [None]. *)
Fixpoint climb (fuel : nat) (current_dir : str) : option (option str) :=
  match fuel with
  | O => None
  | S fuel' =>
      match current_dir with
      | [] => Some (Some (dirname current_dir))
      | _ =>
          if ends_with (lit "src") current_dir
          then Some (Some (dirname current_dir))
          else
            let parent_dir := dirname current_dir in
            if bool_decide (parent_dir = current_dir) then Some None
            else climb fuel' parent_dir
      end
  end.

(** [find_project_root()], given [os.path.abspath(__file__)]. *)
Definition find_project_root (file : str) : option (option str) :=
  let current_dir := dirname file in
  climb (S (length current_dir)) current_dir.

(** An absolute, normalised path, by its components. *)
Definition component (c : str) : Prop :=
  c <> [] /\ Forall (fun x => is_sep x = false) c.

Definition absolute (comps : list str) : str :=
  match comps with
  | [] => [sep]
  | _ => concat (map (cons sep) comps)
  end.

(** The components down to the deepest one whose name ends in [src],
    that one left out. *)
Fixpoint above_src (comps : list str) : option (list str) :=
  match comps with
  | [] => None
  | c :: comps' =>
      match above_src comps' with
      | Some up => Some (c :: up)
      | None => if ends_with (lit "src") c then Some [] else None
      end
  end.

Example root_of_this_module :
  find_project_root
    (lit "/opt/tool/src/whisper_transcription_tool/module1_transcribe/__init__.py")
  = Some (Some (lit "/opt/tool")).
Proof. vm_compute. reflexivity. Qed.

Example root_without_src :
  find_project_root (lit "/opt/tool/lib/module1_transcribe/__init__.py")
  = Some None.
Proof. vm_compute. reflexivity. Qed.

(** *** [dirname] never grows a path *)

Lemma upto_last_sep_prefix p : exists rest, p = upto_last_sep p ++ rest.
Proof.
  induction p as [|c p [rest IH]]; [now exists []|]. simpl.
  destruct (upto_last_sep p) as [|x h] eqn:Hh.
  - destruct (is_sep c); [now exists p | now exists (c :: p)].
  - exists rest. simpl in *. congruence.
Qed.

Lemma span_sep_suffix t :
  exists rest, rev t = rev (snd (span is_sep t)) ++ rest.
Proof.
  induction t as [|c t [rest IH]]; [now exists []|]. simpl.
  destruct (is_sep c).
  - destruct (span is_sep t) as [a b]. simpl in *.
    exists (rest ++ [c]). now rewrite IH, app_assoc.
  - exists []. simpl. now rewrite app_nil_r.
Qed.

Lemma rstrip_sep_prefix s : exists rest, s = rstrip_sep s ++ rest.
Proof.
  unfold rstrip_sep. destruct (span_sep_suffix (rev s)) as [rest H].
  exists rest. now rewrite rev_involutive in H.
Qed.

Lemma dirname_prefix p : exists rest, p = dirname p ++ rest.
Proof.
  unfold dirname. destruct (upto_last_sep_prefix p) as [r1 H1].
  destruct (upto_last_sep p) as [|x h] eqn:Hh; [now exists p|].
  destruct (forallb is_sep (x :: h)); [now exists r1|].
  destruct (rstrip_sep_prefix (x :: h)) as [r2 H2].
  exists (r2 ++ r1). rewrite app_assoc, <- H2. exact H1.
Qed.

Lemma dirname_shorter p : dirname p <> p -> length (dirname p) < length p.
Proof.
  destruct (dirname_prefix p) as [rest H]. intros Hne.
  destruct rest as [|c rest].
  - rewrite app_nil_r in H. now symmetry in H.
  - rewrite H at 2. rewrite length_app. simpl. lia.
Qed.

Lemma climb_enough fuel : forall p,
  length p < fuel -> exists r, climb fuel p = Some r.
Proof.
  induction fuel as [|fuel IH]; intros p Hlen; [lia|]. simpl.
  destruct p as [|c p]; [eauto|].
  destruct (ends_with (lit "src") (c :: p)); [eauto|].
  destruct (bool_decide (dirname (c :: p) = c :: p)) eqn:Hd; [eauto|].
  apply bool_decide_eq_false in Hd. apply IH.
  apply dirname_shorter in Hd. lia.
Qed.

(** X1.  [find_project_root] returns for every path of the module's file,
    also a relative one or one that is not normalised: the directory it
    looks at gets shorter with every round of the loop. *)
Theorem find_project_root_returns (file : str) :
  exists r, find_project_root file = Some r.
Proof. apply climb_enough. lia. Qed.

(** *** Normalised absolute paths *)

Lemma upto_last_sep_none c :
  Forall (fun x => is_sep x = false) c -> upto_last_sep c = [].
Proof.
  induction c as [|x c IH]; intros Hc; [reflexivity|].
  apply Forall_cons in Hc as [Hx Hc]. simpl. now rewrite IH, Hx.
Qed.

Lemma upto_last_sep_last X c :
  Forall (fun x => is_sep x = false) c ->
  upto_last_sep (X ++ sep :: c) = X ++ [sep].
Proof.
  intros Hc. induction X as [|x X IH]; simpl.
  - now rewrite upto_last_sep_none.
  - rewrite IH. now destruct X.
Qed.

Lemma rstrip_sep_one Y y :
  is_sep y = false -> rstrip_sep ((Y ++ [y]) ++ [sep]) = Y ++ [y].
Proof.
  intros Hy. unfold rstrip_sep. rewrite !rev_app_distr. simpl.
  rewrite Hy. simpl. now rewrite rev_involutive.
Qed.

Lemma forallb_sep_one Y y :
  is_sep y = false -> forallb is_sep ((Y ++ [y]) ++ [sep]) = false.
Proof.
  intros Hy. rewrite !forallb_app. simpl. rewrite Hy.
  now rewrite andb_false_r.
Qed.

(** The path of one or more components ends in a character that is not
    the separator. *)
Lemma components_end c comps :
  Forall component (c :: comps) ->
  exists Y y, concat (map (cons sep) (c :: comps)) = Y ++ [y]
              /\ is_sep y = false.
Proof.
  revert c. induction comps as [|d comps IH]; intros c Hc.
  - apply Forall_cons in Hc as [[Hne Hc] _]. simpl. rewrite app_nil_r.
    destruct (exists_last Hne) as (Y & y & ->).
    exists (sep :: Y), y. split; [reflexivity|].
    apply Forall_app in Hc as [_ Hy]. now inversion Hy.
  - apply Forall_cons in Hc as [_ Hc]. destruct (IH d Hc) as (Y & y & HY & Hy).
    exists ((sep :: c) ++ Y), y. split; [|exact Hy].
    change (concat (map (cons sep) (c :: d :: comps)))
      with ((sep :: c) ++ concat (map (cons sep) (d :: comps))).
    now rewrite HY, app_assoc.
Qed.

Lemma absolute_snoc comps c :
  absolute (comps ++ [c]) = concat (map (cons sep) comps) ++ sep :: c.
Proof.
  unfold absolute. destruct (comps ++ [c]) eqn:H.
  - now destruct comps.
  - rewrite <- H, map_app, concat_app. simpl. now rewrite app_nil_r.
Qed.

Lemma dirname_absolute comps c :
  Forall component comps -> component c ->
  dirname (absolute (comps ++ [c])) = absolute comps.
Proof.
  intros Hcomps [_ Hc]. rewrite absolute_snoc. unfold dirname.
  rewrite upto_last_sep_last by exact Hc.
  destruct comps as [|d comps]; [reflexivity|].
  destruct (components_end d comps Hcomps) as (Y & y & HY & Hy).
  unfold absolute. rewrite HY.
  rewrite forallb_sep_one, rstrip_sep_one by exact Hy.
  now destruct Y.
Qed.

Lemma starts_with_before_sep p : forall a r,
  Forall (fun x => is_sep x = false) p ->
  starts_with p (a ++ sep :: r) = starts_with p a.
Proof.
  induction p as [|x p IH]; intros a r Hp; [now destruct a|].
  apply Forall_cons in Hp as [Hx Hp]. destruct a as [|y a]; simpl.
  - unfold is_sep in Hx. now rewrite Hx.
  - now rewrite IH.
Qed.

Lemma ends_with_src_last comps c :
  ends_with (lit "src") (absolute (comps ++ [c]))
  = ends_with (lit "src") c.
Proof.
  rewrite absolute_snoc. unfold ends_with.
  rewrite rev_app_distr. simpl rev at 2. rewrite <- app_assoc. simpl app.
  apply starts_with_before_sep. now repeat constructor.
Qed.

Lemma above_src_snoc comps c :
  above_src (comps ++ [c])
  = if ends_with (lit "src") c then Some comps else above_src comps.
Proof.
  induction comps as [|x comps IH]; simpl.
  - now destruct (ends_with (lit "src") c).
  - rewrite IH. now destruct (ends_with (lit "src") c).
Qed.

Lemma absolute_length comps :
  Forall component comps -> length comps <= length (absolute comps).
Proof.
  destruct comps as [|c comps]; [simpl; lia|]. unfold absolute.
  generalize (c :: comps). clear. intros comps _.
  induction comps as [|d comps IH]; simpl; [lia|].
  rewrite length_app. lia.
Qed.

Lemma climb_absolute comps : forall fuel,
  Forall component comps -> length comps < fuel ->
  climb fuel (absolute comps) = Some (option_map absolute (above_src comps)).
Proof.
  induction comps as [|c comps IH] using rev_ind; intros fuel Hc Hf.
  - destruct fuel; [lia|]. reflexivity.
  - destruct fuel; [lia|]. apply Forall_app in Hc as [Hcomps Hc].
    apply Forall_inv in Hc. rewrite length_app in Hf. simpl in Hf.
    cbn [climb]. rewrite ends_with_src_last, above_src_snoc.
    rewrite dirname_absolute by assumption.
    assert (Hne : absolute comps <> absolute (comps ++ [c])).
    { intros Heq. apply (f_equal length) in Heq. rewrite absolute_snoc in Heq.
      rewrite length_app in Heq. simpl in Heq. destruct Hc as [Hne _].
      destruct c; [done|]. destruct comps; simpl in Heq; lia. }
    destruct (absolute (comps ++ [c])) eqn:Habs.
    { rewrite absolute_snoc in Habs. now destruct (concat _). }
    destruct (ends_with (lit "src") c); [reflexivity|].
    rewrite bool_decide_eq_false_2 by exact Hne.
    apply IH; [exact Hcomps | lia].
Qed.

(** X2.  For the normalised absolute path of the module's file,
    [find_project_root] gives the parent of the deepest directory above the
    file whose name ends in [src] (be it [src] or, say, [mysrc]), and [None]
    when there is no such directory. *)
Theorem find_project_root_parent_of_src (comps : list str) (file : str) :
  Forall component comps -> component file ->
  find_project_root (absolute (comps ++ [file]))
  = Some (option_map absolute (above_src comps)).
Proof.
  intros Hcomps Hfile. unfold find_project_root.
  rewrite dirname_absolute by assumption.
  apply climb_absolute; [exact Hcomps|].
  pose proof (absolute_length comps Hcomps). lia.
Qed.

Lemma find_project_root_parent_of_src_witness :
  find_project_root (lit "/home/me/mysrc/tool/mod.py")
  = Some (Some (lit "/home/me")).
Proof.
  refine (find_project_root_parent_of_src
            [lit "home"; lit "me"; lit "mysrc"; lit "tool"] (lit "mod.py") _ _).
  - repeat constructor; try discriminate.
  - repeat constructor; discriminate.
Defined.

End ProjectRoot.

(** ** The library search path set at import: lines 28 to 50 of the
    transcription module *)

Module LibraryPath.

Import Run.
Local Open Scope nat_scope.

Definition colon : N := 58.

(** [s.split(':')]; [cur] is the piece being read. *)
Fixpoint split_from (cur s : str) : list str :=
  match s with
  | [] => [cur]
  | c :: s' =>
      if (c =? colon)%N then cur :: split_from [] s'
      else split_from (cur ++ [c]) s'
  end.

Definition split (s : str) : list str := split_from [] s.

(** [':'.join(xs)]. *)
Fixpoint join (xs : list str) : str :=
  match xs with
  | [] => []
  | x :: xs' =>
      match xs' with
      | [] => x
      | _ => x ++ colon :: join xs'
      end
  end.

(** One round of the loop of [posixpath.join]. *)
Definition join2 (path b : str) : str :=
  if starts_with [47%N] b then b
  else match path with
       | [] => path ++ b
       | _ => if ends_with [47%N] path then path ++ b
              else path ++ 47%N :: b
       end.

(** [os.path.join(a, *p)]. *)
Definition path_join (a : str) (p : list str) : str := fold_left join2 p a.

Definition whisper_lib_paths (project_dir : str) : list str :=
  [ path_join project_dir
      [lit "deps"; lit "whisper.cpp"; lit "build"; lit "src"];
    path_join project_dir
      [lit "deps"; lit "whisper.cpp"; lit "build"; lit "ggml"; lit "src"];
    path_join project_dir
      [lit "deps"; lit "whisper.cpp"; lit "build"; lit "ggml"; lit "src";
       lit "ggml-blas"];
    path_join project_dir
      [lit "deps"; lit "whisper.cpp"; lit "build"; lit "ggml"; lit "src";
       lit "ggml-metal"] ].

(** Lines 40 to 42: the entries of [DYLD_LIBRARY_PATH], none when the
    variable is unset or empty. *)
Definition existing_paths (dyld : option str) : list str :=
  let xs := split (default [] dyld) in
  if bool_decide (xs = [[]]) then [] else xs.

(** Lines 45 to 47, for the file system [exists_]. *)
Definition add_missing (exists_ : str -> bool) (existing paths : list str)
    : list str :=
  fold_left
    (fun acc path =>
       if exists_ path && negb (bool_decide (path ∈ acc))
       then acc ++ [path] else acc)
    paths existing.

(** Lines 29 to 50: the value of [DYLD_LIBRARY_PATH] after the module is
    imported ([None]: not set), from the project directory found, the file
    system and the value before. *)
Definition set_library_path (project_dir : option str)
    (exists_ : str -> bool) (dyld : option str) : option str :=
  match project_dir with
  | Some (c :: d) =>
      Some (join (add_missing exists_ (existing_paths dyld)
                    (whisper_lib_paths (c :: d))))
  | _ => dyld
  end.

Definition colon_free (s : str) : bool :=
  forallb (fun c => negb (c =? colon)%N) s.

Example library_path_once :
  set_library_path (Some (lit "/opt/tool"))
    (fun p => bool_decide (p = lit "/opt/tool/deps/whisper.cpp/build/src"))
    (Some (lit "/usr/lib:/opt/lib"))
  = Some (lit "/usr/lib:/opt/lib:/opt/tool/deps/whisper.cpp/build/src").
Proof. vm_compute. reflexivity. Qed.

(** *** Splitting what was joined *)

Lemma split_from_piece w : forall cur rest,
  colon_free w = true ->
  split_from cur (w ++ rest) = split_from (cur ++ w) rest.
Proof.
  induction w as [|c w IH]; intros cur rest Hw; simpl.
  - now rewrite app_nil_r.
  - simpl in Hw. apply andb_prop in Hw as [Hc Hw].
    apply negb_true_iff in Hc. rewrite Hc, IH by exact Hw.
    now rewrite <- app_assoc.
Qed.

Lemma split_from_join xs : forall x cur,
  Forall (fun p => colon_free p = true) (x :: xs) ->
  split_from cur (join (x :: xs)) = (cur ++ x) :: xs.
Proof.
  induction xs as [|y xs IH]; intros x cur Hx.
  - apply Forall_inv in Hx. simpl.
    rewrite <- (app_nil_r x) at 1. now rewrite split_from_piece.
  - apply Forall_cons in Hx as [Hx Hxs].
    change (join (x :: y :: xs)) with (x ++ colon :: join (y :: xs)).
    rewrite split_from_piece by exact Hx. cbn [split_from].
    change (colon =? colon)%N with true. cbn iota.
    now rewrite IH.
Qed.

Lemma split_from_colon_free s : forall cur,
  colon_free cur = true ->
  Forall (fun p => colon_free p = true) (split_from cur s).
Proof.
  induction s as [|c s IH]; intros cur Hcur; simpl.
  - now apply Forall_singleton.
  - destruct (c =? colon)%N eqn:Hc.
    + constructor; [exact Hcur | now apply IH].
    + apply IH. unfold colon_free. rewrite forallb_app. simpl.
      rewrite Hc. simpl. now rewrite andb_true_r.
Qed.

Lemma existing_paths_colon_free dyld :
  Forall (fun p => colon_free p = true) (existing_paths dyld).
Proof.
  unfold existing_paths. destruct (bool_decide _); [constructor|].
  now apply split_from_colon_free.
Qed.

Lemma existing_paths_not_blank dyld : existing_paths dyld <> [[]].
Proof.
  unfold existing_paths. destruct (bool_decide _) eqn:H; [done|].
  now apply bool_decide_eq_false in H.
Qed.

Lemma existing_paths_join ys :
  Forall (fun p => colon_free p = true) ys -> ys <> [[]] ->
  existing_paths (Some (join ys)) = ys.
Proof.
  intros Hys Hne. unfold existing_paths, split. simpl default.
  destruct ys as [|x xs]; [reflexivity|].
  rewrite split_from_join by exact Hys. simpl.
  now rewrite bool_decide_eq_false_2.
Qed.

(** *** The loop that adds the library directories *)

Section Adding.

Variable exists_ : str -> bool.

Lemma add_missing_cons existing path paths :
  add_missing exists_ existing (path :: paths)
  = add_missing exists_
      (if exists_ path && negb (bool_decide (path ∈ existing))
       then existing ++ [path] else existing) paths.
Proof. reflexivity. Qed.

Lemma add_missing_appends paths : forall existing,
  exists added,
    add_missing exists_ existing paths = existing ++ added
    /\ NoDup added
    /\ forall p, p ∈ added ->
         p ∈ paths /\ exists_ p = true /\ p ∉ existing.
Proof.
  induction paths as [|path paths IH]; intros existing.
  - exists []. rewrite app_nil_r. split; [reflexivity|].
    split; [constructor|]. intros p Hp. now apply elem_of_nil in Hp.
  - rewrite add_missing_cons.
    destruct (exists_ path) eqn:He; simpl;
      [destruct (bool_decide (path ∈ existing)) eqn:Hin; simpl|].
    + destruct (IH existing) as (added & -> & Hnd & Hadd).
      exists added. split; [reflexivity|]. split; [exact Hnd|].
      intros p Hp. destruct (Hadd p Hp) as (H1 & H2 & H3).
      split; [now right | now split].
    + apply bool_decide_eq_false in Hin.
      destruct (IH (existing ++ [path])) as (added & -> & Hnd & Hadd).
      exists (path :: added). rewrite <- app_assoc. split; [reflexivity|].
      split.
      * constructor; [|exact Hnd]. intros Hp.
        destruct (Hadd path Hp) as (_ & _ & H3). apply H3.
        apply elem_of_app. right. now left.
      * intros p [->|Hp]%elem_of_cons.
        -- split; [now left | now split].
        -- destruct (Hadd p Hp) as (H1 & H2 & H3).
           split; [now right|]. split; [exact H2|].
           intros H. apply H3. apply elem_of_app. now left.
    + destruct (IH existing) as (added & -> & Hnd & Hadd).
      exists added. split; [reflexivity|]. split; [exact Hnd|].
      intros p Hp. destruct (Hadd p Hp) as (H1 & H2 & H3).
      split; [now right | now split].
Qed.

Lemma add_missing_keeps paths : forall existing p,
  p ∈ existing -> p ∈ add_missing exists_ existing paths.
Proof.
  intros existing p Hp.
  destruct (add_missing_appends paths existing) as (added & -> & _).
  apply elem_of_app. now left.
Qed.

Lemma add_missing_covers paths : forall existing p,
  p ∈ paths -> exists_ p = true -> p ∈ add_missing exists_ existing paths.
Proof.
  induction paths as [|path paths IH]; intros existing p Hp He.
  - now apply elem_of_nil in Hp.
  - rewrite add_missing_cons. apply elem_of_cons in Hp as [->|Hp].
    + apply add_missing_keeps. rewrite He. simpl.
      destruct (bool_decide (path ∈ existing)) eqn:Hin; simpl.
      * now apply bool_decide_eq_true in Hin.
      * apply elem_of_app. right. now left.
    + now apply IH.
Qed.

Lemma add_missing_nothing paths : forall existing,
  (forall p, p ∈ paths -> exists_ p = true -> p ∈ existing) ->
  add_missing exists_ existing paths = existing.
Proof.
  induction paths as [|path paths IH]; intros existing H; [reflexivity|].
  rewrite add_missing_cons.
  destruct (exists_ path) eqn:He; simpl.
  - rewrite bool_decide_eq_true_2 by (apply H; [now left | exact He]).
    simpl. apply IH. intros p Hp. apply H. now right.
  - apply IH. intros p Hp. apply H. now right.
Qed.

End Adding.

(** *** The directories added are proper entries *)

Lemma join2_colon_free a b :
  colon_free a = true -> colon_free b = true -> colon_free (join2 a b) = true.
Proof.
  intros Ha Hb. unfold join2. destruct (starts_with _ b); [exact Hb|].
  unfold colon_free in *.
  destruct a as [|x a]; [exact Hb|].
  destruct (ends_with _ (x :: a)); rewrite forallb_app, Ha; simpl; exact Hb.
Qed.

Lemma path_join_colon_free p : forall a,
  colon_free a = true -> Forall (fun b => colon_free b = true) p ->
  colon_free (path_join a p) = true.
Proof.
  induction p as [|b p IH]; intros a Ha Hp; [exact Ha|].
  apply Forall_cons in Hp as [Hb Hp]. apply IH; [|exact Hp].
  now apply join2_colon_free.
Qed.

Lemma join2_not_blank a b : b <> [] -> join2 a b <> [].
Proof.
  intros Hb. unfold join2. destruct (starts_with _ b); [exact Hb|].
  destruct a as [|x a]; [exact Hb|]. now destruct (ends_with _ (x :: a)).
Qed.

Lemma path_join_last a p b : path_join a (p ++ [b]) = join2 (path_join a p) b.
Proof. unfold path_join. now rewrite fold_left_app. Qed.

Lemma whisper_lib_paths_entries d :
  colon_free d = true ->
  Forall (fun p => colon_free p = true /\ p <> []) (whisper_lib_paths d).
Proof.
  intros Hd. unfold whisper_lib_paths.
  repeat (apply Forall_cons; split;
          [split; [apply path_join_colon_free;
                     [exact Hd | repeat constructor]
                  |] |]); [..|constructor].
  - apply (join2_not_blank (path_join d [_; _; _]) (lit "src")). discriminate.
  - apply (join2_not_blank (path_join d [_; _; _; _]) (lit "src")).
    discriminate.
  - apply (join2_not_blank (path_join d [_; _; _; _; _]) (lit "ggml-blas")).
    discriminate.
  - apply (join2_not_blank (path_join d [_; _; _; _; _]) (lit "ggml-metal")).
    discriminate.
Qed.

(** X3.  The entries [DYLD_LIBRARY_PATH] had are kept, in their order and at
    the front; what is appended are library directories of the project that
    exist and were not listed, each once; and afterwards every library
    directory that exists is listed. *)
Theorem library_path_extended (c : N) (d : str) (exists_ : str -> bool)
    (dyld : option str) :
  exists added,
    set_library_path (Some (c :: d)) exists_ dyld
    = Some (join (existing_paths dyld ++ added))
    /\ NoDup added
    /\ (forall p, p ∈ added ->
           p ∈ whisper_lib_paths (c :: d) /\ exists_ p = true
           /\ p ∉ existing_paths dyld)
    /\ (forall p, p ∈ whisper_lib_paths (c :: d) -> exists_ p = true ->
           p ∈ existing_paths dyld ++ added).
Proof.
  destruct (add_missing_appends exists_ (whisper_lib_paths (c :: d))
              (existing_paths dyld)) as (added & Heq & Hnd & Hadd).
  exists added. unfold set_library_path. rewrite Heq.
  split; [reflexivity|]. split; [exact Hnd|]. split; [exact Hadd|].
  intros p Hp He. rewrite <- Heq. now apply add_missing_covers.
Qed.

(** X4.  Importing the module a second time leaves [DYLD_LIBRARY_PATH] as
    the first import set it, when the path of the project directory holds
    no colon. *)
Theorem library_path_idempotent (project_dir : option str)
    (exists_ : str -> bool) (dyld : option str) :
  (forall d, project_dir = Some d -> colon_free d = true) ->
  set_library_path project_dir exists_
    (set_library_path project_dir exists_ dyld)
  = set_library_path project_dir exists_ dyld.
Proof.
  intros Hfree. destruct project_dir as [[|c d]|]; try reflexivity.
  specialize (Hfree _ eq_refl). unfold set_library_path.
  pose proof (whisper_lib_paths_entries _ Hfree) as Hlibs.
  set (libs := whisper_lib_paths (c :: d)) in *.
  destruct (add_missing_appends exists_ libs (existing_paths dyld))
    as (added & Heq & _ & Hadd).
  assert (Hcf : Forall (fun p => colon_free p = true)
                  (add_missing exists_ (existing_paths dyld) libs)).
  { rewrite Heq. apply Forall_app. split.
    - apply existing_paths_colon_free.
    - apply Forall_forall. intros p Hp. destruct (Hadd p Hp) as (Hl & _).
      rewrite Forall_forall in Hlibs. now apply Hlibs. }
  assert (Hnb : add_missing exists_ (existing_paths dyld) libs <> [[]]).
  { rewrite Heq. pose proof (existing_paths_not_blank dyld) as Hx.
    destruct (existing_paths dyld) as [|x [|y xs]]; simpl.
    - intros ->. destruct (Hadd [] ltac:(left)) as (Hl & _).
      rewrite Forall_forall in Hlibs. now destruct (Hlibs _ Hl).
    - destruct added; [exact Hx | discriminate].
    - discriminate. }
  rewrite existing_paths_join by assumption. f_equal. f_equal.
  apply add_missing_nothing. intros p Hp He.
  now apply add_missing_covers.
Qed.

Lemma library_path_idempotent_witness :
  set_library_path (Some (lit "/opt/tool"))
    (fun p => bool_decide (p = lit "/opt/tool/deps/whisper.cpp/build/src"))
    (Some (lit "/usr/lib:/opt/lib:/opt/tool/deps/whisper.cpp/build/src"))
  = Some (lit "/usr/lib:/opt/lib:/opt/tool/deps/whisper.cpp/build/src").
Proof.
  refine (library_path_idempotent (Some (lit "/opt/tool"))
            (fun p => bool_decide
                        (p = lit "/opt/tool/deps/whisper.cpp/build/src"))
            (Some (lit "/usr/lib:/opt/lib")) _).
  intros d [= <-]. reflexivity.
Defined.

End LibraryPath.

(** ** Model files: [get_model_path], [list_models],
    [check_memory_for_model], [download_model] *)

Module ModelFiles.

Import Run Transcribe.
Local Open Scope run_scope.

(** Python's index of a slice bound in a sequence of [len] items. *)
Definition slice_bound (len i : Z) : Z :=
  if i <? 0 then Z.max 0 (len + i) else Z.min i len.

(** [s[i:j]]. *)
Definition py_slice (s : str) (i j : Z) : str :=
  let len := Z.of_nat (length s) in
  let a := slice_bound len i in
  let b := slice_bound len j in
  take (Z.to_nat (b - a)) (drop (Z.to_nat a) s).

(** [f"ggml-{model_name}.bin"]. *)
Definition model_file (model_name : str) : str :=
  lit "ggml-" ++ model_name ++ lit ".bin".

(** What the four functions meet outside the module. *)
Record env := {
  default_models_dir : str;               (* str(Path.home() / "whisper_models") *)
  ensure_directory_exists : value -> res bool;
  listdir : value -> res (list str);      (* os.listdir *)
  path_exists : str -> bool;              (* os.path.exists *)
  available_memory : res Z;               (* psutil.virtual_memory().available *)
  fmt_2f : Z -> str;                      (* f"{bytes / (1024 * 1024):.2f}" *)
  content_length : res Z;                 (* int(r.headers.get('content-length', 0)) *)
  http_get : str -> res unit;             (* requests.get, raise_for_status *)
  open_model : str -> res unit;           (* open(model_path, 'wb') *)
  chunks : list nat;                      (* len(chunk) of the chunks received *)
  broken_after : option exn               (* the stream raises after them *)
}.

Definition WHISPER_CPP_MODELS_URL : str :=
  lit "https://huggingface.co/ggerganov/whisper.cpp/resolve/main".

(** Lines 215 to 217 (and 287 to 289, 349 to 351): the models directory.
    A [config] that is [None] or an empty dict is falsy. *)
Definition models_dir (E : env) (config : option loc) : M value :=
  let home := ret (VStr (default_models_dir E)) in
  match config with
  | None => home
  | Some l =>
      h <- get_heap ;;
      match h !! l with
      | None => raise (type_error "not a dict")
      | Some d =>
          if bool_decide (d = ∅) then home
          else
            has_whisper <- py_in "whisper" (VRef l) ;;
            if has_whisper : bool then
              whisper <- py_item (VRef l) "whisper" ;;
              has_path <- py_in "model_path" whisper ;;
              if has_path : bool then
                whisper <- py_item (VRef l) "whisper" ;;
                py_item whisper "model_path"
              else home
            else home
      end
  end.

(** [os.path.join(models_dir, name)] for the value [models_dir] is. *)
Definition join_dir (dir : value) (name : str) : M str :=
  match dir with
  | VStr d => ret (LibraryPath.join2 d name)
  | _ => raise (type_error "expected str, bytes or os.PathLike object")
  end.

(** [get_model_path(model_name, config)]. *)
Definition get_model_path (E : env) (model_name : str)
    (config : option loc) : M str :=
  dir <- models_dir E config ;;
  lift (ensure_directory_exists E dir) ;;;
  model_path <- join_dir dir (model_file model_name) ;;
  if path_exists E model_path then ret model_path
  else raise (Exn ModelError
                (lit "Model " ++ model_name ++ lit " not found at "
                 ++ model_path ++ lit ". Please download it first.")).

(** Lines 357 to 361: the names of the model files of a listing. *)
Fixpoint model_names (files : list str) : list str :=
  match files with
  | [] => []
  | file :: files' =>
      if starts_with (lit "ggml-") file && ends_with (lit ".bin") file
      then py_slice file 5 (-4) :: model_names files'
      else model_names files'
  end.

(** [list_models(config)]. *)
Definition list_models (E : env) (config : option loc) : M (list str) :=
  dir <- models_dir E config ;;
  lift (ensure_directory_exists E dir) ;;;
  files <- lift (listdir E dir) ;;
  ret (model_names files).

(** [MODEL_SIZES[model_name]["ram"]], in MB. *)
Definition model_ram (model_name : str) : option Z :=
  if bool_decide (model_name = lit "tiny") then Some 300
  else if bool_decide (model_name = lit "base") then Some 500
  else if bool_decide (model_name = lit "small") then Some 1024
  else if bool_decide (model_name = lit "medium") then Some 2500
  else if bool_decide (model_name = lit "large") then Some 4500
  else if bool_decide (model_name = lit "large-v1") then Some 4500
  else if bool_decide (model_name = lit "large-v2") then Some 4500
  else if bool_decide (model_name = lit "large-v3") then Some 4500
  else if bool_decide (model_name = lit "large-v3-turbo") then Some 3000
  else None.

(** [check_memory_for_model(model_name)].  The available memory is a number
    of bytes; divided by [1024 * 1024] it is below [required_ram] exactly
    when the bytes are below [required_ram * 1024 * 1024], in floating
    point as in the integers: the quotient is exact up to [2^53] bytes and
    far above every requirement beyond. *)
Definition check_memory_for_model (E : env) (model_name : str)
    : bool * str :=
  let required_ram := default 500 (model_ram model_name) in
  match available_memory E with
  | Ok available =>
      if available <? required_ram * (1024 * 1024) then
        (false,
         lit "Nicht gen" ++ [252%N] ++ lit "gend RAM verf" ++ [252%N]
         ++ lit "gbar! Verf" ++ [252%N] ++ lit "gbar: " ++ fmt_2f E available
         ++ lit " MB, Ben" ++ [246%N] ++ lit "tigt: " ++ str_of_Z required_ram ++ lit " MB")
      else (true, lit "Ausreichend RAM verf" ++ [252%N] ++ lit "gbar: "
                  ++ fmt_2f E available
                  ++ lit " MB")
  | Raise e => (true, lit "Speicherpr" ++ [252%N] ++ lit "fung fehlgeschlagen: " ++ exn_str e)
  end.

Section Download.

Variable R : runtime.

Definition progress_of (downloaded total_size : Z) : number :=
  mul R (truediv R (NInt downloaded) (NInt total_size)) (NInt 100).

(** Lines 314 to 326: the chunks of the response, one after the other. *)
Fixpoint receive (total_size : Z) (model_name : str) (cs : list nat)
    (downloaded : Z) : M unit :=
  match cs with
  | [] => ret tt
  | chunk :: cs' =>
      match chunk with
      | O => receive total_size model_name cs' downloaded
      | _ =>
          let downloaded := downloaded + Z.of_nat chunk in
          (if 0 <? total_size then
             publish PROGRESS_UPDATE
               [("task"%string, VStr (lit "model_download"));
                ("progress"%string,
                 VNum (progress_of downloaded total_size));
                ("model"%string, VStr model_name)]
           else ret tt) ;;;
          receive total_size model_name cs' downloaded
      end
  end.

(** [download_model(model_name, config)].  An exception of the response
    stream or of [f.write] comes after the chunks of [chunks]. *)
Definition download_model (E : env) (model_name : str)
    (config : option loc) : M str :=
  let '(has_enough_memory, message) := check_memory_for_model E model_name in
  if negb has_enough_memory then
    raise (Exn ModelError
             (lit "Speicherpr" ++ [252%N] ++ lit "fung fehlgeschlagen: "
              ++ message))
  else
    dir <- models_dir E config ;;
    lift (ensure_directory_exists E dir) ;;;
    model_path <- join_dir dir (model_file model_name) ;;
    let model_url :=
      WHISPER_CPP_MODELS_URL ++ lit "/ggml-" ++ model_name ++ lit ".bin" in
    if path_exists E model_path then ret model_path
    else
      publish MODEL_DOWNLOAD_STARTED
        [("model"%string, VStr model_name); ("url"%string, VStr model_url)] ;;;
      catch
        (lift (http_get E model_url) ;;;
         total_size <- lift (content_length E) ;;
         lift (open_model E model_path) ;;;
         receive total_size model_name (chunks E) 0 ;;;
         match broken_after E with
         | Some e => raise e
         | None =>
             publish MODEL_DOWNLOAD_COMPLETED
               [("model"%string, VStr model_name);
                ("path"%string, VStr model_path)] ;;;
             ret model_path
         end)
        (fun e =>
           publish MODEL_DOWNLOAD_FAILED
             [("model"%string, VStr model_name);
              ("error"%string, VStr (exn_str e))] ;;;
           raise (Exn ModelError
                    (lit "Failed to download model " ++ model_name
                     ++ lit ": " ++ exn_str e))).

End Download.

(** *** Computations that leave the world alone *)

Definition silent {A} (m : M A) : Prop := forall w, snd (m w) = w.

Lemma silent_ret {A} (a : A) : silent (ret a).
Proof. now intros w. Qed.

Lemma silent_raise {A} e : silent (@raise A e).
Proof. now intros w. Qed.

Lemma silent_lift {A} (r : res A) : silent (lift r).
Proof. now intros w. Qed.

Lemma silent_bind {A B} (m : M A) (k : A -> M B) :
  silent m -> (forall a, silent (k a)) -> silent (bind m k).
Proof.
  intros Hm Hk w. unfold bind. specialize (Hm w).
  destruct (m w) as [[a|e] w1]; simpl in *; subst; [apply Hk | reflexivity].
Qed.

Lemma silent_get_heap : silent get_heap.
Proof. now intros w. Qed.

Lemma silent_py_in k v : silent (py_in k v).
Proof.
  intros w. unfold py_in. destruct v as [| | | |l]; try reflexivity.
  now destruct (heap w !! l).
Qed.

Lemma silent_py_item v k : silent (py_item v k).
Proof.
  intros w. unfold py_item. destruct (as_dict (heap w) v) as [d|]; [|done].
  now destruct (d !! k).
Qed.

Ltac silent_step :=
  match goal with
  | |- silent (bind _ _) => apply silent_bind; [|intros ?]
  | |- silent (ret _) => apply silent_ret
  | |- silent (raise _) => apply silent_raise
  | |- silent (lift _) => apply silent_lift
  | |- silent get_heap => apply silent_get_heap
  | |- silent (py_in _ _) => apply silent_py_in
  | |- silent (py_item _ _) => apply silent_py_item
  | |- silent (match ?x with _ => _ end) => destruct x
  | |- silent (if ?b then _ else _) => destruct b
  end.

Lemma silent_models_dir E config : silent (models_dir E config).
Proof. unfold models_dir. repeat silent_step. Qed.

Lemma silent_join_dir dir name : silent (join_dir dir name).
Proof. unfold join_dir. repeat silent_step. Qed.

Lemma silent_list_models E config : silent (list_models E config).
Proof.
  unfold list_models. pose proof (silent_models_dir E config).
  repeat silent_step; assumption.
Qed.

Lemma silent_get_model_path E name config :
  silent (get_model_path E name config).
Proof.
  unfold get_model_path. pose proof (silent_models_dir E config).
  pose proof (fun d => silent_join_dir d (model_file name)).
  repeat first [assumption | match goal with H : forall d, _ |- _ => apply H end
               | silent_step].
Qed.

(** *** File names and model names *)

Lemma starts_with_app p r : starts_with p (p ++ r) = true.
Proof. induction p as [|c p IH]; simpl; [done|]. now rewrite N.eqb_refl. Qed.

Lemma starts_with_inv p : forall s,
  starts_with p s = true -> exists r, s = p ++ r.
Proof.
  induction p as [|c p IH]; intros s H; [now exists s|].
  destruct s as [|d s]; [discriminate|]. simpl in H.
  apply andb_prop in H as [Hc H]. apply N.eqb_eq in Hc as ->.
  destruct (IH s H) as [r ->]. now exists r.
Qed.

Lemma ends_with_app r p : ends_with p (r ++ p) = true.
Proof. unfold ends_with. rewrite rev_app_distr. apply starts_with_app. Qed.

Lemma py_slice_model_file name : py_slice (model_file name) 5 (-4) = name.
Proof.
  unfold py_slice, model_file, slice_bound.
  change (lit "ggml-") with [103; 103; 109; 108; 45]%N.
  change (lit ".bin") with [46; 98; 105; 110]%N.
  rewrite !length_app. cbn [length]. cbn [Z.ltb Z.compare].
  rewrite Z.min_l, Z.max_r by lia.
  replace (Z.to_nat 5) with 5%nat by reflexivity. cbn [app drop].
  replace (Z.to_nat _) with (length name) by lia.
  apply take_app_length.
Qed.

Lemma model_file_shape file :
  starts_with (lit "ggml-") file = true ->
  ends_with (lit ".bin") file = true ->
  exists name, file = model_file name.
Proof.
  intros [r ->]%starts_with_inv He. unfold ends_with in He.
  rewrite rev_app_distr in He.
  change (rev (lit ".bin")) with [110; 105; 98; 46]%N in He.
  change (rev (lit "ggml-")) with [45; 108; 109; 103; 103]%N in He.
  destruct (rev r) as [|a [|b [|c [|d t]]]] eqn:Hr;
    cbn [starts_with app] in He;
    try change (110 =? 45)%N with false in He;
    try change (105 =? 45)%N with false in He;
    try change (98 =? 45)%N with false in He;
    try change (46 =? 45)%N with false in He;
    cbn [andb] in He; rewrite ?andb_false_r in He; try discriminate.
  rewrite andb_true_r in He.
  apply andb_prop in He as [Ha He]. apply andb_prop in He as [Hb He].
  apply andb_prop in He as [Hc Hd].
  apply N.eqb_eq in Ha, Hb, Hc, Hd. subst a b c d.
  exists (rev t). apply (f_equal (@rev N)) in Hr.
  rewrite rev_involutive in Hr. rewrite Hr. unfold model_file. f_equal.
  simpl. now rewrite <- !app_assoc.
Qed.

Lemma model_names_spec files name :
  name ∈ model_names files <-> model_file name ∈ files.
Proof.
  induction files as [|file files IH]; cbn [model_names].
  - split; intros H; now apply elem_of_nil in H.
  - destruct (starts_with (lit "ggml-") file) eqn:Hs; cbn [andb];
      [destruct (ends_with (lit ".bin") file) eqn:He|].
    + destruct (model_file_shape file Hs He) as [n ->].
      rewrite py_slice_model_file, !elem_of_cons, IH.
      split; (intros [H|H]; [left | now right]); [now subst|].
      unfold model_file in H. now simplify_list_eq.
    + rewrite IH, elem_of_cons. split; [now right|].
      intros [<-|H]; [|exact H]. unfold model_file in He.
      rewrite app_assoc, ends_with_app in He. discriminate.
    + rewrite IH, elem_of_cons. split; [now right|].
      intros [<-|H]; [|exact H]. unfold model_file in Hs.
      now rewrite starts_with_app in Hs.
Qed.

(** X5.  [list_models] changes nothing, and the names it returns are exactly
    the names whose model file [ggml-<name>.bin], the file
    [get_model_path] looks for, is in the listing of the models
    directory. *)
Theorem list_models_lists_model_files (E : env) (config : option loc)
    (w : world) (names : list str) (w' : world) :
  list_models E config w = (Ok names, w') ->
  w' = w
  /\ exists dir files,
       models_dir E config w = (Ok dir, w)
       /\ listdir E dir = Ok files
       /\ forall name, name ∈ names <-> model_file name ∈ files.
Proof.
  intros H. pose proof (silent_list_models E config w) as Hw.
  rewrite H in Hw. simpl in Hw. subst w'. split; [reflexivity|].
  unfold list_models in H.
  apply Facts.bind_ok_inv in H as (dir & w1 & Hdir & H).
  pose proof (silent_models_dir E config w) as Hw. rewrite Hdir in Hw.
  simpl in Hw. subst w1.
  apply Facts.bind_ok_inv in H as (b & w1 & [_ ->]%Facts.lift_inv & H).
  apply Facts.bind_ok_inv in H as (files & w1 & [Hl ->]%Facts.lift_inv & H).
  injection H as <-. exists dir, files. split; [exact Hdir|].
  split; [exact Hl|]. intros name. apply model_names_spec.
Qed.

(** A models directory with two model files and a stray file. *)
Definition shelf : env :=
  {| default_models_dir := lit "/home/me/whisper_models";
     ensure_directory_exists := fun _ => Ok true;
     listdir := fun _ => Ok [lit "ggml-tiny.bin"; lit "notes.txt";
                             lit "ggml-large-v3-turbo.bin"];
     path_exists := fun p =>
       bool_decide (p ∈ [lit "/home/me/whisper_models/ggml-tiny.bin";
                         lit "/home/me/whisper_models/notes.txt";
                         lit "/home/me/whisper_models/ggml-large-v3-turbo.bin"]);
     available_memory := Ok 8589934592;
     fmt_2f := fun z => str_of_Z (z / 1048576) ++ lit ".00";
     content_length := Ok 0;
     http_get := fun _ => Ok tt;
     open_model := fun _ => Ok tt;
     chunks := [];
     broken_after := None |}.

Definition bare : world :=
  {| events := []; heap := ∅; effects := [];
     current_transcription_process := None |}.

Lemma list_models_lists_model_files_witness :
  list_models shelf None bare
  = (Ok [lit "tiny"; lit "large-v3-turbo"], bare)
  /\ (lit "tiny" ∈ [lit "tiny"; lit "large-v3-turbo"]
      <-> model_file (lit "tiny")
          ∈ [lit "ggml-tiny.bin"; lit "notes.txt";
             lit "ggml-large-v3-turbo.bin"]).
Proof.
  assert (H : list_models shelf None bare
              = (Ok [lit "tiny"; lit "large-v3-turbo"], bare))
    by (vm_compute; reflexivity).
  split; [exact H|].
  destruct (list_models_lists_model_files shelf None bare _ _ H)
    as (_ & dir & files & Hd & Hl & Hn).
  injection Hl as <-. apply Hn.
Defined.

(** X6.  Every model [list_models] names is found by [get_model_path]
    under the same configuration, when the models directory is a string
    and the files of its listing exist. *)
Theorem listed_model_is_found (E : env) (config : option loc) (w : world)
    (names : list str) (w' : world) (d : str) (name : str) :
  list_models E config w = (Ok names, w') ->
  models_dir E config w = (Ok (VStr d), w) ->
  (forall files f, listdir E (VStr d) = Ok files -> f ∈ files ->
     path_exists E (LibraryPath.join2 d f) = true) ->
  name ∈ names ->
  get_model_path E name config w'
  = (Ok (LibraryPath.join2 d (model_file name)), w').
Proof.
  intros Hlist Hdir Hfs Hname.
  destruct (list_models_lists_model_files E config w names w' Hlist)
    as (-> & dir & files & Hdir' & Hl & Hn).
  rewrite Hdir in Hdir'. injection Hdir' as <-.
  unfold list_models in Hlist.
  apply Facts.bind_ok_inv in Hlist as (dir & w1 & Hd1 & Hlist).
  rewrite Hdir in Hd1. injection Hd1 as <- <-.
  apply Facts.bind_ok_inv in Hlist as (b & w1 & [He ->]%Facts.lift_inv & _).
  unfold get_model_path. rewrite Facts.bind_run, Hdir.
  rewrite Facts.bind_run. unfold lift at 1. rewrite He.
  rewrite Facts.bind_run. cbn [join_dir ret].
  rewrite (Hfs files _ Hl (proj1 (Hn name) Hname)). reflexivity.
Qed.

Lemma listed_model_is_found_witness :
  get_model_path shelf (lit "large-v3-turbo") None bare
  = (Ok (lit "/home/me/whisper_models/ggml-large-v3-turbo.bin"), bare).
Proof.
  refine (listed_model_is_found shelf None bare
            [lit "tiny"; lit "large-v3-turbo"] bare
            (lit "/home/me/whisper_models") (lit "large-v3-turbo")
            _ _ _ _).
  - vm_compute. reflexivity.
  - reflexivity.
  - intros files f [= <-] Hf. apply bool_decide_eq_true.
    repeat (apply elem_of_cons in Hf as [->|Hf]; [set_solver|]).
    now apply elem_of_nil in Hf.
  - set_solver.
Defined.

(** *** What a download publishes *)

(** The world with more events published. *)
Definition with_events (w : world) (evs : list event) : world :=
  {| events := events w ++ evs; heap := heap w; effects := effects w;
     current_transcription_process := current_transcription_process w |}.

Lemma with_events_nil w : with_events w [] = w.
Proof. destruct w. unfold with_events. simpl. now rewrite app_nil_r. Qed.

Lemma with_events_app w a b :
  with_events (with_events w a) b = with_events w (a ++ b).
Proof. unfold with_events. simpl. now rewrite app_assoc. Qed.

Lemma publish_run t d w : publish t d w = (Ok tt, with_events w [Event t d]).
Proof. reflexivity. Qed.

Definition is_progress (e : event) : Prop :=
  event_type e = PROGRESS_UPDATE
  /\ get "task" (data e) = Some (VStr (lit "model_download")).

Section Protocol.

Variable R : runtime.

(** The chunks that count: the non-empty ones. *)
Definition counted (cs : list nat) : nat :=
  length (List.filter (fun c => negb (c =? 0)%nat) cs).

Lemma receive_run total_size model_name cs : forall downloaded w,
  exists ps,
    receive R total_size model_name cs downloaded w
    = (Ok tt, with_events w ps)
    /\ Forall is_progress ps
    /\ length ps = if 0 <? total_size then counted cs else 0%nat.
Proof.
  induction cs as [|c cs IH]; intros downloaded w.
  - exists []. rewrite with_events_nil. split; [reflexivity|].
    split; [constructor|]. now destruct (0 <? total_size).
  - destruct c as [|c].
    + destruct (IH downloaded w) as (ps & Hr & Hp & Hl).
      exists ps. split; [exact Hr|]. split; [exact Hp|]. exact Hl.
    + cbn [receive]. rewrite Facts.bind_run.
      unfold counted in *. cbn [List.filter Nat.eqb negb length].
      destruct (0 <? total_size).
      * rewrite publish_run.
        destruct (IH (downloaded + Z.of_nat (S c))
                    (with_events w
                       [Event PROGRESS_UPDATE
                          [("task"%string, VStr (lit "model_download"));
                           ("progress"%string,
                            VNum (progress_of R
                                    (downloaded + Z.of_nat (S c)) total_size));
                           ("model"%string, VStr model_name)]]))
          as (ps & Hr & Hp & Hl).
        eexists (_ :: ps). rewrite Hr, with_events_app.
        split; [reflexivity|]. split; [|simpl; now rewrite Hl].
        constructor; [now split | exact Hp].
      * destruct (IH (downloaded + Z.of_nat (S c)) w) as (ps & Hr & Hp & Hl).
        exists ps. split; [exact Hr|]. split; [exact Hp|]. exact Hl.
Qed.

Definition started (model_name : str) : event :=
  Event MODEL_DOWNLOAD_STARTED
    [("model"%string, VStr model_name);
     ("url"%string,
      VStr (WHISPER_CPP_MODELS_URL ++ lit "/ggml-" ++ model_name
            ++ lit ".bin"))].

Definition completed (model_name path : str) : event :=
  Event MODEL_DOWNLOAD_COMPLETED
    [("model"%string, VStr model_name); ("path"%string, VStr path)].

Definition failed_with (model_name : str) (e : exn) : event :=
  Event MODEL_DOWNLOAD_FAILED
    [("model"%string, VStr model_name); ("error"%string, VStr (exn_str e))].


End Protocol.

End ModelFiles.

(** ** The WebSocket endpoints: [progress_websocket] and
    [websocket_endpoint] *)

Module Sockets.

Import Web.

(** What is sent to a client: [send_json(data)] or [send_text(s)]. *)
Inductive frame :=
| Json (data : list (string * value))
| Text (s : str).

(** How a connection ends: [receive_text] raises [WebSocketDisconnect] or
    some other exception. *)
Inductive ending :=
| WebSocketDisconnect
| Broken (e : exn).

(** One client connection, as the endpoint meets it. *)
Record connection := {
  accept : res unit;                (* await websocket.accept() *)
  send : frame -> res unit;         (* send_json, send_text *)
  incoming : list str;              (* the texts receive_text returns *)
  closes : ending                   (* and what it raises after them *)
}.

(** The globals of the web module and what was sent over the connection. *)
Record state := {
  web : Web.state;
  sent : list frame
}.

Definition with_sockets (f : gset websocket -> gset websocket) (s : state)
    : state :=
  {| web := {| progress_websockets := f (progress_websockets (web s));
               last_progress_data := last_progress_data (web s);
               attempts := attempts (web s) |};
     sent := sent s |}.

(** A send over the connection, logged when it goes through. *)
Definition transmit (C : connection) (f : frame) (s : state)
    : res unit * state :=
  match send C f with
  | Ok _ => (Ok tt, {| web := web s; sent := sent s ++ [f] |})
  | Raise e => (Raise e, s)
  end.

(** Lines 186 to 190: the loop that answers pings, until the connection
    ends or a send fails. *)
Fixpoint serve (lower : str -> str) (C : connection) (texts : list str)
    (s : state) : ending * state :=
  match texts with
  | [] => (closes C, s)
  | data :: texts' =>
      if bool_decide (lower data = lit "ping") then
        match transmit C (Text (lit "pong")) s with
        | (Ok _, s') => serve lower C texts' s'
        | (Raise e, s') => (Broken e, s')
        end
      else serve lower C texts' s
  end.

(** The body of the [try] of [progress_websocket]. *)
Definition progress_body (lower : str -> str) (C : connection)
    (ws : websocket) (s : state) : ending * state :=
  match accept C with
  | Raise e => (Broken e, s)
  | Ok _ =>
      let s := with_sockets (fun sockets => sockets ∪ {[ws]}) s in
      match last_progress_data (web s) with
      | Some (item :: data) =>
          match transmit C (Json (item :: data)) s with
          | (Ok _, s') => serve lower C (incoming C) s'
          | (Raise e, s') => (Broken e, s')
          end
      | _ => serve lower C (incoming C) s
      end
  end.

(** [progress_websocket(websocket)]: both [except] clauses log, and the
    [finally] clause discards the socket. *)
Definition progress_websocket (lower : str -> str) (C : connection)
    (ws : websocket) (s : state) : res unit * state :=
  let '(_, s') := progress_body lower C ws s in
  (Ok tt, with_sockets (fun sockets => sockets ∖ {[ws]}) s').

(** *** [websocket_endpoint] *)

(** [active_connections]: the sockets of each user. *)
Abbreviation registry := (gmap str (list websocket)).

(** Lines 215 to 217. *)
Definition register (user_id : str) (ws : websocket) (r : registry)
    : registry :=
  <[user_id := default [] (r !! user_id) ++ [ws]]> r.

(** [l.remove(x)]: the first occurrence goes; [ValueError] without one. *)
Fixpoint remove_first (x : websocket) (l : list websocket)
    : option (list websocket) :=
  match l with
  | [] => None
  | y :: l' =>
      if Nat.eqb x y then Some l'
      else option_map (cons y) (remove_first x l')
  end.

(** Lines 225 to 228. *)
Definition unregister (user_id : str) (ws : websocket) (r : registry)
    : res registry :=
  match r !! user_id with
  | None => Ok r
  | Some l =>
      match remove_first ws l with
      | None => Raise (Exn ValueError (lit "list.remove(x): x not in list"))
      | Some [] => Ok (delete user_id r)
      | Some l' => Ok (<[user_id := l']> r)
      end
  end.

(** [websocket_endpoint(websocket, user_id)], the registry passing through
    the hands of the other connections ([meanwhile]) while this one waits
    for its client. *)
Definition websocket_endpoint (C : connection) (user_id : str)
    (ws : websocket) (meanwhile : registry -> registry) (r : registry)
    : res unit * registry :=
  match accept C with
  | Raise e => (Raise e, r)
  | Ok _ =>
      let r := meanwhile (register user_id ws r) in
      match closes C with
      | WebSocketDisconnect =>
          match unregister user_id ws r with
          | Ok r' => (Ok tt, r')
          | Raise e => (Raise e, r)
          end
      | Broken e => (Raise e, r)
      end
  end.

(** The registry holds no user without a socket. *)
Definition tidy (r : registry) : Prop :=
  forall user_id, r !! user_id <> Some [].

(** *** The progress socket *)

Definition pong : frame := Text (lit "pong").

(** The pings among the texts received. *)
Definition pings (lower : str -> str) (texts : list str) : list str :=
  List.filter (fun data => bool_decide (lower data = lit "ping")) texts.

Lemma serve_spec lower C texts : forall s,
  let r := serve lower C texts s in
  web (snd r) = web s
  /\ exists n rest,
       sent (snd r) = sent s ++ repeat pong n
       /\ length (pings lower texts) = (n + rest)%nat
       /\ ((forall f, send C f = Ok tt) -> rest = 0%nat).
Proof.
  induction texts as [|data texts IH]; intros s; cbn [serve].
  - split; [reflexivity|]. exists 0%nat, 0%nat. simpl.
    now rewrite app_nil_r.
  - unfold pings. cbn [List.filter].
    destruct (bool_decide (lower data = lit "ping")).
    + unfold transmit. destruct (send C (Text (lit "pong"))) as [[]|e] eqn:Hs.
      * destruct (IH {| web := web s; sent := sent s ++ [Text (lit "pong")] |})
          as (Hweb & n & rest & Hsent & Hlen & Hall).
        split; [exact Hweb|]. exists (S n), rest. cbn [sent] in Hsent.
        split; [now rewrite Hsent, <- app_assoc|].
        split; [simpl; unfold pings in Hlen; now rewrite Hlen | exact Hall].
      * split; [reflexivity|].
        exists 0%nat, (S (length (pings lower texts))). simpl.
        rewrite app_nil_r. split; [reflexivity|]. split; [reflexivity|].
        intros Hall. rewrite Hall in Hs. discriminate.
    + apply IH.
Qed.

Lemma other_after_add (X : gset websocket) ws x :
  x <> ws -> (x ∈ X ∪ {[ws]} <-> x ∈ X).
Proof. intros Hx. rewrite elem_of_union, elem_of_singleton. tauto. Qed.

Lemma other_after_discard (X : gset websocket) ws x :
  x <> ws -> (x ∈ X ∖ {[ws]} <-> x ∈ X).
Proof. intros Hx. rewrite elem_of_difference, elem_of_singleton. tauto. Qed.

Lemma gone_after_discard (X : gset websocket) ws : ws ∉ X ∖ {[ws]}.
Proof. rewrite elem_of_difference, elem_of_singleton. tauto. Qed.


(** *** Replay of the last event *)

Lemma deliver_all_last E message l : forall st,
  last_progress_data (fold_left (deliver E message) l st)
  = last_progress_data st.
Proof. induction l as [|x l IH]; intros st; simpl; [|rewrite IH]; done. Qed.

Lemma handler_remembers E ev st :
  event_type ev = PROGRESS_UPDATE \/ event_type ev = CUSTOM ->
  last_progress_data (snd (progress_event_handler E ev st)) = Some (data ev).
Proof.
  intros Hty. unfold progress_event_handler, handler_body.
  destruct Hty as [-> | ->];
    (destruct (elements (progress_websockets (remember ev st)));
     [reflexivity|];
     destruct (json_dumps E (data ev)); [|reflexivity];
     simpl; now rewrite deliver_all_last).
Qed.

(** X9.  A client that connects to the progress socket after a progress or
    custom event was handled is first sent the data of that event, also when
    no client was connected when the event came or its delivery failed. *)
Theorem late_client_gets_last_event (E : Web.env) (ev : event)
    (lower : str -> str) (C : connection) (ws : websocket) (s : state) :
  event_type ev = PROGRESS_UPDATE \/ event_type ev = CUSTOM ->
  data ev <> [] ->
  accept C = Ok tt ->
  send C (Json (data ev)) = Ok tt ->
  let s1 := {| web := snd (progress_event_handler E ev (web s));
               sent := [] |} in
  exists n, sent (snd (progress_websocket lower C ws s1))
            = Json (data ev) :: repeat pong n.
Proof.
  intros Hty Hdata Hacc Hsend s1.
  pose proof (handler_remembers E ev (web s) Hty) as Hlast.
  unfold progress_websocket, progress_body. rewrite Hacc.
  cbn [with_sockets web Web.last_progress_data]. subst s1. cbn [web].
  rewrite Hlast. destruct (data ev) as [|item data] eqn:Hd; [done|].
  unfold transmit. rewrite Hsend.
  match goal with
  | |- context [serve lower C (incoming C) ?s0] =>
      pose proof (serve_spec lower C (incoming C) s0)
        as (_ & n & rest & Hsent & _);
      destruct (serve lower C (incoming C) s0) as [e s']
  end.
  exists n. cbn [snd sent with_sockets] in *. exact Hsent.
Qed.

Definition patient : connection :=
  {| accept := Ok tt; send := fun _ => Ok tt;
     incoming := [lit "Ping"; lit "hello"; lit "ping"];
     closes := WebSocketDisconnect |}.

Definition ascii_lower (s : str) : str :=
  map (fun c => if (65 <=? c)%N && (c <=? 90)%N then (c + 32)%N else c) s.

Lemma late_client_gets_last_event_witness :
  let ev := Event PROGRESS_UPDATE [("progress"%string, VNum (NInt 40))] in
  let s := {| web := {| progress_websockets := ∅;
                        last_progress_data := None; attempts := [] |};
              sent := [] |} in
  let s1 := {| web := snd (progress_event_handler flaky ev (web s));
               sent := [] |} in
  exists n, sent (snd (progress_websocket ascii_lower patient 7%nat s1))
            = Json (data ev) :: repeat pong n.
Proof.
  intros ev s.
  exact (late_client_gets_last_event flaky ev ascii_lower patient 7%nat s
           (or_introl eq_refl) ltac:(discriminate) eq_refl eq_refl).
Defined.

Example patient_client :
  let s := {| web := {| progress_websockets := {[1%nat]};
                        last_progress_data := None; attempts := [] |};
              sent := [] |} in
  let r := progress_websocket ascii_lower patient 7%nat s in
  sent (snd r) = [pong; pong]
  /\ progress_websockets (web (snd r)) = {[1%nat]}.
Proof. vm_compute. split; reflexivity. Qed.

(** *** The registry of [websocket_endpoint] *)

Lemma remove_first_fresh ws l :
  ws ∉ l -> remove_first ws (l ++ [ws]) = Some l.
Proof.
  induction l as [|y l IH]; intros Hws; simpl.
  - now rewrite Nat.eqb_refl.
  - apply not_elem_of_cons in Hws as [Hne Hws].
    apply Nat.eqb_neq in Hne. rewrite Hne, IH by exact Hws. reflexivity.
Qed.

Lemma remove_first_present ws l :
  ws ∈ l -> exists l', remove_first ws l = Some l'.
Proof.
  induction l as [|y l IH]; intros Hws; [now apply elem_of_nil in Hws|].
  simpl. destruct (Nat.eqb ws y) eqn:Hy; [eauto|].
  apply Nat.eqb_neq in Hy. apply elem_of_cons in Hws as [->|Hws]; [done|].
  destruct (IH Hws) as [l' ->]. simpl. eauto.
Qed.

Lemma tidy_register user_id ws r : tidy r -> tidy (register user_id ws r).
Proof.
  intros Hr u. unfold register. destruct (decide (u = user_id)) as [->|Hu].
  - rewrite lookup_insert_eq. intros [= H]. now destruct (default [] _).
  - rewrite lookup_insert_ne by done. apply Hr.
Qed.

Lemma tidy_unregister user_id ws r r' :
  tidy r -> unregister user_id ws r = Ok r' -> tidy r'.
Proof.
  intros Hr. unfold unregister.
  destruct (r !! user_id) as [l|]; [|now intros [= <-]].
  destruct (remove_first ws l) as [[|x l']|]; [| |discriminate];
    intros [= <-] u.
  - destruct (decide (u = user_id)) as [->|Hu].
    + now rewrite lookup_delete_eq.
    + rewrite lookup_delete_ne by done. apply Hr.
  - destruct (decide (u = user_id)) as [->|Hu].
    + now rewrite lookup_insert_eq.
    + rewrite lookup_insert_ne by done. apply Hr.
Qed.

(** X10.  [websocket_endpoint] keeps the registry free of users without a
    socket, however the connection ends and whatever the other connections
    do to the registry meanwhile, as long as they keep it so too. *)
Theorem endpoint_keeps_registry_tidy (C : connection) (user_id : str)
    (ws : websocket) (meanwhile : registry -> registry) (r : registry) :
  tidy r ->
  (forall r0, tidy r0 -> tidy (meanwhile r0)) ->
  tidy (snd (websocket_endpoint C user_id ws meanwhile r)).
Proof.
  intros Hr Hm. unfold websocket_endpoint.
  destruct (accept C); [|exact Hr].
  pose proof (Hm _ (tidy_register user_id ws r Hr)) as Hr1.
  destruct (closes C); [|exact Hr1].
  destruct (unregister user_id ws _) as [r'|e] eqn:Hu; [|exact Hr1].
  now apply (tidy_unregister user_id ws _ r' Hr1).
Qed.

Definition nobody : registry := ∅.

Lemma endpoint_keeps_registry_tidy_witness :
  tidy (snd (websocket_endpoint patient (lit "u1") 7%nat
               (register (lit "u2") 8%nat) nobody)).
Proof.
  apply endpoint_keeps_registry_tidy.
  - intros u. unfold nobody. now rewrite lookup_empty.
  - intros r0. apply tidy_register.
Defined.

(** X11.  A client that disconnects leaves the registry as it found it:
    its socket is registered and removed again, and the user's entry goes
    with the last socket.  A connection that ends in any other exception
    is never removed: the exception leaves the endpoint and the socket
    stays registered. *)
Theorem endpoint_round_trip (C : connection) (user_id : str)
    (ws : websocket) (r : registry) :
  accept C = Ok tt ->
  tidy r ->
  ws ∉ default [] (r !! user_id) ->
  match closes C with
  | WebSocketDisconnect =>
      websocket_endpoint C user_id ws id r = (Ok tt, r)
  | Broken e =>
      websocket_endpoint C user_id ws id r
      = (Raise e, register user_id ws r)
      /\ exists l, register user_id ws r !! user_id = Some l /\ ws ∈ l
  end.
Proof.
  intros Hacc Hr Hws. unfold websocket_endpoint. rewrite Hacc.
  destruct (closes C) as [|e].
  - unfold unregister, register, id. rewrite lookup_insert_eq.
    rewrite remove_first_fresh by exact Hws.
    destruct (r !! user_id) as [l|] eqn:Hl; simpl.
    + destruct l as [|x l]; [now apply Hr in Hl|].
      now rewrite insert_insert_eq, insert_id.
    + now rewrite delete_insert_eq, delete_id.
  - split; [reflexivity|]. unfold register. rewrite lookup_insert_eq.
    eexists. split; [reflexivity|]. apply elem_of_app. right. now left.
Qed.

Lemma endpoint_round_trip_witness :
  websocket_endpoint patient (lit "u1") 7%nat id
    (register (lit "u1") 3%nat nobody)
  = (Ok tt, register (lit "u1") 3%nat nobody).
Proof.
  refine (endpoint_round_trip patient (lit "u1") 7%nat
            (register (lit "u1") 3%nat nobody) eq_refl _ _).
  - apply tidy_register. intros u. unfold nobody. now rewrite lookup_empty.
  - unfold register, nobody. rewrite lookup_insert_eq. simpl.
    intros [H|H]%elem_of_cons; [discriminate | now apply elem_of_nil in H].
Defined.

End Sockets.

(** ** The HTTP API: parameters, listings and formats of [web] *)

Module Api.

Import Run.

(** A Python [float]: a finite one is the rational it denotes. *)
Inductive float := Finite (q : Q) | PosInf | NegInf | NaN.

Definition Qlt_bool (a b : Q) : bool := negb (Qle_bool b a).

(** [x < y] on floats: false whenever a NaN is compared. *)
Definition flt (x y : float) : bool :=
  match x, y with
  | NaN, _ | _, NaN => false
  | _, NegInf => false
  | NegInf, _ => true
  | PosInf, _ => false
  | Finite _, PosInf => true
  | Finite a, Finite b => Qlt_bool a b
  end.

(** [max(a, b)] and [min(a, b)] of two arguments: the first stays unless
    the second is greater (less). *)
Definition py_max {A} (lt : A -> A -> bool) (a b : A) : A :=
  if lt a b then b else a.

Definition py_min {A} (lt : A -> A -> bool) (a b : A) : A :=
  if lt b a then b else a.

(** [v and v.strip()] for a form field. *)
Definition nonblank (v : option str) : bool :=
  match v with
  | Some (c :: s) => match strip (c :: s) with [] => false | _ => true end
  | _ => false
  end.

Section Clamp.

(** [int(s)] and [float(s)]; [None] when they raise. *)
Variables (py_int : str -> option Z) (py_float : str -> option float).

(** Lines 433 to 441 of [transcribe_audio_api]. *)
Definition srt_max_chars_int (srt_max_chars : option str) : Z :=
  match srt_max_chars with
  | Some s =>
      if nonblank srt_max_chars then
        match py_int s with
        | Some n => py_min Z.ltb (py_max Z.ltb 20 n) 120
        | None => 40
        end
      else 40
  | None => 40
  end.

(** Lines 443 to 451. *)
Definition srt_max_duration_float (srt_max_duration : option str) : float :=
  match srt_max_duration with
  | Some s =>
      if nonblank srt_max_duration then
        match py_float s with
        | Some x => py_min flt (py_max flt (Finite 1) x) (Finite 10)
        | None => Finite (3 # 2)
        end
      else Finite (3 # 2)
  | None => Finite (3 # 2)
  end.

End Clamp.

(** [quant.upper()] for the ASCII literals of the list below. *)
Definition upper (s : str) : str :=
  map (fun c => if (97 <=? c)%N && (c <=? 122)%N then (c - 32)%N else c) s.

Definition quants : list str :=
  [lit "q2_k"; lit "q3_k"; lit "q4_k"; lit "q4_k_m"; lit "q5_k";
   lit "q5_k_m"; lit "q6_k"; lit "q8_0"].

(** Lines 736 to 739 of [list_available_models_api]. *)
Fixpoint first_quant (qs : list str) (name_lower : str) : option str :=
  match qs with
  | [] => None
  | quant :: qs' =>
      if contains quant name_lower then Some (upper quant)
      else first_quant qs' name_lower
  end.

(** The ["quantization"] entry of a model file, [lower] being
    [str.lower]. *)
Definition quantization (lower : str -> str) (name : str) : option str :=
  first_quant quants (lower name).

Lemma Qlt_bool_iff a b : Qlt_bool a b = true <-> (a < b)%Q.
Proof.
  unfold Qlt_bool. rewrite negb_true_iff. split.
  - intros H. apply Qnot_le_lt. intros Hle.
    apply Qle_bool_iff in Hle. congruence.
  - intros H. destruct (Qle_bool b a) eqn:Hb; [|reflexivity].
    apply Qle_bool_iff in Hb. now apply Qlt_not_le in H.
Qed.

Lemma clamp_float x :
  exists q, py_min flt (py_max flt (Finite 1) x) (Finite 10) = Finite q
            /\ (1 <= q)%Q /\ (q <= 10)%Q
            /\ forall p, x = Finite p -> (1 <= p)%Q -> (p <= 10)%Q ->
                         (q == p)%Q.
Proof.
  unfold py_min, py_max. destruct x as [p| | |]; simpl.
  - destruct (Qlt_bool 1 p) eqn:H1; simpl.
    + destruct (Qlt_bool 10 p) eqn:H10.
      * exists 10%Q. split; [reflexivity|]. split; [done|]. split; [done|].
        intros ? [= <-] _ Hp. apply Qlt_bool_iff in H10.
        now apply Qlt_not_le in H10.
      * exists p. split; [reflexivity|]. apply Qlt_bool_iff in H1.
        split; [now apply Qlt_le_weak|].
        split; [|now intros ? [= <-]].
        apply Qnot_lt_le. intros H. apply Qlt_bool_iff in H. congruence.
    + exists 1%Q. split; [reflexivity|]. split; [done|]. split; [done|].
      intros ? [= <-] Hp _. apply Qle_antisym; [exact Hp|].
      apply Qnot_lt_le. intros H. apply Qlt_bool_iff in H. congruence.
  - exists 10%Q. repeat split; done.
  - exists 1%Q. repeat split; done.
  - exists 1%Q. repeat split; done.
Qed.

(** X12.  Whatever the form fields hold, [transcribe_audio_api] passes
    [transcribe_audio] a [srt_max_chars] from 20 to 120 and a finite
    [srt_max_duration] from 1.0 to 10.0, also for [nan] and [inf]: values
    inside the range pass as they are, values outside go to the nearer
    bound, and a field that is absent, blank or not a number gives 40 and
    1.5. *)
Theorem srt_parameters_clamped (py_int : str -> option Z)
    (py_float : str -> option float) (chars duration : option str) :
  (20 <= srt_max_chars_int py_int chars <= 120)
  /\ (forall s n, chars = Some s -> nonblank chars = true ->
         py_int s = Some n ->
         srt_max_chars_int py_int chars = Z.min (Z.max 20 n) 120)
  /\ (nonblank chars = false \/ (exists s, chars = Some s /\ py_int s = None)
      -> srt_max_chars_int py_int chars = 40)
  /\ (exists q, srt_max_duration_float py_float duration = Finite q
                /\ (1 <= q)%Q /\ (q <= 10)%Q
                /\ forall s p, duration = Some s ->
                     nonblank duration = true ->
                     py_float s = Some (Finite p) ->
                     (1 <= p)%Q -> (p <= 10)%Q -> (q == p)%Q)
  /\ (nonblank duration = false
      \/ (exists s, duration = Some s /\ py_float s = None)
      -> srt_max_duration_float py_float duration = Finite (3 # 2)).
Proof.
  split; [|split; [|split; [|split]]].
  - unfold srt_max_chars_int, py_min, py_max.
    destruct chars as [s|]; [|lia]. destruct (nonblank (Some s)); [|lia].
    destruct (py_int s) as [n|]; [|lia].
    destruct (20 <? n) eqn:H1; [destruct (120 <? n) eqn:H2|]; simpl; lia.
  - intros s n -> Hnb Hn. unfold srt_max_chars_int, py_min, py_max.
    rewrite Hnb, Hn.
    destruct (20 <? n) eqn:H1; [destruct (120 <? n) eqn:H2|]; simpl; lia.
  - unfold srt_max_chars_int. intros [Hnb|(s & -> & Hs)].
    + destruct chars; [now rewrite Hnb | reflexivity].
    + rewrite Hs. now destruct (nonblank (Some s)).
  - unfold srt_max_duration_float.
    destruct duration as [s|].
    2: { exists (3 # 2)%Q. repeat split; done. }
    destruct (nonblank (Some s)) eqn:Hnb.
    2: { exists (3 # 2)%Q. repeat split; done. }
    destruct (py_float s) as [x|] eqn:Hx.
    2: { exists (3 # 2)%Q. repeat split; try done. intros ? ? [= <-].
         congruence. }
    destruct (clamp_float x) as (q & Hq & H1 & H10 & Hid).
    exists q. split; [exact Hq|]. split; [exact H1|]. split; [exact H10|].
    intros s' p [= <-] _ Hp. rewrite Hx in Hp. injection Hp as ->.
    now apply Hid.
  - unfold srt_max_duration_float. intros [Hnb|(s & -> & Hs)].
    + destruct duration; [now rewrite Hnb | reflexivity].
    + rewrite Hs. now destruct (nonblank (Some s)).
Qed.

(** *** The quantization read off a file name *)

Lemma starts_with_longer p r : forall s,
  starts_with (p ++ r) s = true -> starts_with p s = true.
Proof.
  induction p as [|c p IH]; intros s H; [reflexivity|].
  destruct s as [|d s]; [discriminate|]. simpl in *.
  apply andb_prop in H as [Hc H]. rewrite Hc. simpl. now apply IH.
Qed.

Lemma contains_longer p r s :
  contains (p ++ r) s = true -> contains p s = true.
Proof.
  induction s as [|d s IH]; simpl; intros H.
  - rewrite orb_false_r in *. now apply starts_with_longer in H.
  - apply orb_prop in H as [H|H].
    + apply starts_with_longer in H. now rewrite H.
    + rewrite (IH H). apply orb_true_r.
Qed.

(** X13.  The quantization [list_available_models_api] reports for a
    model file is never [Q4_K_M] or [Q5_K_M]: a name that holds [q4_k_m]
    holds [q4_k], which the loop tries first and stops at.  It is one of
    the six other entries of the list, or none. *)
Theorem quantization_never_k_m (lower : str -> str) (name : str) :
  quantization lower name <> Some (lit "Q4_K_M")
  /\ quantization lower name <> Some (lit "Q5_K_M")
  /\ quantization lower name
     ∈ [None; Some (lit "Q2_K"); Some (lit "Q3_K"); Some (lit "Q4_K");
        Some (lit "Q5_K"); Some (lit "Q6_K"); Some (lit "Q8_0")].
Proof.
  unfold quantization, quants. generalize (lower name). intros n.
  cbn [first_quant].
  pose proof (contains_longer (lit "q4_k") (lit "_m") n) as H4.
  pose proof (contains_longer (lit "q5_k") (lit "_m") n) as H5.
  change (lit "q4_k" ++ lit "_m") with (lit "q4_k_m") in H4.
  change (lit "q5_k" ++ lit "_m") with (lit "q5_k_m") in H5.
  destruct (contains (lit "q2_k") n);
    [split; [discriminate|]; split; [discriminate|];
     do 1 apply list_elem_of_further; apply list_elem_of_here|].
  destruct (contains (lit "q3_k") n);
    [split; [discriminate|]; split; [discriminate|];
     do 2 apply list_elem_of_further; apply list_elem_of_here|].
  destruct (contains (lit "q4_k") n);
    [split; [discriminate|]; split; [discriminate|];
     do 3 apply list_elem_of_further; apply list_elem_of_here|].
  destruct (contains (lit "q4_k_m") n); [now specialize (H4 eq_refl)|].
  destruct (contains (lit "q5_k") n);
    [split; [discriminate|]; split; [discriminate|];
     do 4 apply list_elem_of_further; apply list_elem_of_here|].
  destruct (contains (lit "q5_k_m") n); [now specialize (H5 eq_refl)|].
  destruct (contains (lit "q6_k") n);
    [split; [discriminate|]; split; [discriminate|];
     do 5 apply list_elem_of_further; apply list_elem_of_here|].
  destruct (contains (lit "q8_0") n);
    [split; [discriminate|]; split; [discriminate|];
     do 6 apply list_elem_of_further; apply list_elem_of_here|].
  split; [discriminate|]. split; [discriminate|]. apply list_elem_of_here.
Qed.

Example quantization_q4_k_m :
  quantization Sockets.ascii_lower (lit "LeoLM-13b-chat.Q4_K_M.gguf")
  = Some (lit "Q4_K").
Proof. vm_compute. reflexivity. Qed.

End Api.

(** ** [format_duration] *)

Module Duration.

Import Api.

(** The number formatting and the float division the function applies to
    a finite number of seconds. *)
Record formats := {
  fmt_ms : float -> str;        (* f"{seconds * 1000:.0f}" *)
  fmt_2f : float -> str;        (* f"{seconds:.2f}" *)
  fmt_1f : Q -> str;            (* f"{rem_seconds:.1f}" *)
  fmt_int : Q -> str;           (* f"{int(minutes)}" *)
  divmod60 : Q -> Q * Q         (* divmod(x, 60) *)
}.

(** What [divmod(x, 60)] gives: finite floats, or NaN for both parts when
    [x] is infinite or NaN. *)
Inductive part := Part (q : Q) | NotANumber.

Definition float_of (p : part) : float :=
  match p with Part q => Finite q | NotANumber => NaN end.

Definition divmod (F : formats) (x : float) : part * part :=
  match x with
  | Finite q => let '(a, b) := divmod60 F q in (Part a, Part b)
  | _ => (NotANumber, NotANumber)
  end.

(** [f"{int(x)}"]. *)
Definition int_of (F : formats) (x : part) : res str :=
  match x with
  | Part q => Ok (fmt_int F q)
  | NotANumber =>
      Raise (Exn ValueError (lit "cannot convert float NaN to integer"))
  end.

(** [f"{x:.1f}"]. *)
Definition one_decimal (F : formats) (x : part) : str :=
  match x with
  | Part q => fmt_1f F q
  | NotANumber => lit "nan"
  end.

(** The float the literal [0.001] denotes. *)
Definition millisecond : Q := 1152921504606847 # 1152921504606846976.

(** [format_duration(seconds)]; [seconds] is [None] or an object that
    [float()] answers with a float or an exception. *)
Definition format_duration (F : formats) (seconds : option (res float))
    : res (option str) :=
  match seconds with
  | None => Ok None
  | Some (Raise e) =>
      match exn_cls e with
      | TypeError | ValueError => Ok None
      | _ => Raise e
      end
  | Some (Ok seconds) =>
      if flt seconds (Finite 0) then Ok None
      else if flt seconds (Finite millisecond) then Ok (Some (lit "<1 ms"))
      else if flt seconds (Finite 1) then
        Ok (Some (fmt_ms F seconds ++ lit " ms"))
      else if flt seconds (Finite 60) then
        Ok (Some (fmt_2f F seconds ++ lit " s"))
      else
        let '(minutes, rem_seconds) := divmod F seconds in
        if flt (float_of minutes) (Finite 60) then
          match int_of F minutes with
          | Ok m => Ok (Some (m ++ lit "m " ++ one_decimal F rem_seconds
                              ++ lit "s"))
          | Raise e => Raise e
          end
        else
          let '(hours, rem_minutes) := divmod F (float_of minutes) in
          match int_of F hours with
          | Raise e => Raise e
          | Ok h =>
              match int_of F rem_minutes with
              | Raise e => Raise e
              | Ok m =>
                  Ok (Some (h ++ lit "h " ++ m ++ lit "m "
                            ++ one_decimal F rem_seconds ++ lit "s"))
              end
          end
  end.

(** X14.  [format_duration] gives [None] for [None], for what [float()]
    refuses with [TypeError] or [ValueError], and for a negative number,
    minus infinity included; a string for every finite number from zero
    on; and for NaN and plus infinity it raises [ValueError]: every
    comparison is false, [divmod] gives NaN twice and [int] refuses it. *)
Theorem format_duration_outcomes (F : formats) :
  format_duration F None = Ok None
  /\ (forall e, exn_cls e = TypeError \/ exn_cls e = ValueError ->
        format_duration F (Some (Raise e)) = Ok None)
  /\ format_duration F (Some (Ok NegInf)) = Ok None
  /\ (forall q, (q < 0)%Q -> format_duration F (Some (Ok (Finite q))) = Ok None)
  /\ (forall q, (0 <= q)%Q ->
        exists s, format_duration F (Some (Ok (Finite q))) = Ok (Some s))
  /\ (forall x, x = NaN \/ x = PosInf ->
        format_duration F (Some (Ok x))
        = Raise (Exn ValueError (lit "cannot convert float NaN to integer"))).
Proof.
  split; [reflexivity|]. split.
  { intros e [H|H]; simpl; now rewrite H. }
  split; [reflexivity|]. split.
  { intros q Hq. unfold format_duration. cbn [flt].
    apply Qlt_bool_iff in Hq. now rewrite Hq. }
  split.
  - intros q Hq. unfold format_duration. cbn [flt].
    assert (H0 : Qlt_bool q 0 = false).
    { destruct (Qlt_bool q 0) eqn:H; [|reflexivity].
      apply Qlt_bool_iff in H. now apply Qlt_not_le in H. }
    rewrite H0. destruct (Qlt_bool q millisecond); [eauto|].
    destruct (Qlt_bool q 1); [eauto|]. destruct (Qlt_bool q 60); [eauto|].
    unfold divmod at 1. destruct (divmod60 F q) as [a b].
    cbn [flt float_of]. destruct (Qlt_bool a 60); cbn [int_of]; [eauto|].
    unfold divmod. destruct (divmod60 F a) as [h m]. cbn [int_of]. eauto.
  - intros x [-> | ->]; reflexivity.
Qed.

End Duration.

(** ** Two endpoints that use names the module never binds:
    [browse_directories] and [check_batch_processing_space] *)

Module Pages.

Import Run.

(** What an endpoint raises: [NameError] for a global name that is bound
    nowhere in the module, or an exception of a call. *)
Inductive raised :=
| NameError (name : string)
| Raised (e : exn).

(** [str(e)]. *)
Definition str_of (r : raised) : str :=
  match r with
  | NameError name => lit "name '" ++ lit name ++ lit "' is not defined"
  | Raised e => exn_str e
  end.

(** The content of a JSON response, as far as these endpoints fill it. *)
Record content := {
  success : option bool;
  error : option str;
  current_path : option (option str);
  directories : option (list (str * str))     (* path and name *)
}.

Record response := { status_code : Z; body : content }.

Definition server_error (r : raised) : response :=
  {| status_code := 500;
     body := {| success := Some false; error := Some (str_of r);
                current_path := None; directories := None |} |}.

Record env := {
  home : res str;                        (* str(Path.home()) *)
  default_directory : res value;         (* config["output"]["default_directory"] *)
  path_exists : str -> bool;             (* os.path.exists *)
  isdir : str -> bool;                   (* os.path.isdir *)
  listdir : str -> res (list str)        (* os.listdir *)
}.

(** [a < b] on strings: by code points, the shorter first. *)
Fixpoint str_lt (a b : str) : bool :=
  match a, b with
  | _, [] => false
  | [], _ :: _ => true
  | x :: a', y :: b' => (x <? y)%N || ((x =? y)%N && str_lt a' b')
  end.

(** [directories.sort(key=lambda x: x["name"])]: a stable sort, entries
    with equal names staying in their order. *)
Fixpoint insert_by_name (d : str * str) (ds : list (str * str))
    : list (str * str) :=
  match ds with
  | [] => [d]
  | d' :: ds' =>
      if str_lt (snd d') (snd d) then d' :: insert_by_name d ds'
      else d :: ds
  end.

Definition sort_by_name (ds : list (str * str)) : list (str * str) :=
  foldr insert_by_name [] ds.

(** Lines 356 to 360: the sub-directories among the entries of [path]. *)
Fixpoint subdirectories (E : env) (path : str) (items : list str)
    : list (str * str) :=
  match items with
  | [] => []
  | item :: items' =>
      let item_path := LibraryPath.join2 path item in
      if isdir E item_path
      then (item_path, item) :: subdirectories E path items'
      else subdirectories E path items'
  end.

(** The body of the [try] of [browse_directories]. *)
Definition browse_body (E : env) (path : option str)
    : raised + response :=
  match path with
  | None | Some [] =>
      match home E with
      | Raise e => inl (Raised e)
      | Ok home_dir =>
          match default_directory E with
          | Raise e => inl (Raised e)
          | Ok output_dir =>
              (* platform.system() *)
              inl (NameError "platform")
          end
      end
  | Some (c :: p) =>
      let path := c :: p in
      if negb (path_exists E path) || negb (isdir E path) then
        inr {| status_code := 400;
               body := {| success := None;
                          error := Some (lit "Pfad existiert nicht oder ist kein Verzeichnis: "
                                         ++ path);
                          current_path := None; directories := None |} |}
      else
        match listdir E path with
        | Raise e => inl (Raised e)
        | Ok items =>
            inr {| status_code := 200;
                   body := {| success := Some true; error := None;
                              current_path := Some (Some path);
                              directories :=
                                Some (sort_by_name
                                        (subdirectories E path items)) |} |}
        end
  end.

(** [browse_directories(path)]. *)
Definition browse_directories (E : env) (path : option str) : response :=
  match browse_body E path with
  | inr r => r
  | inl e => server_error e
  end.

(** [check_batch_processing_space()]: the two imports, the calls inside
    the [try] up to the comparison, and [jsonify] in the [try] and in the
    handler. *)
Definition check_batch_processing_space (imports inside : res unit)
    : raised + response :=
  match imports with
  | Raise e => inl (Raised e)
  | Ok _ =>
      match (match inside with
             | Raise e => inl (Raised e)
             | Ok _ => inl (NameError "jsonify")
             end : raised + response) with
      | inr r => inr r
      | inl e => inl (NameError "jsonify")
      end
  end.

(** *** The order of names *)

Lemma str_lt_cons x a y b :
  str_lt (x :: a) (y :: b) = true
  <-> (x < y)%N \/ (x = y /\ str_lt a b = true).
Proof.
  simpl. rewrite orb_true_iff, andb_true_iff, N.ltb_lt, N.eqb_eq. tauto.
Qed.

Lemma str_lt_asym a : forall b, str_lt a b = true -> str_lt b a = false.
Proof.
  induction a as [|x a IH]; intros [|y b] H; try reflexivity;
    try discriminate.
  apply str_lt_cons in H. apply not_true_is_false. intros H'.
  apply str_lt_cons in H'.
  destruct H as [H|[-> H]], H' as [H'|[H0 H']]; try lia.
  apply IH in H. congruence.
Qed.

(** Names that are not below one another are so along a chain. *)
Lemma str_lt_between a : forall b c,
  str_lt a c = true -> str_lt a b = true \/ str_lt b c = true.
Proof.
  induction a as [|x a IH]; intros b c H.
  - destruct c as [|z c]; [discriminate|].
    destruct b as [|y b]; [now right | now left].
  - destruct c as [|z c]; [discriminate|]. apply str_lt_cons in H.
    destruct b as [|y b]; [now right|].
    rewrite !str_lt_cons.
    destruct H as [H|[-> H]].
    + destruct (N.lt_trichotomy x y) as [Hxy|[->|Hxy]]; [tauto|tauto|].
      right. left. lia.
    + destruct (N.lt_trichotomy z y) as [Hzy|[->|Hzy]]; [tauto| |tauto].
      destruct (IH b c H); tauto.
Qed.

Definition in_order (d d' : str * str) : Prop := str_lt (snd d') (snd d) = false.

Lemma insert_by_name_perm d ds : insert_by_name d ds ≡ₚ d :: ds.
Proof.
  induction ds as [|d' ds IH]; [reflexivity|]. simpl.
  destruct (str_lt (snd d') (snd d)); [|reflexivity].
  rewrite IH. apply Permutation_swap.
Qed.

Lemma insert_by_name_sorted d ds :
  StronglySorted in_order ds -> StronglySorted in_order (insert_by_name d ds).
Proof.
  induction ds as [|d' ds IH]; intros Hs; simpl.
  - repeat constructor.
  - apply StronglySorted_inv in Hs as [Hs Hall].
    destruct (str_lt (snd d') (snd d)) eqn:Hlt.
    + constructor; [now apply IH|].
      rewrite insert_by_name_perm. constructor; [|exact Hall].
      unfold in_order. now apply str_lt_asym.
    + constructor; [now constructor|]. constructor; [exact Hlt|].
      eapply Forall_impl; [exact Hall|]. intros e He. unfold in_order in *.
      apply not_true_is_false. intros H.
      destruct (str_lt_between _ (snd d') _ H); congruence.
Qed.

Lemma sort_by_name_perm ds : sort_by_name ds ≡ₚ ds.
Proof.
  induction ds as [|d ds IH]; [reflexivity|]. simpl.
  now rewrite insert_by_name_perm, IH.
Qed.

Lemma sort_by_name_sorted ds : StronglySorted in_order (sort_by_name ds).
Proof.
  induction ds as [|d ds IH]; [constructor|]. simpl.
  now apply insert_by_name_sorted.
Qed.

Lemma subdirectories_spec E path items d :
  d ∈ subdirectories E path items
  <-> exists item, item ∈ items /\ d = (LibraryPath.join2 path item, item)
                   /\ isdir E (LibraryPath.join2 path item) = true.
Proof.
  induction items as [|item items IH]; simpl.
  - split; [intros H; now apply elem_of_nil in H|].
    intros (item & H & _). now apply elem_of_nil in H.
  - destruct (isdir E (LibraryPath.join2 path item)) eqn:Hd.
    + rewrite elem_of_cons, IH. split.
      * intros [->|(i & Hi & -> & Hdi)].
        -- exists item. split; [now left | now split].
        -- exists i. split; [now right | now split].
      * intros (i & [->|Hi]%elem_of_cons & -> & Hdi); [now left|].
        right. exists i. now split.
    + rewrite IH. split.
      * intros (i & Hi & -> & Hdi). exists i. split; [now right | now split].
      * intros (i & [->|Hi]%elem_of_cons & -> & Hdi); [congruence|].
        exists i. now split.
Qed.

(** X15.  For a path that is an existing directory which can be listed,
    [browse_directories] answers 200 with the entries of the directory that
    are directories themselves, each with its joined path and its name, no
    other entry, in the order of their names. *)
Theorem browse_lists_subdirectories (E : env) (c : N) (p : str)
    (items : list str) :
  path_exists E (c :: p) = true -> isdir E (c :: p) = true ->
  listdir E (c :: p) = Ok items ->
  exists ds,
    browse_directories E (Some (c :: p))
    = {| status_code := 200;
         body := {| success := Some true; error := None;
                    current_path := Some (Some (c :: p));
                    directories := Some ds |} |}
    /\ StronglySorted in_order ds
    /\ ds ≡ₚ subdirectories E (c :: p) items
    /\ forall d, d ∈ ds
         <-> exists item,
               item ∈ items /\ d = (LibraryPath.join2 (c :: p) item, item)
               /\ isdir E (LibraryPath.join2 (c :: p) item) = true.
Proof.
  intros He Hd Hl. exists (sort_by_name (subdirectories E (c :: p) items)).
  unfold browse_directories, browse_body. rewrite He, Hd, Hl.
  split; [reflexivity|]. split; [apply sort_by_name_sorted|].
  split; [apply sort_by_name_perm|].
  intros d. rewrite sort_by_name_perm. apply subdirectories_spec.
Qed.

(** A directory with two sub-directories and a file. *)
Definition music : env :=
  {| home := Ok (lit "/home/me");
     default_directory := Ok (VStr (lit "/home/me/transcriptions"));
     path_exists := fun _ => true;
     isdir := fun p => negb (ends_with (lit ".wav") p);
     listdir := fun _ => Ok [lit "talks"; lit "a.wav"; lit "Albums"] |}.

Lemma browse_lists_subdirectories_witness :
  exists ds,
    browse_directories music (Some (lit "/data"))
    = {| status_code := 200;
         body := {| success := Some true; error := None;
                    current_path := Some (Some (lit "/data"));
                    directories := Some ds |} |}
    /\ ds = [(lit "/data/Albums", lit "Albums");
             (lit "/data/talks", lit "talks")].
Proof.
  destruct (browse_lists_subdirectories music 47%N (lit "data")
              [lit "talks"; lit "a.wav"; lit "Albums"]
              eq_refl eq_refl eq_refl) as (ds & Hr & _).
  exists ds. split; [exact Hr|].
  vm_compute in Hr. now injection Hr as <-.
Defined.

(** X16.  Without a path (none, or the empty string) [browse_directories]
    never lists the default directories: the branch asks [platform.system()]
    and the module binds no name [platform], so every such call is answered
    with status 500 and [success] false; when the home directory and the
    configured output directory are found, the error is that of the missing
    name. *)
Theorem browse_without_path_fails (E : env) (path : option str) :
  path = None \/ path = Some [] ->
  exists r,
    browse_directories E path = server_error r
    /\ (forall home_dir output_dir,
          home E = Ok home_dir -> default_directory E = Ok output_dir ->
          r = NameError "platform").
Proof.
  intros Hp. unfold browse_directories, browse_body.
  assert (H : exists r,
            match
              match home E with
              | Ok _ =>
                  match default_directory E with
                  | Ok _ => inl (NameError "platform")
                  | Raise e => inl (Raised e)
                  end
              | Raise e => inl (Raised e)
              end
            with
            | inl e => server_error e
            | inr r => r
            end = server_error r
            /\ (forall home_dir output_dir,
                  home E = Ok home_dir -> default_directory E = Ok output_dir ->
                  r = NameError "platform")).
  { destruct (home E) as [h|e]; [|exists (Raised e); now split].
    destruct (default_directory E) as [o|e]; [|exists (Raised e); now split].
    exists (NameError "platform"). now split. }
  destruct Hp as [-> | ->]; exact H.
Qed.

Lemma browse_without_path_fails_witness :
  browse_directories music None = server_error (NameError "platform").
Proof.
  destruct (browse_without_path_fails music None (or_introl eq_refl))
    as (r & Hr & Hname).
  now rewrite Hr, (Hname _ _ eq_refl eq_refl).
Defined.

(** X17.  [check_batch_processing_space] never answers: whatever the disk
    check inside gives, the [try] ends at the unbound name [jsonify], the
    handler that catches this asks for [jsonify] again, and the
    [NameError] leaves the endpoint. *)
Theorem batch_check_always_raises (imports inside : res unit) :
  (forall r, check_batch_processing_space imports inside <> inr r)
  /\ (imports = Ok tt ->
      check_batch_processing_space imports inside
      = inl (NameError "jsonify")).
Proof.
  unfold check_batch_processing_space. split.
  - intros r. destruct imports as [[]|e]; [|discriminate].
    destruct inside as [[]|e]; discriminate.
  - intros ->. now destruct inside as [[]|e].
Qed.

End Pages.

(** ** More on the two pipelines: what a job leaves behind *)

Module Jobs.

Import Models Run Transcribe Chunked Facts.
Local Open Scope run_scope.

Section Jobs.

Variable R : runtime.

(** *** A source file that is not there *)

Lemma missing_file_run chunked (E : Transcribe.env) (a : args) (w : world)
    (cfg : loc) (fmt : OutputFormat) (m : WhisperModel) :
  config a = Some cfg \/ (config a = None /\ load_config E = Ok cfg) ->
  to_format (output_format a) = Ok fmt ->
  to_model E (model a) = Ok m ->
  exists_audio E (audio_path a) = false ->
  transcribe_audio_with R chunked E a w
  = (Ok (failed (lit "Audio file not found: " ++ audio_path a)), w).
Proof.
  intros Hcfg Hfmt Hm Hex. unfold transcribe_audio_with, prelude.
  assert (Hr : resolve_config E a w = (Ok cfg, w)).
  { unfold resolve_config. destruct Hcfg as [-> | [-> Hl]]; [reflexivity|].
    unfold lift. now rewrite Hl. }
  rewrite !bind_run, Hr. rewrite bind_run, Hfmt. cbn [lift].
  rewrite bind_run, Hm. cbn [lift]. rewrite Hex. reflexivity.
Qed.

(** X18.  For a source file that does not exist, [transcribe_audio] returns
    the failed result that names the file and does nothing else: no event
    is published, no process is started, no file is written and the
    configuration is as it was. *)
Theorem missing_audio_touches_nothing (E : Chunked.env) (a : args)
    (w : world) (cfg : loc) (fmt : OutputFormat) (m : WhisperModel) :
  config a = Some cfg \/ (config a = None /\ load_config (base E) = Ok cfg) ->
  to_format (output_format a) = Ok fmt ->
  to_model (base E) (model a) = Ok m ->
  exists_audio (base E) (audio_path a) = false ->
  transcribe_audio R E a w
  = (Ok {| success := false; text := None; segments := None;
           output_file := None;
           error := Some (lit "Audio file not found: " ++ audio_path a);
           Models.language := None; Models.model := None; stderr := None |},
     w).
Proof. intros. unfold transcribe_audio. now apply missing_file_run with cfg fmt m. Qed.

End Jobs.

(** A job whose source file, and every chunk of it, is not there. *)
Definition nothing_there : Chunked.env :=
  {| base := Sample.missing;
     split_audio := fun _ =>
       Ok [{| path := lit "/tmp/chunks/chunk_000.wav";
              filename := lit "chunk_000.wav"; start_time := NInt 0 |};
           {| path := lit "/tmp/chunks/chunk_001.wav";
              filename := lit "chunk_001.wav"; start_time := NInt 1190 |}];
     merge_transcriptions := fun _ => Ok [];
     cleanup_chunks := fun _ => Ok tt; reload_config := Ok 1%positive;
     chunk_env := fun _ => Sample.missing |}.

Lemma missing_audio_touches_nothing_witness :
  transcribe_audio Sample.posix nothing_there
    (Sample.request (lit "/in/gone.wav") (lit "txt")) Sample.configured
  = (Ok (failed (lit "Audio file not found: /in/gone.wav")),
     Sample.configured).
Proof.
  refine (missing_audio_touches_nothing Sample.posix nothing_there
            (Sample.request (lit "/in/gone.wav") (lit "txt"))
            Sample.configured 1%positive TXT
            {| model_value := lit "large-v3-turbo" |}
            (or_introl eq_refl) eq_refl _ _); vm_compute; reflexivity.
Defined.

#[local] Hint Resolve steady_ret steady_raise steady_lift steady_publish
  steady_perform steady_set_process steady_get_heap steady_py_in
  steady_py_item steady_py_get2 : steady.

Section Endings.

Variable R : runtime.

(** *** How a chunked job ends *)

Definition completed_event (a : args) (output_path : str) (total : nat)
    (merged_text : str) : event :=
  Event TRANSCRIPTION_COMPLETED
    [("audio_path"%string, VStr (audio_path a));
     ("output_path"%string, VStr output_path);
     ("chunks"%string, VNum (num_of_nat total));
     ("text"%string, VStr merged_text)].

Definition failed_event (a : args) (error_msg : str) : event :=
  Event TRANSCRIPTION_FAILED (failed_payload (audio_path a) error_msg).

Lemma grows_events w w' : grows w w' -> exists evs, events w' = events w ++ evs.
Proof. now intros [H _]. Qed.

(** What [after_loop] returns, and the event it publishes last. *)
Lemma after_loop_inv (E : Chunked.env) a cfg fmt m chunks acc w r w' :
  after_loop R E a cfg fmt m chunks acc w = (Ok r, w') ->
  exists merged output_path evs,
    merge_transcriptions E (chunk_transcriptions acc) = Ok merged
    /\ r = {| success := true; text := Some merged;
              segments := Some (all_segments acc);
              output_file := Some output_path; error := None;
              Models.language := language a;
              Models.model := Some (model_value m); stderr := None |}
    /\ events w'
       = events w ++ evs
         ++ [completed_event a output_path (length chunks) merged].
Proof.
  unfold after_loop. cbv zeta. intros H.
  apply bind_ok_inv in H as (merged & w1 & [Hm ->]%lift_inv & H).
  apply bind_ok_inv in H as (output_path & w2 & Hp & H).
  apply bind_ok_inv in H as ([] & w3 & [_ ->]%lift_inv & H).
  apply bind_ok_inv in H as ([] & w4 & Hw & H).
  apply bind_ok_inv in H as ([] & w5 & Hc & H).
  apply bind_ok_inv in H as ([] & w6 & Hpub%publish_inv & H).
  apply bind_ok_inv in H as ([] & w7 & Ha & H).
  injection H as <- <-.
  assert (G2 : grows w w2).
  { eapply steady_run; [|exact Hp]. steady_all. }
  assert (G4 : grows w2 w4).
  { eapply steady_run; [|exact Hw]. apply steady_write_merged. }
  assert (G5 : grows w4 w5).
  { eapply steady_run; [|exact Hc]. steady_all. }
  assert (E7 : events w7 = events w6).
  { revert Ha. unfold attempt, bind, lift, perform.
    destruct (reload_config E); [|now intros [= <-]].
    destruct (cleanup_after_transcription (base E) (audio_path a));
      now intros [= <-]. }
  destruct (grows_events _ _ (grows_trans _ _ _ G2 (grows_trans _ _ _ G4 G5)))
    as [evs Hevs].
  exists merged, output_path, evs. split; [exact Hm|]. split; [reflexivity|].
  rewrite E7, Hpub, Hevs. now rewrite <- app_assoc.
Qed.

Lemma chunked_prelude_inv (E : Chunked.env) a w cfg fmt m w1 :
  chunked_prelude E a w = (Ok (cfg, fmt, m), w1) -> w1 = w.
Proof.
  unfold chunked_prelude, resolve_config. intros H.
  apply bind_ok_inv in H as (c & w2 & Hc & H).
  assert (w2 = w) as ->.
  { destruct (config a); [now injection Hc | now apply lift_inv in Hc]. }
  apply bind_ok_inv in H as (f & w2 & [_ ->]%lift_inv & H).
  apply bind_ok_inv in H as (m' & w2 & [_ ->]%lift_inv & H).
  apply bind_ok_inv in H as ([] & w2 & [_ ->]%lift_inv & H).
  now injection H.
Qed.

(** The body of the [try], taken apart: the chunks, what the loop
    collected, and the run of [after_loop]. *)
Lemma chunked_body_inv (E : Chunked.env) a cfg fmt m tid w r w' :
  chunked_body R E a cfg fmt m tid w = (Ok r, w') ->
  exists chunks acc w1 w2,
    split_audio E (audio_path a) = Ok chunks
    /\ grows w w1
    /\ chunk_loop R E a cfg m tid (length chunks) 0 chunks nothing_yet w1
       = (Ok acc, w2)
    /\ after_loop R E a cfg fmt m chunks acc w2 = (Ok r, w').
Proof.
  unfold chunked_body. cbv zeta. intros H.
  apply bind_ok_inv in H as (d & wa & [_ ->]%lift_inv & H).
  apply bind_ok_inv in H as ([] & wb & Hb & H).
  apply bind_ok_inv in H as ([] & wc & Hc & H).
  apply bind_ok_inv in H as ([] & wd & Hd & H).
  apply bind_ok_inv in H as (chunks & we & [Hs ->]%lift_inv & H).
  apply bind_ok_inv in H as ([] & wf & Hf & H).
  apply bind_ok_inv in H as ([] & wg & Hg & H).
  apply bind_ok_inv in H as (acc & wh & Hloop & H).
  exists chunks, acc, wg, wh. split; [exact Hs|]. split; [|now split].
  pose proof (steady_run _ _ _ _ (steady_publish _ _) Hb).
  pose proof (steady_run _ _ _ _ (steady_publish _ _) Hc).
  pose proof (steady_run _ _ _ _ (steady_publish _ _) Hd).
  pose proof (steady_run _ _ _ _ (steady_publish _ _) Hf).
  pose proof (steady_run _ _ _ _ (steady_publish _ _) Hg).
  eauto using grows_trans.
Qed.


End Endings.


(** The closing events of the job of [Sample.three_chunks]: one of each
    chunk that was transcribed, and the one of the job. *)
Example three_chunks_closing_events :
  omap (fun e => match event_type e with
                 | TRANSCRIPTION_COMPLETED | TRANSCRIPTION_FAILED =>
                     Some (event_type e, get "audio_path" (data e))
                 | _ => None
                 end)
    (events (snd (transcribe_audio_chunked Sample.posix Sample.three_chunks
                    Facts.talk Sample.configured)))
  = [(TRANSCRIPTION_COMPLETED,
      Some (VStr (lit "/out/temp/chunks/chunk_000.wav")));
     (TRANSCRIPTION_COMPLETED,
      Some (VStr (lit "/out/temp/chunks/chunk_002.wav")));
     (TRANSCRIPTION_COMPLETED, Some (VStr (lit "/in/talk.wav")))].
Proof. vm_compute. reflexivity. Qed.

Section AllFail.

Variable R : runtime.

(** *** A job none of whose chunks can be transcribed *)

Definition not_found_event (k : nat) (c : chunk_info) : event :=
  chunk_failed_event (S k) (Some (lit "Audio file not found: " ++ path c)).

Lemma all_fail_loop (E : Chunked.env) a cfg m tid total chunks :
  (forall i p, exists_audio (chunk_env E i) p = false) ->
  forall i acc w acc' w',
    chunk_loop R E a cfg m tid total i chunks acc w = (Ok acc', w') ->
    chunk_transcriptions acc' = chunk_transcriptions acc
    /\ all_segments acc' = all_segments acc
    /\ forall k c, chunks !! k = Some c ->
         not_found_event (i + k) c ∈ events w'.
Proof.
  intros Hgone. induction chunks as [|c chunks IH]; intros i acc w acc' w' H.
  - injection H as <- <-. split; [reflexivity|]. split; [reflexivity|].
    intros k c Hk. now rewrite lookup_nil in Hk.
  - cbn [chunk_loop] in H.
    apply bind_ok_inv in H as ([] & w1 & _ & H).
    apply bind_ok_inv in H as (cc & w2 & _ & H).
    apply bind_ok_inv in H as (cr & w3 & Hi & H).
    rewrite (missing_file_run R too_deep (chunk_env E i)
               (chunk_args a m c cc) w2 cc JSON m
               (or_introl eq_refl) eq_refl eq_refl (Hgone i _)) in Hi.
    injection Hi as <- <-.
    apply bind_ok_inv in H as (acc1 & w4 & Hc & H).
    rewrite collect_failed in Hc by reflexivity. injection Hc as <- <-.
    pose proof (steady_run _ _ _ _
                  (steady_chunk_loop R E a cfg m tid total (S i) chunks _) H)
      as G.
    apply IH in H as (Ht & Hs & Hev).
    split; [exact Ht|]. split; [exact Hs|].
    intros [|k] c' Hk; simpl in Hk.
    + injection Hk as <-. rewrite Nat.add_0_r.
      destruct G as [[evs Hevs] _]. rewrite Hevs. cbn [events].
      rewrite !elem_of_app. left. right. now apply list_elem_of_singleton.
    + replace (i + S k)%nat with (S i + k)%nat by lia. now apply Hev.
Qed.

(** X20.  A job none of whose chunks can be transcribed still succeeds:
    when no chunk file is found, [transcribe_audio_chunked] publishes a
    [CHUNK_FAILED] event for every chunk, gives [merge_transcriptions] the
    empty list, and, no exception being raised, returns [success=True] with
    the text made of nothing and no segments. *)
Theorem all_chunks_failing_still_succeeds (E : Chunked.env) (a : args)
    (w : world) (r : TranscriptionResult) (w' : world) :
  (forall i p, exists_audio (chunk_env E i) p = false) ->
  transcribe_audio_chunked R E a w = (Ok r, w') ->
  success r = true ->
  exists chunks merged,
    split_audio E (audio_path a) = Ok chunks
    /\ merge_transcriptions E [] = Ok merged
    /\ text r = Some merged
    /\ segments r = Some []
    /\ forall k c, chunks !! k = Some c -> not_found_event k c ∈ events w'.
Proof.
  intros Hgone Hrun Hs. unfold transcribe_audio_chunked in Hrun.
  apply bind_ok_inv in Hrun as ([[cfg fmt] m] & w1 & _ & Hrun).
  set (tid := take 8 _) in Hrun. unfold catch in Hrun.
  destruct (chunked_body R E a cfg fmt m tid w1) as [[r0|e] w2] eqn:Hbody.
  2: { unfold on_chunked_exception in Hrun. cbv zeta in Hrun.
       apply bind_ok_inv in Hrun as (? & ? & _ & Hrun).
       injection Hrun as <- _. discriminate. }
  injection Hrun as -> ->.
  destruct (chunked_body_inv R _ _ _ _ _ _ _ _ _ Hbody)
    as (chunks & acc & wa & wb & Hsplit & _ & Hloop & Hafter).
  destruct (all_fail_loop E a cfg m tid _ chunks Hgone _ _ _ _ _ Hloop)
    as (Ht & Hsg & Hev).
  pose proof (steady_run _ _ _ _
                (steady_after_loop R E a cfg fmt m chunks acc) Hafter) as G.
  destruct (after_loop_inv R _ _ _ _ _ _ _ _ _ _ Hafter)
    as (merged & output_path & evs & Hm & -> & _).
  rewrite Ht in Hm. exists chunks, merged.
  split; [exact Hsplit|]. split; [exact Hm|]. split; [reflexivity|].
  split; [cbn [segments]; now rewrite Hsg|].
  intros k c Hk. destruct G as [[evs' ->] _].
  apply elem_of_app. left. now apply (Hev k c).
Qed.

End AllFail.

Lemma all_chunks_failing_still_succeeds_witness :
  exists r w',
    transcribe_audio_chunked Sample.posix nothing_there Facts.talk
      Sample.configured = (Ok r, w')
    /\ success r = true /\ text r = Some []
    /\ not_found_event 1
         {| path := lit "/tmp/chunks/chunk_001.wav";
            filename := lit "chunk_001.wav"; start_time := NInt 1190 |}
       ∈ events w'.
Proof.
  destruct (transcribe_audio_chunked Sample.posix nothing_there Facts.talk
              Sample.configured) as [[r|e] w'] eqn:Hrun.
  2: { vm_compute in Hrun. discriminate. }
  exists r, w'. split; [reflexivity|].
  assert (Hs : success r = true).
  { pose proof Hrun as H. vm_compute in H. now injection H as <- _. }
  destruct (all_chunks_failing_still_succeeds Sample.posix nothing_there
              Facts.talk Sample.configured r w' ltac:(reflexivity) Hrun Hs)
    as (chunks & merged & Hsplit & Hm & Ht & _ & Hev).
  split; [exact Hs|]. injection Hm as <-. split; [exact Ht|].
  injection Hsplit as <-. now apply (Hev 1%nat).
Defined.

Section Afterwards.

Variable R : runtime.

(** *** The next job under the same configuration *)

(** A job that gets to its first chunk leaves the caller's configuration
    with chunking disabled. *)
Lemma job_disables_chunking (E : Chunked.env) (a : args) (w : world)
    (cfg l : loc) (d dl : dict) (fmt : OutputFormat) (m : WhisperModel)
    (duration : number) (c : chunk_info) (chunks : list chunk_info) :
  config a = Some cfg ->
  heap w !! cfg = Some d ->
  d !! "chunking" = Some (VRef l) ->
  heap w !! l = Some dl ->
  to_format (output_format a) = Ok fmt ->
  to_model (base E) (model a) = Ok m ->
  new_chunker (base E) = Ok tt ->
  get_audio_duration (base E) (audio_path a) = Ok duration ->
  split_audio E (audio_path a) = Ok (c :: chunks) ->
  disabled_at cfg l (heap (snd (transcribe_audio_chunked R E a w))).
Proof.
  intros Hcfg Hd Hc Hl Hfmt Hm Hnew Hdur Hsplit.
  unfold transcribe_audio_chunked, chunked_prelude, resolve_config.
  rewrite Hcfg, Hfmt, Hm, Hnew. rewrite !bind_run. cbn [ret lift].
  set (tid := take 8 _).
  apply grows_disabled with
    (snd (chunked_body R E a cfg fmt m tid w)).
  { apply (snd_catch_grows _ _ _
             (steady_on_chunked_exception (audio_path a))). }
  unfold chunked_body. cbv zeta. rewrite Hdur, Hsplit.
  rewrite bind_run. cbn [lift].
  repeat (rewrite bind_run; cbn [publish lift]).
  set (w0 := {| events := _ |}).
  assert (Hh0 : heap w0 = heap w) by reflexivity.
  clearbody w0.
  eapply grows_disabled.
  { apply (snd_bind_grows _ _ _
             (fun acc => steady_after_loop R E a cfg fmt m (c :: chunks) acc)). }
  cbn [chunk_loop]. rewrite bind_run.
  destruct (announce R 0 (length (c :: chunks)) c tid w0)
    as [[[]|e] wa] eqn:Ha.
  2:{ unfold announce in Ha. rewrite !bind_run in Ha. discriminate. }
  assert (Hha : heap wa = heap w).
  { unfold announce in Ha. rewrite !bind_run in Ha. cbn [publish] in Ha.
    injection Ha as <-. exact Hh0. }
  rewrite <- Hha in Hd, Hl.
  destruct (disable_chunking_shares cfg l wa d dl Hd Hc Hl)
    as (cc & wd & Hrun & _ & _ & _ & _ & Hdis & _).
  eapply grows_disabled; [|exact Hdis].
  rewrite bind_run, Hrun.
  match goal with
  | |- grows wd (snd (bind ?inner ?k wd)) => apply (steady_bind inner k)
  end.
  - apply steady_inner.
  - intros cr. apply steady_bind; [apply steady_collect|].
    intros acc. apply steady_chunk_loop.
Qed.

(** X21.  After a chunked job that got to its first chunk, chunking is off
    for every later job under the same configuration object: whatever file
    [transcribe_audio] is then given, it runs the single-shot pipeline, and
    replacing the chunked pipeline by any other function would change
    nothing. *)
Theorem later_jobs_are_not_chunked (E : Chunked.env) (a : args) (w : world)
    (cfg l : loc) (d dl : dict) (fmt : OutputFormat) (m : WhisperModel)
    (duration : number) (c : chunk_info) (chunks : list chunk_info) :
  config a = Some cfg ->
  heap w !! cfg = Some d ->
  d !! "chunking" = Some (VRef l) ->
  heap w !! l = Some dl ->
  to_format (output_format a) = Ok fmt ->
  to_model (base E) (model a) = Ok m ->
  new_chunker (base E) = Ok tt ->
  get_audio_duration (base E) (audio_path a) = Ok duration ->
  split_audio E (audio_path a) = Ok (c :: chunks) ->
  let w' := snd (transcribe_audio_chunked R E a w) in
  forall (E2 : Chunked.env) (a2 : args) chunked,
    config a2 = Some cfg ->
    transcribe_audio R E2 a2 w'
    = transcribe_audio_with R chunked (base E2) a2 w'.
Proof.
  intros Hcfg Hd Hc Hl Hfmt Hm Hnew Hdur Hsplit w' E2 a2 chunked Hcfg2.
  pose proof (job_disables_chunking E a w cfg l d dl fmt m duration c chunks
                Hcfg Hd Hc Hl Hfmt Hm Hnew Hdur Hsplit) as Hdis.
  fold w' in Hdis. unfold transcribe_audio.
  rewrite (inner_never_chunks R (transcribe_audio_chunked R E2) (base E2)
             a2 w' cfg l Hcfg2 Hdis).
  now rewrite (inner_never_chunks R chunked (base E2) a2 w' cfg l Hcfg2 Hdis).
Qed.

End Afterwards.

Lemma later_jobs_are_not_chunked_witness :
  let w' := snd (transcribe_audio_chunked Sample.posix Sample.three_chunks
                   Facts.talk Sample.configured) in
  transcribe_audio Sample.posix Sample.three_chunks Facts.talk w'
  = transcribe_audio_with Sample.posix too_deep (base Sample.three_chunks)
      Facts.talk w'.
Proof.
  intros w'.
  refine (later_jobs_are_not_chunked Sample.posix Sample.three_chunks
            Facts.talk Sample.configured 1%positive 2%positive
            {[ "chunking"%string := VRef 2; "output"%string := VRef 3 ]}
            {[ "enabled"%string := VBool true;
               "max_duration_minutes"%string := VNum (NInt 20) ]}
            JSON Facts.turbo (NInt 3600) _ _
            eq_refl _ _ _ eq_refl eq_refl eq_refl eq_refl eq_refl
            Sample.three_chunks Facts.talk too_deep eq_refl);
    vm_compute; reflexivity.
Defined.

End Jobs.
